(** * A recursive-descent recogniser and interpreter for binary-logic programs

    Shallow embedding of [runner.py] (recogniser and interpreter) and
    [scanner.py] (recogniser only).  Both files build a plex scanner from the
    same lexicon and drive it from one procedure per grammar nonterminal:

      Stmt_list   ->  Stmt Stmt_list | .
      Stmt        ->  id = Expr | print Expr.
      Expr        ->  Term Term_tail.
      Term_tail   ->  xor Term Term_tail | .
      Term        ->  Factor Factor_tail.
      Factor_tail ->  or Factor Factor_tail | .
      Factor      ->  Atom Atom_tail.
      Atom_tail   ->  and Atom Atom_tail | .
      Atom        ->  (Expr) | bin | id.

    Python exceptions are modelled by a result type that keeps the parser
    state reached when the exception was raised (the parser object is mutated
    in place and survives the exception); the Python call stack is modelled by
    a recursion budget. *)

From Stdlib Require Import ZArith String Ascii List Lia DecimalString.
From stdpp Require Import base decidable option list strings gmap.

Local Open Scope Z_scope.

(** ** Tokens *)

(** The actions of the lexicon: the values [self.la] takes besides [None]. *)
Inductive kind : Set :=
  | Kand | Kor | Kxor | Kassign | Kprint | Klparen | Krparen | Kbin | Kid.

#[global] Instance kind_eq_dec : EqDecision kind.
Proof. solve_decision. Defined.

(** The Python string each action is. *)
Definition kind_name (k : kind) : string :=
  match k with
  | Kand => "and" | Kor => "or" | Kxor => "xor" | Kassign => "="
  | Kprint => "print" | Klparen => "(" | Krparen => ")"
  | Kbin => "bin" | Kid => "id"
  end.

(** [str(self.la)], as [format] renders it: [None] at end of input. *)
Definition la_name (la : option kind) : string :=
  match la with Some k => kind_name k | None => "None" end.

(** A source position: line (from 1) and column (from 0). *)
Definition position : Set := (nat * nat)%type.

Record token : Set := Token { tkind : kind; ttext : string; tpos : position }.

(** ** The scanner

    [plex.Scanner] hands out, one [read()] at a time, the tokens of the text
    and then either the end-of-input pair [(None, '')] or an
    [UnrecognizedInput] error.  Its state is what it has still to hand out,
    and the start position of the last thing it scanned, which is what
    [position()] reports. *)
Inductive stream_end : Set :=
  | AtEof (p : position)
  | Unrecognized (p : position).

Record scanner : Set :=
  Scanner { pending : list token; ending : stream_end; start : position }.

(** [scanner.read()]: [None] stands for the raised [PlexError]. *)
Definition read (sc : scanner) : option (option kind * string) * scanner :=
  match pending sc with
  | t :: rest => (Some (Some (tkind t), ttext t), Scanner rest (ending sc) (tpos t))
  | [] =>
      match ending sc with
      | AtEof p => (Some (None, EmptyString), Scanner [] (ending sc) p)
      | Unrecognized p => (None, Scanner [] (ending sc) p)
      end
  end.

(** *** The lexicon of [create_scanner] *)

Definition in_range (lo hi : nat) (c : ascii) : bool :=
  (lo <=? nat_of_ascii c)%nat && (nat_of_ascii c <=? hi)%nat.

(** [plex.Any(' \t\n')] *)
Definition is_space (c : ascii) : bool :=
  in_range 32 32 c || in_range 9 10 c.
Definition is_newline (c : ascii) : bool := in_range 10 10 c.
(** [plex.Range('01')] *)
Definition is_bin (c : ascii) : bool := in_range 48 49 c.
(** [plex.Range('09')] *)
Definition is_digit (c : ascii) : bool := in_range 48 57 c.
(** [plex.Range('AZaz')] *)
Definition is_letter (c : ascii) : bool := in_range 65 90 c || in_range 97 122 c.

(** A word matches [variable]; when it also matches one of the keyword
    patterns, both matches have the same length and the keyword, which comes
    first in the lexicon, wins. *)
Definition word_kind (w : string) : kind :=
  if String.eqb w "and" then Kand
  else if String.eqb w "or" then Kor
  else if String.eqb w "xor" then Kxor
  else if String.eqb w "print" then Kprint
  else Kid.

(** The longest match in progress: nothing, a run of binary digits, or a
    letter followed by letters and digits. *)
Inductive partial : Set :=
  | Idle
  | InBin (p : position) (acc : string)
  | InWord (p : position) (acc : string).

Definition flush (m : partial) : list token :=
  match m with
  | Idle => []
  | InBin p acc => [Token Kbin acc p]
  | InWord p acc => [Token (word_kind acc) acc p]
  end.

Definition continues (m : partial) (c : ascii) : bool :=
  match m with
  | Idle => false
  | InBin _ _ => is_bin c
  | InWord _ _ => is_letter c || is_digit c
  end.

Definition extend (m : partial) (c : ascii) : partial :=
  match m with
  | Idle => Idle
  | InBin p acc => InBin p (acc +:+ String c EmptyString)
  | InWord p acc => InWord p (acc +:+ String c EmptyString)
  end.

Definition emit (ts : list token) (r : list token * stream_end)
  : list token * stream_end := (ts ++ r.1, r.2).

(** Longest-match scanning of the text, one character at a time. *)
Fixpoint scan_text (input : string) (line col : nat) (m : partial)
  : list token * stream_end :=
  match input with
  | EmptyString => (flush m, AtEof (line, col))
  | String c rest =>
      if continues m c then scan_text rest line (S col) (extend m c)
      else if is_space c then
        emit (flush m)
          (if is_newline c then scan_text rest (S line) 0%nat Idle
           else scan_text rest line (S col) Idle)
      else if Ascii.eqb c "=" then
        emit (flush m ++ [Token Kassign "=" (line, col)])
          (scan_text rest line (S col) Idle)
      else if Ascii.eqb c "(" then
        emit (flush m ++ [Token Klparen "(" (line, col)])
          (scan_text rest line (S col) Idle)
      else if Ascii.eqb c ")" then
        emit (flush m ++ [Token Krparen ")" (line, col)])
          (scan_text rest line (S col) Idle)
      else if is_bin c then
        emit (flush m)
          (scan_text rest line (S col) (InBin (line, col) (String c EmptyString)))
      else if is_letter c then
        emit (flush m)
          (scan_text rest line (S col) (InWord (line, col) (String c EmptyString)))
      else (flush m, Unrecognized (line, col))
  end.

(** [plex.Scanner(lexicon, fp)] on a file whose content is [text]. *)
Definition plex_scanner (text : string) : scanner :=
  let r := scan_text text 1%nat 0%nat Idle in
  Scanner r.1 r.2 (0%nat, 0%nat).

(** ** Exceptions and results *)

Inductive exn : Set :=
  | PlexError
  | ParseError (msg : string).

(** The outcome of a procedure run on a parser object of type [St]: it
    returns, or raises with the object as the exception left it, or the
    recursion budget is spent. *)
Inductive result (St A : Type) : Type :=
  | Ok (a : A) (s : St)
  | Raise (e : exn) (s : St)
  | Exhausted.
Arguments Ok {St A} a s.
Arguments Raise {St A} e s.
Arguments Exhausted {St A}.

Definition M (St A : Type) : Type := St -> result St A.

Definition ret {St A} (a : A) : M St A := fun s => Ok a s.
Definition raise {St A} (e : exn) : M St A := fun s => Raise e s.
Definition exhausted {St A} : M St A := fun _ => Exhausted.
Definition bind {St A B} (m : M St A) (k : A -> M St B) : M St B :=
  fun s =>
    match m s with
    | Ok a s' => k a s'
    | Raise e s' => Raise e s'
    | Exhausted => Exhausted
    end.

Notation "'let*' x ':=' m 'in' k" := (bind m (fun x => k))
  (at level 10, x name, m at level 100, k at level 200).
Notation "m ';;;' k" := (bind m (fun _ => k))
  (at level 100, k at level 200, right associativity).

(** A double-quoted word inside an error message. *)
Definition dq (w : string) : string :=
  String "034"%char EmptyString +:+ w +:+ String "034"%char EmptyString.

(** ** Values *)

(** [int(text, 2)] on a lexeme of the [binary] pattern, a nonempty run of the
    digits 0 and 1, which is all the lexicon gives kind [bin]. *)
Definition int_base2 (text : string) : Z :=
  fold_left (fun acc c => 2 * acc + (if Ascii.eqb c "1" then 1 else 0))
    (list_ascii_of_string text) 0.

Fixpoint bin_digits (p : positive) : string :=
  match p with
  | xH => "1"
  | xO q => bin_digits q +:+ "0"
  | xI q => bin_digits q +:+ "1"
  end.

(** [format(v, 'b')] *)
Definition format_b (v : Z) : string :=
  match v with
  | Z0 => "0"
  | Zpos p => bin_digits p
  | Zneg p => "-" +:+ bin_digits p
  end.

(** ** The driver's diagnostics *)

(** [str(n)] for a line or column number. *)
Definition decimal (n : nat) : string := NilEmpty.string_of_uint (Nat.to_uint n).

(** ["Scanner Error: at line {} char {}".format(lineno, charno+1)] *)
Definition scanner_diag (p : position) : string :=
  "Scanner Error: at line " +:+ decimal p.1 +:+ " char " +:+ decimal (p.2 + 1).

(** ["Parser Error: {} at line {} char {}".format(perr, lineno, charno+1)] *)
Definition parser_diag (msg : string) (p : position) : string :=
  "Parser Error: " +:+ msg +:+ " at line " +:+ decimal p.1 +:+ " char "
    +:+ decimal (p.2 + 1).

(** A recursion budget that no run on the scanner's tokens can spend. *)
Definition budget (sc : scanner) : nat := 4 * length (pending sc) + 10.

(** ** Error messages

    The two files raise [ParseError] with the same texts. *)
Definition err_found (found : option kind) (expected : kind) : string :=
  "found " +:+ la_name found +:+ " instead of " +:+ kind_name expected.

Definition err_stmt_list : string :=
  "in stmt_list: " +:+ dq "id" +:+ " or " +:+ dq "print" +:+ " expected".
Definition err_stmt : string :=
  "in stmt: " +:+ dq "id" +:+ " or " +:+ dq "print" +:+ " expected".
Definition err_first (who : string) : string :=
  "in " +:+ who +:+ ": " +:+ dq "(" +:+ ", " +:+ dq "id" +:+ " or " +:+ dq "bin"
    +:+ " expected".
Definition err_term_tail : string :=
  "in term_tail: " +:+ dq "xor" +:+ ", " +:+ dq ")" +:+ ", "
    +:+ dq "id" +:+ " or " +:+ dq "print" +:+ " expected".
Definition err_factor_tail : string :=
  "in term_tail: " +:+ dq "or" +:+ ", " +:+ dq ")" +:+ ", " +:+ dq "xor" +:+ ", "
    +:+ dq "id" +:+ " or " +:+ dq "print" +:+ " expected".
Definition err_atom_tail : string :=
  "in atom_tail: " +:+ dq "and" +:+ ", " +:+ dq ")" +:+ ", " +:+ dq "or" +:+ ", "
    +:+ dq "xor" +:+ ", " +:+ dq "id" +:+ " or " +:+ dq "print" +:+ " expected".
Definition err_undefined : string := "in atom: unrecognized variable name".

(** ** runner.py *)
Module Runner.

(** The parser object: scanner, lookahead kind and lexeme, the dictionary
    of variables, and the lines printed so far. *)
Record pstate : Type :=
  PState { scan : scanner; la : option kind; val : string;
           vars : gmap string Z; out : list string }.

(** [self.la, self.val = self.next_token()] *)
Definition advance : M pstate unit := fun s =>
  match read (scan s) with
  | (Some (k, text), sc) => Ok tt (PState sc k text (vars s) (out s))
  | (None, sc) => Raise PlexError (PState sc (la s) (val s) (vars s) (out s))
  end.

Definition position (s : pstate) : position := start (scan s).

Definition match_ (tok : kind) : M pstate unit := fun s =>
  if decide (la s = Some tok) then advance s
  else Raise (ParseError (err_found (la s) tok)) s.

Definition get_la : M pstate (option kind) := fun s => Ok (la s) s.
Definition get_val : M pstate string := fun s => Ok (val s) s.
Definition get_var (x : string) : M pstate (option Z) :=
  fun s => Ok (vars s !! x) s.
(** [self.vars[x] = v] *)
Definition set_var (x : string) (v : Z) : M pstate unit := fun s =>
  Ok tt (PState (scan s) (la s) (val s) (<[x := v]> (vars s)) (out s)).
(** [print(line)] *)
Definition print (line : string) : M pstate unit := fun s =>
  Ok tt (PState (scan s) (la s) (val s) (vars s) (out s ++ [line])).

(** One procedure per nonterminal, each written over the procedures it
    calls. *)
Section Procedures.
Variables stmt_list stmt : M pstate unit.
Variables expr term factor atom : M pstate Z.
Variables term_tail factor_tail atom_tail : Z -> M pstate Z.

Definition stmt_list_body : M pstate unit :=
  let* k := get_la in
  match k with
  | Some Kid | Some Kprint => stmt ;;; stmt_list
  | None => ret tt
  | _ => raise (ParseError err_stmt_list)
  end.

Definition stmt_body : M pstate unit :=
  let* k := get_la in
  match k with
  | Some Kid =>
      let* val_id := get_val in
      match_ Kid ;;;
      match_ Kassign ;;;
      let* v := expr in
      set_var val_id v
  | Some Kprint =>
      match_ Kprint ;;;
      let* v := expr in
      print (format_b v)
  | _ => raise (ParseError err_stmt)
  end.

Definition expr_body : M pstate Z :=
  let* k := get_la in
  match k with
  | Some Klparen | Some Kid | Some Kbin =>
      let* val_term := term in
      term_tail val_term
  | _ => raise (ParseError (err_first "expr"))
  end.

Definition term_tail_body (val_expr : Z) : M pstate Z :=
  let* k := get_la in
  match k with
  | Some Kxor =>
      match_ Kxor ;;;
      let* val_term := term in
      let* rest := term_tail val_term in
      ret (Z.lxor val_expr rest)
  | Some Krparen | Some Kid | Some Kprint | None => ret val_expr
  | _ => raise (ParseError err_term_tail)
  end.

Definition term_body : M pstate Z :=
  let* k := get_la in
  match k with
  | Some Klparen | Some Kid | Some Kbin =>
      let* val_factor := factor in
      factor_tail val_factor
  | _ => raise (ParseError (err_first "term"))
  end.

Definition factor_tail_body (val_term : Z) : M pstate Z :=
  let* k := get_la in
  match k with
  | Some Kor =>
      match_ Kor ;;;
      let* val_factor := factor in
      let* rest := factor_tail val_factor in
      ret (Z.lor val_term rest)
  | Some Krparen | Some Kxor | Some Kid | Some Kprint | None =>
      ret val_term
  | _ => raise (ParseError err_factor_tail)
  end.

Definition factor_body : M pstate Z :=
  let* k := get_la in
  match k with
  | Some Klparen | Some Kid | Some Kbin =>
      let* val_atom := atom in
      atom_tail val_atom
  | _ => raise (ParseError (err_first "factor"))
  end.

Definition atom_tail_body (val_factor : Z) : M pstate Z :=
  let* k := get_la in
  match k with
  | Some Kand =>
      match_ Kand ;;;
      let* val_atom := atom in
      let* rest := atom_tail val_atom in
      ret (Z.land val_factor rest)
  | Some Krparen | Some Kor | Some Kxor | Some Kid | Some Kprint
  | None => ret val_factor
  | _ => raise (ParseError err_atom_tail)
  end.

Definition atom_body : M pstate Z :=
  let* k := get_la in
  match k with
  | Some Klparen =>
      match_ Klparen ;;;
      let* val_expr := expr in
      match_ Krparen ;;;
      ret val_expr
  | Some Kid =>
      let* val_id := get_val in
      match_ Kid ;;;
      let* found := get_var val_id in
      match found with
      | Some v => ret v
      | None => raise (ParseError err_undefined)
      end
  | Some Kbin =>
      let* text := get_val in
      let val_bin := int_base2 text in
      match_ Kbin ;;;
      ret val_bin
  | _ => raise (ParseError (err_first "atom"))
  end.
End Procedures.

(** The procedures themselves: [n] is the depth of Python call stack a
    call may use, and every call leaves one level less to its callees. *)
#[warnings="-non-full-mutual"]
Fixpoint stmt_list (n : nat) : M pstate unit :=
  match n with
  | O => exhausted
  | S n => stmt_list_body (stmt_list n) (stmt n)
  end
with stmt (n : nat) : M pstate unit :=
  match n with
  | O => exhausted
  | S n => stmt_body (expr n)
  end
with expr (n : nat) : M pstate Z :=
  match n with
  | O => exhausted
  | S n => expr_body (term n) (term_tail n)
  end
with term_tail (n : nat) (val_expr : Z) : M pstate Z :=
  match n with
  | O => exhausted
  | S n => term_tail_body (term n) (term_tail n) val_expr
  end
with term (n : nat) : M pstate Z :=
  match n with
  | O => exhausted
  | S n => term_body (factor n) (factor_tail n)
  end
with factor_tail (n : nat) (val_term : Z) : M pstate Z :=
  match n with
  | O => exhausted
  | S n => factor_tail_body (factor n) (factor_tail n) val_term
  end
with factor (n : nat) : M pstate Z :=
  match n with
  | O => exhausted
  | S n => factor_body (atom n) (atom_tail n)
  end
with atom_tail (n : nat) (val_factor : Z) : M pstate Z :=
  match n with
  | O => exhausted
  | S n => atom_tail_body (atom n) (atom_tail n) val_factor
  end
with atom (n : nat) : M pstate Z :=
  match n with
  | O => exhausted
  | S n => atom_body (expr n)
  end.

(** [create_scanner(fp)]: the scanner and an empty dictionary, the
    lookahead still to be read. *)
Definition fresh (text : string) : pstate :=
  PState (plex_scanner text) None EmptyString ∅ [].

(** [parse(fp)] *)
Definition parse (n : nat) (text : string) : result pstate unit :=
  (advance ;;; stmt_list n) (fresh text).

(** The main part of the program: the lines on standard output. *)
Definition main (text : string) : option (list string) :=
  match parse (budget (plex_scanner text)) text with
  | Ok _ s => Some (out s)
  | Raise PlexError s => Some (out s ++ [scanner_diag (position s)])
  | Raise (ParseError msg) s => Some (out s ++ [parser_diag msg (position s)])
  | Exhausted => None
  end.

End Runner.

(** ** scanner.py *)
Module Recognizer.

(** The parser object: scanner, lookahead kind and lexeme.  There is no
    dictionary, and the procedures print nothing. *)
Record rstate : Type :=
  RState { scan : scanner; la : option kind; val : string }.

(** [self.la, self.val = self.next_token()] *)
Definition advance : M rstate unit := fun s =>
  match read (scan s) with
  | (Some (k, text), sc) => Ok tt (RState sc k text)
  | (None, sc) => Raise PlexError (RState sc (la s) (val s))
  end.

Definition position (s : rstate) : position := start (scan s).

Definition match_ (tok : kind) : M rstate unit := fun s =>
  if decide (la s = Some tok) then advance s
  else Raise (ParseError (err_found (la s) tok)) s.

Definition get_la : M rstate (option kind) := fun s => Ok (la s) s.

(** The same procedures without the values. *)
Section Procedures.
Variables stmt_list stmt : M rstate unit.
Variables expr term factor atom : M rstate unit.
Variables term_tail factor_tail atom_tail : M rstate unit.

Definition stmt_list_body : M rstate unit :=
  let* k := get_la in
  match k with
  | Some Kid | Some Kprint => stmt ;;; stmt_list
  | None => ret tt
  | _ => raise (ParseError err_stmt_list)
  end.

Definition stmt_body : M rstate unit :=
  let* k := get_la in
  match k with
  | Some Kid => match_ Kid ;;; match_ Kassign ;;; expr
  | Some Kprint => match_ Kprint ;;; expr
  | _ => raise (ParseError err_stmt)
  end.

Definition expr_body : M rstate unit :=
  let* k := get_la in
  match k with
  | Some Klparen | Some Kid | Some Kbin => term ;;; term_tail
  | _ => raise (ParseError (err_first "expr"))
  end.

Definition term_tail_body : M rstate unit :=
  let* k := get_la in
  match k with
  | Some Kxor => match_ Kxor ;;; term ;;; term_tail
  | Some Krparen | Some Kid | Some Kprint | None => ret tt
  | _ => raise (ParseError err_term_tail)
  end.

Definition term_body : M rstate unit :=
  let* k := get_la in
  match k with
  | Some Klparen | Some Kid | Some Kbin => factor ;;; factor_tail
  | _ => raise (ParseError (err_first "term"))
  end.

Definition factor_tail_body : M rstate unit :=
  let* k := get_la in
  match k with
  | Some Kor => match_ Kor ;;; factor ;;; factor_tail
  | Some Krparen | Some Kxor | Some Kid | Some Kprint | None => ret tt
  | _ => raise (ParseError err_factor_tail)
  end.

Definition factor_body : M rstate unit :=
  let* k := get_la in
  match k with
  | Some Klparen | Some Kid | Some Kbin => atom ;;; atom_tail
  | _ => raise (ParseError (err_first "factor"))
  end.

Definition atom_tail_body : M rstate unit :=
  let* k := get_la in
  match k with
  | Some Kand => match_ Kand ;;; atom ;;; atom_tail
  | Some Krparen | Some Kor | Some Kxor | Some Kid | Some Kprint
  | None => ret tt
  | _ => raise (ParseError err_atom_tail)
  end.

Definition atom_body : M rstate unit :=
  let* k := get_la in
  match k with
  | Some Klparen => match_ Klparen ;;; expr ;;; match_ Krparen
  | Some Kid => match_ Kid
  | Some Kbin => match_ Kbin
  | _ => raise (ParseError (err_first "atom"))
  end.
End Procedures.

#[warnings="-non-full-mutual"]
Fixpoint stmt_list (n : nat) : M rstate unit :=
  match n with
  | O => exhausted
  | S n => stmt_list_body (stmt_list n) (stmt n)
  end
with stmt (n : nat) : M rstate unit :=
  match n with
  | O => exhausted
  | S n => stmt_body (expr n)
  end
with expr (n : nat) : M rstate unit :=
  match n with
  | O => exhausted
  | S n => expr_body (term n) (term_tail n)
  end
with term_tail (n : nat) : M rstate unit :=
  match n with
  | O => exhausted
  | S n => term_tail_body (term n) (term_tail n)
  end
with term (n : nat) : M rstate unit :=
  match n with
  | O => exhausted
  | S n => term_body (factor n) (factor_tail n)
  end
with factor_tail (n : nat) : M rstate unit :=
  match n with
  | O => exhausted
  | S n => factor_tail_body (factor n) (factor_tail n)
  end
with factor (n : nat) : M rstate unit :=
  match n with
  | O => exhausted
  | S n => factor_body (atom n) (atom_tail n)
  end
with atom_tail (n : nat) : M rstate unit :=
  match n with
  | O => exhausted
  | S n => atom_tail_body (atom n) (atom_tail n)
  end
with atom (n : nat) : M rstate unit :=
  match n with
  | O => exhausted
  | S n => atom_body (expr n)
  end.

(** [create_scanner(fp)] *)
Definition fresh (text : string) : rstate :=
  RState (plex_scanner text) None EmptyString.

(** [parse(fp)] *)
Definition parse (n : nat) (text : string) : result rstate unit :=
  (advance ;;; stmt_list n) (fresh text).

(** The main part of the program: the lines on standard output. *)
Definition main (text : string) : option (list string) :=
  match parse (budget (plex_scanner text)) text with
  | Ok _ s => Some []
  | Raise PlexError s => Some [scanner_diag (position s)]
  | Raise (ParseError msg) s => Some [parser_diag msg (position s)]
  | Exhausted => None
  end.

End Recognizer.

(** * Vocabulary of the properties *)

(** [m2] does whatever [m1] does, once [m1] has stack enough to finish. *)
Definition refines {St A} (m1 m2 : M St A) : Prop :=
  ∀ s, m1 s ≠ Exhausted → m2 s = m1 s.

(** The tokens a parser object has not consumed yet: those the scanner
    still holds, and the lookahead. *)
Definition tokens_left (sc : scanner) (la : option kind) : nat :=
  length (pending sc) + (if la is Some _ then 1 else 0).

Definition rleft (s : Recognizer.rstate) : nat :=
  tokens_left (Recognizer.scan s) (Recognizer.la s).

(** A run of [m] that returns has consumed at least [d] tokens. *)
Definition consumes {A} (d : nat) (m : M Recognizer.rstate A) : Prop :=
  ∀ s a s', m s = Ok a s' → (rleft s' + d <= rleft s)%nat.

(** [m] has stack enough on every object with fewer than [K] tokens left. *)
Definition live {A} (K : nat) (m : M Recognizer.rstate A) : Prop :=
  ∀ s, (rleft s < K)%nat → m s ≠ Exhausted.

(** What the recogniser sees of the interpreter's parser object. *)
Definition erase (s : Runner.pstate) : Recognizer.rstate :=
  Recognizer.RState (Runner.scan s) (Runner.la s) (Runner.val s).

(** The recogniser's outcome [r2] agrees with the interpreter's [r1]: the
    same return, the same exception on the same scanner and lookahead, the
    same exhaustion, except that where the interpreter raises for a variable
    without a value the recogniser is left free. *)
Definition agrees {A} (r1 : result Runner.pstate A)
    (r2 : result Recognizer.rstate unit) : Prop :=
  match r1 with
  | Ok _ s' => r2 = Ok tt (erase s')
  | Raise e s' => e = ParseError err_undefined ∨ r2 = Raise e (erase s')
  | Exhausted => r2 = Exhausted
  end.

Definition simulates {A} (m1 : M Runner.pstate A)
    (m2 : M Recognizer.rstate unit) : Prop :=
  ∀ s, agrees (m1 s) (m2 (erase s)).

(** A step of the interpreter the recogniser does not have: it returns
    without touching scanner or lookahead, or raises for a variable without
    a value. *)
Definition unseen {A} (m : M Runner.pstate A) : Prop :=
  ∀ s, (∃ a s', m s = Ok a s' ∧ erase s' = erase s)
       ∨ (∃ s', m s = Raise (ParseError err_undefined) s').

Definition pleft (s : Runner.pstate) : nat :=
  tokens_left (Runner.scan s) (Runner.la s).

(** The statement list run on a parser object, on the driver's budget. *)
Definition run_from (s : Runner.pstate) : result Runner.pstate unit :=
  Runner.stmt_list (budget (Runner.scan s)) s.

(** The parser object when the tokens [ts] and then the end of input are
    what is left to parse: the first of them is the lookahead.  [vs] is the
    dictionary and [o] the lines printed so far. *)
Definition load (ts : list token) (fin : position) (vs : gmap string Z)
    (o : list string) : Runner.pstate :=
  match ts with
  | [] => Runner.PState (Scanner [] (AtEof fin) fin) None EmptyString vs o
  | t :: rest =>
      Runner.PState (Scanner rest (AtEof fin) (tpos t))
        (Some (tkind t)) (ttext t) vs o
  end.

(** [msg] is a message of the form ["in who: ..."]. *)
Definition names (who msg : string) : bool :=
  String.prefix ("in " +:+ who +:+ ":") msg.


(** The lookaheads on which [factor_tail] takes neither its production nor
    the empty alternative. *)
Definition factor_tail_rejects (la : option kind) : bool :=
  match la with
  | Some Kand | Some Kassign | Some Klparen | Some Kbin => true
  | _ => false
  end.


(** [m] leaves dictionary and output as they are, whether it returns or
    raises. *)
Definition keeps {A} (m : M Runner.pstate A) : Prop :=
  ∀ s, match m s with
       | Ok _ s' | Raise _ s' =>
           Runner.vars s' = Runner.vars s ∧ Runner.out s' = Runner.out s
       | Exhausted => True
       end.

(** [completed s sk]: statements run one after the other from the parser
    object [s], each to its return, leave the object [sk]. *)
Inductive completed : Runner.pstate -> Runner.pstate -> Prop :=
  | completed_none s : completed s s
  | completed_stmt n s s1 sk :
      Runner.stmt n s = Ok tt s1 → completed s1 sk → completed s sk.


(** The parser object once [create_scanner] has read the first lookahead of
    the text (the object as created, where that read raises). *)
Definition started (text : string) : Runner.pstate :=
  match Runner.advance (Runner.fresh text) with
  | Ok _ s => s
  | Raise _ _ | Exhausted => Runner.fresh text
  end.


(** A lexeme of the [binary] pattern: one or more of the digits 0 and 1. *)
Definition binary_literal (L : string) : bool :=
  match L with
  | EmptyString => false
  | String _ _ => forallb is_bin (list_ascii_of_string L)
  end.

(** A binary numeral without leading zeros: [0] itself, or binary digits
    of which the first is [1]. *)
Definition minimal_binary (s : string) : bool :=
  String.eqb s "0"
  || (String.prefix "1" s && forallb is_bin (list_ascii_of_string s)).


(** The lines printed by the statement list on the tokens [ts], started
    with the dictionary [vs], when it runs to completion. *)
Definition run_tokens (ts : list token) (vs : gmap string Z)
  : option (list string) :=
  match run_from (load ts (1, 0)%nat vs []) with
  | Ok _ s => Some (Runner.out s)
  | Raise _ _ | Exhausted => None
  end.

(** A token of the given kind and lexeme (its position does not matter to
    the values). *)
Definition tk (k : kind) (text : string) : token := Token k text (1, 0)%nat.
Definition op_tk (k : kind) : token := tk k (kind_name k).

(** A dictionary giving the variables [a], [b], [c] the values given. *)
Definition env3 (a b c : Z) : gmap string Z :=
  <["a" := a]> (<["b" := b]> (<["c" := c]> ∅)).

(** [op l1 op l2 ... op lk]: what follows the first operand in a chain of
    literals at one precedence level. *)
Definition links (op : kind) (ls : list string) : list token :=
  flat_map (fun l => [op_tk op; tk Kbin l]) ls.

(** The value the tail procedures accumulate: the inherited operand combined
    with the result of the rest of the chain. *)
Fixpoint accumulate (op : Z -> Z -> Z) (v : Z) (rest : list Z) : Z :=
  match rest with
  | [] => v
  | t :: rest' => op v (accumulate op t rest')
  end.

(** What may follow an operand for [atom_tail], and for [atom_tail] and
    [factor_tail] both, to return the inherited operand: the end of the
    input, or a token of their FOLLOW branches. *)
Definition atom_tail_stops (rest : list token) : bool :=
  match rest with
  | [] => true
  | t :: _ =>
      match tkind t with
      | Krparen | Kor | Kxor | Kid | Kprint => true
      | _ => false
      end
  end.

Definition factor_tail_stops (rest : list token) : bool :=
  match rest with
  | [] => true
  | t :: _ =>
      match tkind t with
      | Krparen | Kxor | Kid | Kprint => true
      | _ => false
      end
  end.


(** A parser object over a scanner that ends at the end of input, and
    whose lookahead is [None] only when the scanner has handed out
    everything. *)
Definition tidy (s : Runner.pstate) : Prop :=
  (∃ p, ending (Runner.scan s) = AtEof p)
  ∧ (Runner.la s = None → pending (Runner.scan s) = []).

(** The parser object [s] when the tokens [t :: rest] are put between the
    tokens [s] has left and the end of the input. *)
Definition graft (t : token) (rest : list token) (s : Runner.pstate)
  : Runner.pstate :=
  match Runner.la s with
  | Some _ =>
      Runner.PState
        (Scanner (pending (Runner.scan s) ++ t :: rest)
           (ending (Runner.scan s)) (start (Runner.scan s)))
        (Runner.la s) (Runner.val s) (Runner.vars s) (Runner.out s)
  | None =>
      Runner.PState
        (Scanner rest (ending (Runner.scan s)) (tpos t))
        (Some (tkind t)) (ttext t) (Runner.vars s) (Runner.out s)
  end.

(** A run of [m] that returns on a tidy object where [P] holds returns the
    same value when [t :: rest] is put after the tokens of the object, and
    leaves those tokens to be parsed. *)
Definition framed_at {A} (t : token) (rest : list token)
    (P : Runner.pstate -> Prop) (m : M Runner.pstate A) : Prop :=
  ∀ s a s', tidy s → P s → m s = Ok a s' →
            tidy s' ∧ m (graft t rest s) = Ok a (graft t rest s').

Definition framed {A} (t : token) (rest : list token)
    (m : M Runner.pstate A) : Prop :=
  framed_at t rest (fun _ => True) m.


(** [m], run on a parser object where [I] holds, returns a value where [Q]
    holds on an object where [I] holds, or raises on an object where [E]
    holds of the exception. *)
Definition respects {St A} (I : St -> Prop) (E : exn -> St -> Prop)
    (Q : A -> Prop) (m : M St A) : Prop :=
  ∀ s, I s →
       match m s with
       | Ok a s' => Q a ∧ I s'
       | Raise e s' => E e s'
       | Exhausted => True
       end.

(** A parser object whose values are all zero or more, and whose printed
    lines are all binary numerals without leading zeros. *)
Definition wholesome (s : Runner.pstate) : Prop :=
  map_Forall (fun _ v => 0 <= v) (Runner.vars s)
  ∧ Forall (fun line => minimal_binary line = true) (Runner.out s).

(** The position plex has reached once it has read the characters [pre]
    from line [line], column [col]: a newline starts the next line at
    column 0, any other character is one column. *)
Fixpoint walk (pre : string) (line col : nat) : position :=
  match pre with
  | EmptyString => (line, col)
  | String c rest =>
      if is_newline c then walk rest (S line) 0%nat
      else walk rest line (S col)
  end.

(** The characters some pattern of the lexicon starts with. *)
Definition starts_token (c : ascii) : bool :=
  is_space c || Ascii.eqb c "=" || Ascii.eqb c "(" || Ascii.eqb c ")"
  || is_bin c || is_letter c.

(** The scanner has handed out everything the text holds and the end of
    the input at position [p]. *)
Definition drained (sc : scanner) (p : position) : Prop :=
  pending sc = [] ∧ ending sc = AtEof p ∧ start sc = p.

(** A lexeme of the [variable] pattern: a letter, then letters and digits. *)
Definition is_word (w : string) : bool :=
  match w with
  | EmptyString => false
  | String c r =>
      is_letter c
      && forallb (fun d => is_letter d || is_digit d) (list_ascii_of_string r)
  end.

(** The lexeme of a token is one its pattern matches: the text of the
    pattern for the keywords and the punctuation, binary digits for [bin],
    and for [id] a word that is none of the keywords. *)
Definition lexeme_ok (t : token) : bool :=
  match tkind t with
  | Kbin => binary_literal (ttext t)
  | Kid =>
      is_word (ttext t)
      && negb (existsb (String.eqb (ttext t)) ["and"; "or"; "xor"; "print"])
  | k => String.eqb (ttext t) (kind_name k)
  end.

(** What a longest match in progress has taken so far. *)
Definition taken (m : partial) : string :=
  match m with
  | Idle => EmptyString
  | InBin _ acc | InWord _ acc => acc
  end.

Definition partial_ok (m : partial) : bool :=
  match m with
  | Idle => true
  | InBin _ acc => binary_literal acc
  | InWord _ acc => is_word acc
  end.

(** The lexemes of the tokens, one after the other. *)
Definition lexemes (ts : list token) : string :=
  fold_right (fun t rest => ttext t +:+ rest) EmptyString ts.

(** The text without its spaces, tabs and newlines. *)
Fixpoint despace (text : string) : string :=
  match text with
  | EmptyString => EmptyString
  | String c rest =>
      if is_space c then despace rest else String c (despace rest)
  end.

(** The tokens of [print 1], [k] times over. *)
Fixpoint print_ones (k : nat) : list token :=
  match k with
  | O => []
  | S k => op_tk Kprint :: tk Kbin "1" :: print_ones k
  end.

(** [k] zeros. *)
Fixpoint zeros (k : nat) : string :=
  match k with
  | O => EmptyString
  | S k => String "0" (zeros k)
  end.

(** The lookaheads on which the tail procedures return their operand: the
    FOLLOW sets of [Atom_tail], [Factor_tail] and [Term_tail]. *)
Definition follows_factor (k : option kind) : bool :=
  match k with
  | Some Krparen | Some Kor | Some Kxor | Some Kid | Some Kprint | None => true
  | _ => false
  end.

Definition follows_term (k : option kind) : bool :=
  match k with
  | Some Krparen | Some Kxor | Some Kid | Some Kprint | None => true
  | _ => false
  end.

Definition follows_expr (k : option kind) : bool :=
  match k with
  | Some Krparen | Some Kid | Some Kprint | None => true
  | _ => false
  end.

Definition starts_stmt (k : option kind) : bool :=
  match k with
  | Some Kid | Some Kprint => true
  | _ => false
  end.

Definition any_la (k : option kind) : bool := true.

Definition la_is (k : option kind) (l : option kind) : bool :=
  bool_decide (l = k).

(** The ParseErrors of the [else] branches of [stmt], [term_tail] and
    [factor_tail]. *)
Definition own_error_of_stmt_or_tail (e : exn) : bool :=
  match e with
  | ParseError msg =>
      String.eqb msg err_stmt || String.eqb msg err_term_tail
      || String.eqb msg err_factor_tail
  | PlexError => false
  end.

(** Called with a lookahead in [P], [m] returns with a lookahead in [Q],
    and raises none of those three errors. *)
Definition guarded {A} (P Q : option kind -> bool)
    (m : M Recognizer.rstate A) : Prop :=
  ∀ s, P (Recognizer.la s) = true →
       match m s with
       | Ok _ s' => Q (Recognizer.la s') = true
       | Raise e _ => own_error_of_stmt_or_tail e = false
       | Exhausted => True
       end.

(** The token [t] stands in the text [full] where its position says: its
    lexeme is in the text, and its position is the one plex has reached
    after the characters before the lexeme. *)
Definition located (full : string) (t : token) : Prop :=
  ∃ pre post, full = pre +:+ ttext t +:+ post ∧ tpos t = walk pre 1 0.

(** The longest match in progress [m] has taken the last characters of
    [done], and started where they start. *)
Definition partial_at (done : string) (m : partial) : Prop :=
  match m with
  | Idle => True
  | InBin p acc | InWord p acc =>
      ∃ before, done = before +:+ acc ∧ p = walk before 1 0
  end.




(** What the parser sees of a token: its kind and its lexeme. *)
Definition shape (t : token) : kind * string := (tkind t, ttext t).

(** Two ways of ending that differ in the position at most. *)
Definition same_end (a b : stream_end) : bool :=
  match a, b with
  | AtEof _, AtEof _ | Unrecognized _, Unrecognized _ => true
  | _, _ => false
  end.

(** Scanners that hand out tokens of the same kinds and lexemes and end the
    same way, whatever the positions. *)
Definition alike_scanner (a b : scanner) : Prop :=
  map shape (pending a) = map shape (pending b)
  ∧ same_end (ending a) (ending b) = true.

(** Parser objects that differ in positions at most. *)
Definition alike (s s' : Runner.pstate) : Prop :=
  alike_scanner (Runner.scan s) (Runner.scan s')
  ∧ Runner.la s = Runner.la s' ∧ Runner.val s = Runner.val s'
  ∧ Runner.vars s = Runner.vars s' ∧ Runner.out s = Runner.out s'.

Definition alike_result {A} (r r' : result Runner.pstate A) : Prop :=
  match r, r' with
  | Ok a s, Ok a' s' => a = a' ∧ alike s s'
  | Raise e s, Raise e' s' => e = e' ∧ alike s s'
  | Exhausted, Exhausted => True
  | _, _ => False
  end.

(** [m] does the same on parser objects that differ in positions only. *)
Definition steady {A} (m : M Runner.pstate A) : Prop :=
  ∀ s s', alike s s' → alike_result (m s) (m s').

(** The text with every run of spaces, tabs and newlines made one space;
    [after_blank] says that the character before was one of them. *)
Fixpoint squeeze_from (after_blank : bool) (text : string) : string :=
  match text with
  | EmptyString => EmptyString
  | String c rest =>
      if is_space c then
        if after_blank then squeeze_from true rest
        else String " " (squeeze_from true rest)
      else String c (squeeze_from false rest)
  end.

Definition squeeze (text : string) : string := squeeze_from false text.

(** Longest matches in progress that have taken the same characters. *)
Definition same_partial (m m' : partial) : Prop :=
  match m, m' with
  | Idle, Idle => True
  | InBin _ acc, InBin _ acc' | InWord _ acc, InWord _ acc' => acc = acc'
  | _, _ => False
  end.

(** The integer a string of binary digits stands for, as positional
    notation has it: the digit with [k] digits after it counts [2 ^ k]
    when it is [1]. *)
Fixpoint positional_value (L : string) : Z :=
  match L with
  | EmptyString => 0
  | String c rest =>
      (if Ascii.eqb c "1" then 2 ^ Z.of_nat (String.length rest) else 0)
      + positional_value rest
  end.

(** [L] without the zeros it starts with. *)
Fixpoint strip_zeros (L : string) : string :=
  match L with
  | EmptyString => EmptyString
  | String c rest => if Ascii.eqb c "0" then strip_zeros rest else L
  end.

(** The canonical form of a binary literal: its leading zeros stripped,
    and the bare [0] when nothing is left. *)
Definition canonical (L : string) : string :=
  match strip_zeros L with
  | EmptyString => "0"
  | stripped => stripped
  end.

(** The nine procedures, the tail procedures with the operand they are
    given. *)
Inductive proc : Type :=
  | PStmtList | PStmt | PExpr | PTerm | PFactor | PAtom
  | PTermTail (v : Z) | PFactorTail (v : Z) | PAtomTail (v : Z).

(** The lookaheads an expression starts with. *)
Definition starts_expr (k : option kind) : bool :=
  match k with
  | Some Klparen | Some Kid | Some Kbin => true
  | _ => false
  end.

(** [hits_undefined p n s e s']: the call of [p] with stack [n] on the
    parser object [s] comes, through the calls the procedures make one
    after the other, to a call of [atom] on an identifier that has no value
    in the dictionary; [e] is what that call raises and [s'] the object it
    leaves.  Each rule is one place of the source where a procedure calls
    another: the calls before it have returned. *)
Inductive hits_undefined
  : proc -> nat -> Runner.pstate -> exn -> Runner.pstate -> Prop :=
  | hit_here n s s' :
      Runner.la s = Some Kid → Runner.vars s !! Runner.val s = None →
      Runner.match_ Kid s = Ok tt s' →
      hits_undefined PAtom (S n) s (ParseError err_undefined) s'
  | hit_no_next_token n s e s' :
      Runner.la s = Some Kid → Runner.vars s !! Runner.val s = None →
      Runner.match_ Kid s = Raise e s' →
      hits_undefined PAtom (S n) s e s'
  | hit_in_parentheses n s s1 e s' :
      Runner.la s = Some Klparen → Runner.match_ Klparen s = Ok tt s1 →
      hits_undefined PExpr n s1 e s' →
      hits_undefined PAtom (S n) s e s'
  | hit_factor_atom n s e s' :
      starts_expr (Runner.la s) = true →
      hits_undefined PAtom n s e s' →
      hits_undefined PFactor (S n) s e s'
  | hit_factor_tail n s v s1 e s' :
      starts_expr (Runner.la s) = true → Runner.atom n s = Ok v s1 →
      hits_undefined (PAtomTail v) n s1 e s' →
      hits_undefined PFactor (S n) s e s'
  | hit_term_factor n s e s' :
      starts_expr (Runner.la s) = true →
      hits_undefined PFactor n s e s' →
      hits_undefined PTerm (S n) s e s'
  | hit_term_tail n s v s1 e s' :
      starts_expr (Runner.la s) = true → Runner.factor n s = Ok v s1 →
      hits_undefined (PFactorTail v) n s1 e s' →
      hits_undefined PTerm (S n) s e s'
  | hit_expr_term n s e s' :
      starts_expr (Runner.la s) = true →
      hits_undefined PTerm n s e s' →
      hits_undefined PExpr (S n) s e s'
  | hit_expr_tail n s v s1 e s' :
      starts_expr (Runner.la s) = true → Runner.term n s = Ok v s1 →
      hits_undefined (PTermTail v) n s1 e s' →
      hits_undefined PExpr (S n) s e s'
  | hit_and_atom n v s s1 e s' :
      Runner.la s = Some Kand → Runner.match_ Kand s = Ok tt s1 →
      hits_undefined PAtom n s1 e s' →
      hits_undefined (PAtomTail v) (S n) s e s'
  | hit_and_tail n v s s1 w s2 e s' :
      Runner.la s = Some Kand → Runner.match_ Kand s = Ok tt s1 →
      Runner.atom n s1 = Ok w s2 →
      hits_undefined (PAtomTail w) n s2 e s' →
      hits_undefined (PAtomTail v) (S n) s e s'
  | hit_or_factor n v s s1 e s' :
      Runner.la s = Some Kor → Runner.match_ Kor s = Ok tt s1 →
      hits_undefined PFactor n s1 e s' →
      hits_undefined (PFactorTail v) (S n) s e s'
  | hit_or_tail n v s s1 w s2 e s' :
      Runner.la s = Some Kor → Runner.match_ Kor s = Ok tt s1 →
      Runner.factor n s1 = Ok w s2 →
      hits_undefined (PFactorTail w) n s2 e s' →
      hits_undefined (PFactorTail v) (S n) s e s'
  | hit_xor_term n v s s1 e s' :
      Runner.la s = Some Kxor → Runner.match_ Kxor s = Ok tt s1 →
      hits_undefined PTerm n s1 e s' →
      hits_undefined (PTermTail v) (S n) s e s'
  | hit_xor_tail n v s s1 w s2 e s' :
      Runner.la s = Some Kxor → Runner.match_ Kxor s = Ok tt s1 →
      Runner.term n s1 = Ok w s2 →
      hits_undefined (PTermTail w) n s2 e s' →
      hits_undefined (PTermTail v) (S n) s e s'
  | hit_print n s s1 e s' :
      Runner.la s = Some Kprint → Runner.match_ Kprint s = Ok tt s1 →
      hits_undefined PExpr n s1 e s' →
      hits_undefined PStmt (S n) s e s'
  | hit_assignment n s s1 s2 e s' :
      Runner.la s = Some Kid → Runner.match_ Kid s = Ok tt s1 →
      Runner.match_ Kassign s1 = Ok tt s2 →
      hits_undefined PExpr n s2 e s' →
      hits_undefined PStmt (S n) s e s'
  | hit_statement n s e s' :
      Runner.la s = Some Kid ∨ Runner.la s = Some Kprint →
      hits_undefined PStmt n s e s' →
      hits_undefined PStmtList (S n) s e s'
  | hit_later_statement n s s1 e s' :
      Runner.la s = Some Kid ∨ Runner.la s = Some Kprint →
      Runner.stmt n s = Ok tt s1 →
      hits_undefined PStmtList n s1 e s' →
      hits_undefined PStmtList (S n) s e s'.

(** What it is for the call of [p] to raise [e] leaving [s']. *)
Definition raises (p : proc) (n : nat) (s : Runner.pstate) (e : exn)
    (s' : Runner.pstate) : Prop :=
  match p with
  | PStmtList => Runner.stmt_list n s = Raise e s'
  | PStmt => Runner.stmt n s = Raise e s'
  | PExpr => Runner.expr n s = Raise e s'
  | PTerm => Runner.term n s = Raise e s'
  | PFactor => Runner.factor n s = Raise e s'
  | PAtom => Runner.atom n s = Raise e s'
  | PTermTail v => Runner.term_tail n v s = Raise e s'
  | PFactorTail v => Runner.factor_tail n v s = Raise e s'
  | PAtomTail v => Runner.atom_tail n v s = Raise e s'
  end.

(** [statement_done s s1]: one statement, read from the parser object [s],
    has done what a statement is to do and left [s1].  An assignment has
    consumed the identifier and [=], evaluated the expression that follows,
    and stored its value under the identifier; a print has consumed
    [print], evaluated the expression that follows, and added its value in
    binary to the output.  Nothing else of dictionary and output has
    changed, and scanner and lookahead are where the expression left
    them. *)
Inductive statement_done (s : Runner.pstate) : Runner.pstate -> Prop :=
  | assignment_done n s1 s2 v s3 :
      Runner.la s = Some Kid →
      Runner.match_ Kid s = Ok tt s1 →
      Runner.match_ Kassign s1 = Ok tt s2 →
      Runner.expr n s2 = Ok v s3 →
      statement_done s
        (Runner.PState (Runner.scan s3) (Runner.la s3) (Runner.val s3)
           (<[Runner.val s := v]> (Runner.vars s)) (Runner.out s))
  | print_done n s1 v s2 :
      Runner.la s = Some Kprint →
      Runner.match_ Kprint s = Ok tt s1 →
      Runner.expr n s1 = Ok v s2 →
      statement_done s
        (Runner.PState (Runner.scan s2) (Runner.la s2) (Runner.val s2)
           (Runner.vars s) (Runner.out s ++ [format_b v])).

(** Statements done one after the other. *)
Inductive statements_done : Runner.pstate -> Runner.pstate -> Prop :=
  | done_none s : statements_done s s
  | done_more s s1 sk :
      statement_done s s1 → statements_done s1 sk → statements_done s sk.

(** The statement list stops at the parser object [sk] with the exception
    [e], leaving [s']: the statement that starts at [sk] raises [e], or
    [sk] has a lookahead that starts no statement and [stmt_list] raises
    its own ParseError. *)
Definition stops_at (sk : Runner.pstate) (e : exn) (s' : Runner.pstate)
  : Prop :=
  ((Runner.la sk = Some Kid ∨ Runner.la sk = Some Kprint)
   ∧ ∃ m, Runner.stmt m sk = Raise e s')
  ∨ (Runner.la sk ≠ Some Kid ∧ Runner.la sk ≠ Some Kprint
     ∧ Runner.la sk ≠ None
     ∧ e = ParseError err_stmt_list ∧ s' = sk).

(** * Properties *)

(** ** More stack changes nothing *)

Lemma refines_refl {St A} (m : M St A) : refines m m.
Proof. intros s _. reflexivity. Qed.

Lemma refines_exhausted {St A} (m : M St A) : refines exhausted m.
Proof. intros s H. now destruct H. Qed.

Lemma refines_bind {St A B} (m1 m2 : M St A) (k1 k2 : A -> M St B) :
  refines m1 m2 → (∀ a, refines (k1 a) (k2 a)) →
  refines (bind m1 k1) (bind m2 k2).
Proof.
  intros Hm Hk s. unfold bind. intros Hne.
  rewrite (Hm s) by (intros E; rewrite E in Hne; now apply Hne).
  destruct (m1 s) as [a s'| |]; try reflexivity.
  now apply Hk.
Qed.

Ltac refines_step :=
  first
    [ assumption
    | apply refines_refl
    | match goal with H : ∀ v, refines (_ v) (_ v) |- _ => apply H end
    | apply refines_bind; [| intros ?]
    | match goal with |- refines (match ?k with _ => _ end) _ => destruct k end ].

Section RunnerBodies.
Import Runner.
Variables stmt_list1 stmt_list2 stmt1 stmt2 : M pstate unit.
Variables expr1 expr2 term1 term2 factor1 factor2 atom1 atom2 : M pstate Z.
Variables term_tail1 term_tail2 factor_tail1 factor_tail2
          atom_tail1 atom_tail2 : Z -> M pstate Z.
Hypothesis Hstmt_list : refines stmt_list1 stmt_list2.
Hypothesis Hstmt : refines stmt1 stmt2.
Hypothesis Hexpr : refines expr1 expr2.
Hypothesis Hterm : refines term1 term2.
Hypothesis Hfactor : refines factor1 factor2.
Hypothesis Hatom : refines atom1 atom2.
Hypothesis Hterm_tail : ∀ v, refines (term_tail1 v) (term_tail2 v).
Hypothesis Hfactor_tail : ∀ v, refines (factor_tail1 v) (factor_tail2 v).
Hypothesis Hatom_tail : ∀ v, refines (atom_tail1 v) (atom_tail2 v).

Lemma stmt_list_body_refines :
  refines (stmt_list_body stmt_list1 stmt1) (stmt_list_body stmt_list2 stmt2).
Proof. unfold stmt_list_body. repeat refines_step. Qed.

Lemma stmt_body_refines : refines (stmt_body expr1) (stmt_body expr2).
Proof. unfold stmt_body. repeat refines_step. Qed.

Lemma expr_body_refines :
  refines (expr_body term1 term_tail1) (expr_body term2 term_tail2).
Proof. unfold expr_body. repeat refines_step. Qed.

Lemma term_tail_body_refines v :
  refines (term_tail_body term1 term_tail1 v) (term_tail_body term2 term_tail2 v).
Proof. unfold term_tail_body. repeat refines_step. Qed.

Lemma term_body_refines :
  refines (term_body factor1 factor_tail1) (term_body factor2 factor_tail2).
Proof. unfold term_body. repeat refines_step. Qed.

Lemma factor_tail_body_refines v :
  refines (factor_tail_body factor1 factor_tail1 v)
          (factor_tail_body factor2 factor_tail2 v).
Proof. unfold factor_tail_body. repeat refines_step. Qed.

Lemma factor_body_refines :
  refines (factor_body atom1 atom_tail1) (factor_body atom2 atom_tail2).
Proof. unfold factor_body. repeat refines_step. Qed.

Lemma atom_tail_body_refines v :
  refines (atom_tail_body atom1 atom_tail1 v) (atom_tail_body atom2 atom_tail2 v).
Proof. unfold atom_tail_body. repeat refines_step. Qed.

Lemma atom_body_refines : refines (atom_body expr1) (atom_body expr2).
Proof. unfold atom_body. repeat refines_step. Qed.
End RunnerBodies.

Lemma runner_refines n m :
  (n <= m)%nat →
  refines (Runner.stmt_list n) (Runner.stmt_list m)
  ∧ refines (Runner.stmt n) (Runner.stmt m)
  ∧ refines (Runner.expr n) (Runner.expr m)
  ∧ refines (Runner.term n) (Runner.term m)
  ∧ refines (Runner.factor n) (Runner.factor m)
  ∧ refines (Runner.atom n) (Runner.atom m)
  ∧ (∀ v, refines (Runner.term_tail n v) (Runner.term_tail m v))
  ∧ (∀ v, refines (Runner.factor_tail n v) (Runner.factor_tail m v))
  ∧ (∀ v, refines (Runner.atom_tail n v) (Runner.atom_tail m v)).
Proof.
  revert m. induction n as [|n IH]; intros m Hle.
  - repeat split; intros; apply refines_exhausted.
  - destruct m as [|m]; [lia|].
    destruct (IH m ltac:(lia)) as (H1 & H2 & H3 & H4 & H5 & H6 & H7 & H8 & H9).
    simpl. repeat split; intros.
    + now apply stmt_list_body_refines.
    + now apply stmt_body_refines.
    + now apply expr_body_refines.
    + now apply term_body_refines.
    + now apply factor_body_refines.
    + now apply atom_body_refines.
    + now apply term_tail_body_refines.
    + now apply factor_tail_body_refines.
    + now apply atom_tail_body_refines.
Qed.

(** ** The recogniser consumes tokens and terminates *)

Lemma consumes_zero {A} d (m : M Recognizer.rstate A) :
  consumes d m → consumes 0 m.
Proof. intros H s a s' E. specialize (H s a s' E). lia. Qed.

Lemma consumes_bind {A B} d1 d2 (m : M Recognizer.rstate A)
    (k : A -> M Recognizer.rstate B) :
  consumes d1 m → (∀ a, consumes d2 (k a)) → consumes (d1 + d2) (bind m k).
Proof.
  intros Hm Hk s b s'. unfold bind.
  destruct (m s) as [a s1| |] eqn:E; try discriminate.
  intros E2. specialize (Hm _ _ _ E). specialize (Hk _ _ _ _ E2). lia.
Qed.

Lemma consumes_ret {A} (a : A) : consumes 0 (ret a).
Proof. intros s b s' [= _ ->]. lia. Qed.

Lemma consumes_raise {A} d e : consumes (A := A) d (raise e).
Proof. intros s b s'. discriminate. Qed.

Lemma consumes_exhausted {A} d : consumes (A := A) d exhausted.
Proof. intros s b s'. discriminate. Qed.

Lemma consumes_get_la : consumes 0 Recognizer.get_la.
Proof. intros s b s' [= _ ->]. lia. Qed.

Lemma consumes_match tok : consumes 1 (Recognizer.match_ tok).
Proof.
  intros [[p e st] l v] a s'. unfold Recognizer.match_, Recognizer.advance, read.
  simpl. destruct (decide (l = Some tok)) as [->|]; [|discriminate].
  destruct p as [|t p]; simpl.
  - destruct e; [|discriminate]. intros [= _ <-]. unfold rleft, tokens_left. simpl. lia.
  - intros [= _ <-]. unfold rleft, tokens_left. simpl. lia.
Qed.

Ltac consumes0 :=
  repeat first
    [ apply consumes_ret
    | apply consumes_raise
    | apply consumes_get_la
    | apply (consumes_zero 1); apply consumes_match
    | eapply consumes_zero; eassumption
    | apply (consumes_bind 0 0); [| intros ?]
    | match goal with |- consumes _ (match ?k with _ => _ end) => destruct k end ].

Ltac consumes1 :=
  apply (consumes_bind 0 1); [apply consumes_get_la | intros [[]|]];
  try apply consumes_raise;
  try (apply (consumes_bind 1 0);
       [first [apply consumes_match | assumption] | intros ?; consumes0]).

Section RecognizerConsumes.
Import Recognizer.
Variables stmt_list' stmt' expr' term' factor' atom' : M rstate unit.
Variables term_tail' factor_tail' atom_tail' : M rstate unit.
Hypothesis Hstmt_list : consumes 0 stmt_list'.
Hypothesis Hstmt : consumes 1 stmt'.
Hypothesis Hexpr : consumes 1 expr'.
Hypothesis Hterm : consumes 1 term'.
Hypothesis Hfactor : consumes 1 factor'.
Hypothesis Hatom : consumes 1 atom'.
Hypothesis Hterm_tail : consumes 0 term_tail'.
Hypothesis Hfactor_tail : consumes 0 factor_tail'.
Hypothesis Hatom_tail : consumes 0 atom_tail'.

Lemma stmt_list_body_consumes : consumes 0 (stmt_list_body stmt_list' stmt').
Proof. unfold stmt_list_body. consumes0. Qed.

Lemma stmt_body_consumes : consumes 1 (stmt_body expr').
Proof. unfold stmt_body. consumes1. Qed.

Lemma expr_body_consumes : consumes 1 (expr_body term' term_tail').
Proof. unfold expr_body. consumes1. Qed.

Lemma term_tail_body_consumes : consumes 0 (term_tail_body term' term_tail').
Proof. unfold term_tail_body. consumes0. Qed.

Lemma term_body_consumes : consumes 1 (term_body factor' factor_tail').
Proof. unfold term_body. consumes1. Qed.

Lemma factor_tail_body_consumes :
  consumes 0 (factor_tail_body factor' factor_tail').
Proof. unfold factor_tail_body. consumes0. Qed.

Lemma factor_body_consumes : consumes 1 (factor_body atom' atom_tail').
Proof. unfold factor_body. consumes1. Qed.

Lemma atom_tail_body_consumes : consumes 0 (atom_tail_body atom' atom_tail').
Proof. unfold atom_tail_body. consumes0. Qed.

Lemma atom_body_consumes : consumes 1 (atom_body expr').
Proof.
  unfold atom_body. consumes1; apply consumes_match.
Qed.
End RecognizerConsumes.

Lemma recognizer_consumes n :
  consumes 0 (Recognizer.stmt_list n)
  ∧ consumes 1 (Recognizer.stmt n)
  ∧ consumes 1 (Recognizer.expr n)
  ∧ consumes 1 (Recognizer.term n)
  ∧ consumes 1 (Recognizer.factor n)
  ∧ consumes 1 (Recognizer.atom n)
  ∧ consumes 0 (Recognizer.term_tail n)
  ∧ consumes 0 (Recognizer.factor_tail n)
  ∧ consumes 0 (Recognizer.atom_tail n).
Proof.
  induction n as [|n (H1 & H2 & H3 & H4 & H5 & H6 & H7 & H8 & H9)].
  - repeat split; apply consumes_exhausted.
  - simpl. repeat split.
    + now apply stmt_list_body_consumes.
    + now apply stmt_body_consumes.
    + now apply expr_body_consumes.
    + now apply term_body_consumes.
    + now apply factor_body_consumes.
    + now apply atom_body_consumes.
    + now apply term_tail_body_consumes.
    + now apply factor_tail_body_consumes.
    + now apply atom_tail_body_consumes.
Qed.

Lemma live_weaken {A} K K' (m : M Recognizer.rstate A) :
  live K m → (K' <= K)%nat → live K' m.
Proof. intros H Hle s Hs. apply H. lia. Qed.

Lemma live_bind {A B} K d (m : M Recognizer.rstate A)
    (k : A -> M Recognizer.rstate B) :
  live K m → consumes d m → (∀ a, live (K - d) (k a)) → live K (bind m k).
Proof.
  intros Hm Hd Hk s Hs. unfold bind.
  specialize (Hm s Hs). destruct (m s) as [a s'| |] eqn:E;
    [| discriminate | contradiction].
  apply Hk. specialize (Hd _ _ _ E). lia.
Qed.

Lemma live_ret {A} K (a : A) : live K (ret a).
Proof. intros s _. discriminate. Qed.

Lemma live_raise {A} K e : live (A := A) K (raise e).
Proof. intros s _. discriminate. Qed.

Lemma live_get_la K : live K Recognizer.get_la.
Proof. intros s _. discriminate. Qed.

Lemma live_match K tok : live K (Recognizer.match_ tok).
Proof.
  intros s _. unfold Recognizer.match_, Recognizer.advance.
  destruct (decide _); [|discriminate].
  destruct (read _) as [[[k t]|] sc]; discriminate.
Qed.

Ltac live_go :=
  repeat first
    [ apply live_ret
    | apply live_raise
    | apply live_get_la
    | apply live_match
    | match goal with
      | H : live _ ?m |- live _ ?m => apply (live_weaken _ _ _ H); lia
      end
    | eapply live_bind;
      [ | first [apply consumes_get_la | apply consumes_match | eassumption]
        | intros ? ]
    | match goal with |- live _ (match ?k with _ => _ end) => destruct k end ].

Section RecognizerLive.
Import Recognizer.
Variable K : nat.
Variables stmt_list' stmt' expr' term' factor' atom' : M rstate unit.
Variables term_tail' factor_tail' atom_tail' : M rstate unit.
Hypothesis Cstmt : consumes 1 stmt'.
Hypothesis Cexpr : consumes 1 expr'.
Hypothesis Cterm : consumes 1 term'.
Hypothesis Cfactor : consumes 1 factor'.
Hypothesis Catom : consumes 1 atom'.

Lemma stmt_list_body_live :
  live K stmt' → live (K - 1) stmt_list' →
  live K (stmt_list_body stmt_list' stmt').
Proof. intros. unfold stmt_list_body. live_go. Qed.

Lemma stmt_body_live : live (K - 1) expr' → live K (stmt_body expr').
Proof. intros. unfold stmt_body. live_go. Qed.

Lemma expr_body_live :
  live K term' → live (K - 1) term_tail' →
  live K (expr_body term' term_tail').
Proof. intros. unfold expr_body. live_go. Qed.

Lemma term_tail_body_live :
  live (K - 1) term' → live (K - 2) term_tail' →
  live K (term_tail_body term' term_tail').
Proof. intros. unfold term_tail_body. live_go. Qed.

Lemma term_body_live :
  live K factor' → live (K - 1) factor_tail' →
  live K (term_body factor' factor_tail').
Proof. intros. unfold term_body. live_go. Qed.

Lemma factor_tail_body_live :
  live (K - 1) factor' → live (K - 2) factor_tail' →
  live K (factor_tail_body factor' factor_tail').
Proof. intros. unfold factor_tail_body. live_go. Qed.

Lemma factor_body_live :
  live K atom' → live (K - 1) atom_tail' →
  live K (factor_body atom' atom_tail').
Proof. intros. unfold factor_body. live_go. Qed.

Lemma atom_tail_body_live :
  live (K - 1) atom' → live (K - 2) atom_tail' →
  live K (atom_tail_body atom' atom_tail').
Proof. intros. unfold atom_tail_body. live_go. Qed.

Lemma atom_body_live : live (K - 1) expr' → live K (atom_body expr').
Proof. intros. unfold atom_body. live_go. Qed.
End RecognizerLive.

(** The stack a procedure needs on an object with fewer than [K] tokens
    left: four levels a token, and the procedure's own rank. *)
Lemma recognizer_live n :
  ∀ K,
    ((4 * K + 6 <= n + 4)%nat → live K (Recognizer.stmt_list n))
    ∧ ((4 * K + 5 <= n + 4)%nat → live K (Recognizer.stmt n))
    ∧ ((4 * K + 4 <= n + 4)%nat → live K (Recognizer.expr n))
    ∧ ((4 * K + 3 <= n + 4)%nat → live K (Recognizer.term n))
    ∧ ((4 * K + 2 <= n + 4)%nat → live K (Recognizer.factor n))
    ∧ ((4 * K + 1 <= n + 4)%nat → live K (Recognizer.atom n))
    ∧ ((4 * K + 1 <= n + 4)%nat → live K (Recognizer.term_tail n))
    ∧ ((4 * K + 1 <= n + 4)%nat → live K (Recognizer.factor_tail n))
    ∧ ((4 * K + 1 <= n + 4)%nat → live K (Recognizer.atom_tail n)).
Proof.
  induction n as [|n IH]; intros K.
  - repeat split; intros HK s Hs; lia.
  - destruct (recognizer_consumes n)
      as (C1 & C2 & C3 & C4 & C5 & C6 & C7 & C8 & C9).
    pose proof (IH K) as (A1 & A2 & A3 & A4 & A5 & A6 & A7 & A8 & A9).
    pose proof (IH (K - 1)%nat) as (B1 & B2 & B3 & B4 & B5 & B6 & B7 & B8 & B9).
    pose proof (IH (K - 2)%nat) as (D1 & D2 & D3 & D4 & D5 & D6 & D7 & D8 & D9).
    simpl. repeat split; intros HK;
      (destruct K as [|K']; [intros s Hs; lia|]).
    + apply stmt_list_body_live; [assumption | apply A2; lia | apply B1; lia].
    + apply stmt_body_live. apply B3; lia.
    + apply expr_body_live; [assumption | apply A4; lia | apply B7; lia].
    + apply term_body_live; [assumption | apply A5; lia | apply B8; lia].
    + apply factor_body_live; [assumption | apply A6; lia | apply B9; lia].
    + apply atom_body_live; [assumption | apply B3; lia].
    + apply term_tail_body_live; [assumption | apply B4; lia | apply D7; lia].
    + apply factor_tail_body_live; [assumption | apply B5; lia | apply D8; lia].
    + apply atom_tail_body_live; [assumption | apply B6; lia | apply D9; lia].
Qed.

(** ** The recogniser follows the interpreter *)

Lemma sim_bind {A B} (m1 : M Runner.pstate A) (k1 : A -> M Runner.pstate B)
    (m2 k2 : M Recognizer.rstate unit) :
  simulates m1 m2 → (∀ a, simulates (k1 a) k2) →
  simulates (bind m1 k1) (bind m2 (fun _ => k2)).
Proof.
  intros Hm Hk s. unfold bind. specialize (Hm s).
  destruct (m1 s) as [a s'|e s'|]; simpl in Hm.
  - rewrite Hm. apply Hk.
  - destruct Hm as [-> | ->]; [now left | now right].
  - now rewrite Hm.
Qed.

Lemma sim_then_unseen {A B} (m1 : M Runner.pstate A)
    (k : A -> M Runner.pstate B) (m2 : M Recognizer.rstate unit) :
  simulates m1 m2 → (∀ a, unseen (k a)) → simulates (bind m1 k) m2.
Proof.
  intros Hm Hk s. unfold bind. specialize (Hm s).
  destruct (m1 s) as [a s'|e s'|]; simpl in Hm; try assumption.
  destruct (Hk a s') as [(b & s'' & -> & He)|(s'' & ->)]; simpl.
  - now rewrite He.
  - now left.
Qed.

Lemma sim_get_la {A} (f1 : option kind -> M Runner.pstate A)
    (f2 : option kind -> M Recognizer.rstate unit) :
  (∀ k, simulates (f1 k) (f2 k)) →
  simulates (bind Runner.get_la f1) (bind Recognizer.get_la f2).
Proof. intros H s. apply (H (Runner.la s) s). Qed.

Lemma sim_get_val {A} (k : string -> M Runner.pstate A)
    (m2 : M Recognizer.rstate unit) :
  (∀ a, simulates (k a) m2) → simulates (bind Runner.get_val k) m2.
Proof. intros H s. apply (H (Runner.val s) s). Qed.

Lemma sim_ret {A} (a : A) : simulates (ret a) (ret tt).
Proof. intros s. reflexivity. Qed.

Lemma sim_raise {A} e : simulates (A := A) (raise e) (raise e).
Proof. intros s. now right. Qed.

Lemma sim_exhausted {A} : simulates (A := A) exhausted exhausted.
Proof. intros s. reflexivity. Qed.

Lemma sim_match tok : simulates (Runner.match_ tok) (Recognizer.match_ tok).
Proof.
  intros s. unfold Runner.match_, Recognizer.match_, Runner.advance,
    Recognizer.advance. simpl.
  destruct (decide (Runner.la s = Some tok)); [|now right].
  destruct (read (Runner.scan s)) as [[[k t]|] sc]; simpl; [reflexivity | now right].
Qed.

Lemma unseen_ret {A} (a : A) : unseen (ret a).
Proof. intros s. left. now exists a, s. Qed.

Lemma unseen_set_var x v : unseen (Runner.set_var x v).
Proof. intros s. left. eexists _, _. split; reflexivity. Qed.

Lemma unseen_print line : unseen (Runner.print line).
Proof. intros s. left. eexists _, _. split; reflexivity. Qed.

Lemma unseen_lookup x :
  unseen (let* found := Runner.get_var x in
          match found with
          | Some v => ret v
          | None => raise (ParseError err_undefined)
          end).
Proof.
  intros s. unfold bind, Runner.get_var.
  destruct (Runner.vars s !! x) as [v|].
  - left. now exists v, s.
  - right. now exists s.
Qed.

Ltac sim_go :=
  repeat first
    [ apply sim_ret
    | apply sim_raise
    | apply sim_match
    | assumption
    | match goal with H : ∀ v, simulates (_ v) _ |- _ => apply H end
    | apply sim_get_la; intros [[]|]
    | apply sim_get_val; intros ?
    | apply sim_bind; [| intros ?]
    | apply sim_then_unseen;
      [| intros ?;
         first [apply unseen_ret | apply unseen_set_var | apply unseen_print
               | apply unseen_lookup] ] ].

Section Simulation.
Variables stmt_list1 stmt1 : M Runner.pstate unit.
Variables expr1 term1 factor1 atom1 : M Runner.pstate Z.
Variables term_tail1 factor_tail1 atom_tail1 : Z -> M Runner.pstate Z.
Variables stmt_list2 stmt2 expr2 term2 factor2 atom2 : M Recognizer.rstate unit.
Variables term_tail2 factor_tail2 atom_tail2 : M Recognizer.rstate unit.
Hypothesis Hstmt_list : simulates stmt_list1 stmt_list2.
Hypothesis Hstmt : simulates stmt1 stmt2.
Hypothesis Hexpr : simulates expr1 expr2.
Hypothesis Hterm : simulates term1 term2.
Hypothesis Hfactor : simulates factor1 factor2.
Hypothesis Hatom : simulates atom1 atom2.
Hypothesis Hterm_tail : ∀ v, simulates (term_tail1 v) term_tail2.
Hypothesis Hfactor_tail : ∀ v, simulates (factor_tail1 v) factor_tail2.
Hypothesis Hatom_tail : ∀ v, simulates (atom_tail1 v) atom_tail2.

Lemma stmt_list_body_sim :
  simulates (Runner.stmt_list_body stmt_list1 stmt1)
            (Recognizer.stmt_list_body stmt_list2 stmt2).
Proof. unfold Runner.stmt_list_body, Recognizer.stmt_list_body. sim_go. Qed.

Lemma stmt_body_sim :
  simulates (Runner.stmt_body expr1) (Recognizer.stmt_body expr2).
Proof. unfold Runner.stmt_body, Recognizer.stmt_body. sim_go. Qed.

Lemma expr_body_sim :
  simulates (Runner.expr_body term1 term_tail1)
            (Recognizer.expr_body term2 term_tail2).
Proof. unfold Runner.expr_body, Recognizer.expr_body. sim_go. Qed.

Lemma term_tail_body_sim v :
  simulates (Runner.term_tail_body term1 term_tail1 v)
            (Recognizer.term_tail_body term2 term_tail2).
Proof. unfold Runner.term_tail_body, Recognizer.term_tail_body. sim_go. Qed.

Lemma term_body_sim :
  simulates (Runner.term_body factor1 factor_tail1)
            (Recognizer.term_body factor2 factor_tail2).
Proof. unfold Runner.term_body, Recognizer.term_body. sim_go. Qed.

Lemma factor_tail_body_sim v :
  simulates (Runner.factor_tail_body factor1 factor_tail1 v)
            (Recognizer.factor_tail_body factor2 factor_tail2).
Proof.
  unfold Runner.factor_tail_body, Recognizer.factor_tail_body. sim_go.
Qed.

Lemma factor_body_sim :
  simulates (Runner.factor_body atom1 atom_tail1)
            (Recognizer.factor_body atom2 atom_tail2).
Proof. unfold Runner.factor_body, Recognizer.factor_body. sim_go. Qed.

Lemma atom_tail_body_sim v :
  simulates (Runner.atom_tail_body atom1 atom_tail1 v)
            (Recognizer.atom_tail_body atom2 atom_tail2).
Proof. unfold Runner.atom_tail_body, Recognizer.atom_tail_body. sim_go. Qed.

Lemma atom_body_sim :
  simulates (Runner.atom_body expr1) (Recognizer.atom_body expr2).
Proof. unfold Runner.atom_body, Recognizer.atom_body. sim_go. Qed.
End Simulation.

Lemma recognizer_simulates n :
  simulates (Runner.stmt_list n) (Recognizer.stmt_list n)
  ∧ simulates (Runner.stmt n) (Recognizer.stmt n)
  ∧ simulates (Runner.expr n) (Recognizer.expr n)
  ∧ simulates (Runner.term n) (Recognizer.term n)
  ∧ simulates (Runner.factor n) (Recognizer.factor n)
  ∧ simulates (Runner.atom n) (Recognizer.atom n)
  ∧ (∀ v, simulates (Runner.term_tail n v) (Recognizer.term_tail n))
  ∧ (∀ v, simulates (Runner.factor_tail n v) (Recognizer.factor_tail n))
  ∧ (∀ v, simulates (Runner.atom_tail n v) (Recognizer.atom_tail n)).
Proof.
  induction n as [|n (H1 & H2 & H3 & H4 & H5 & H6 & H7 & H8 & H9)].
  - repeat split; intros; apply sim_exhausted.
  - simpl. repeat split; intros.
    + now apply stmt_list_body_sim.
    + now apply stmt_body_sim.
    + now apply expr_body_sim.
    + now apply term_body_sim.
    + now apply factor_body_sim.
    + now apply atom_body_sim.
    + now apply term_tail_body_sim.
    + now apply factor_tail_body_sim.
    + now apply atom_tail_body_sim.
Qed.

(** ** The interpreter terminates, and the budget is enough *)

Lemma pleft_erase s : rleft (erase s) = pleft s.
Proof. reflexivity. Qed.

Lemma stmt_list_total n s :
  (4 * pleft s + 6 <= n)%nat → Runner.stmt_list n s ≠ Exhausted.
Proof.
  intros Hn E.
  destruct (recognizer_simulates n) as (H & _). specialize (H s).
  rewrite E in H. simpl in H.
  destruct (recognizer_live n (S (pleft s))) as (L & _).
  apply (L ltac:(lia) (erase s)); [rewrite pleft_erase; lia | exact H].
Qed.

Lemma expr_total n s :
  (4 * pleft s + 4 <= n)%nat → Runner.expr n s ≠ Exhausted.
Proof.
  intros Hn E.
  destruct (recognizer_simulates n) as (_ & _ & H & _). specialize (H s).
  rewrite E in H. simpl in H.
  destruct (recognizer_live n (S (pleft s))) as (_ & _ & L & _).
  apply (L ltac:(lia) (erase s)); [rewrite pleft_erase; lia | exact H].
Qed.

Lemma stmt_list_stable n m s :
  (n <= m)%nat → Runner.stmt_list n s ≠ Exhausted →
  Runner.stmt_list m s = Runner.stmt_list n s.
Proof. intros Hle. apply (runner_refines n m Hle). Qed.

Lemma stmt_stable n m s :
  (n <= m)%nat → Runner.stmt n s ≠ Exhausted →
  Runner.stmt m s = Runner.stmt n s.
Proof. intros Hle. apply (runner_refines n m Hle). Qed.

Lemma expr_stable n m s :
  (n <= m)%nat → Runner.expr n s ≠ Exhausted →
  Runner.expr m s = Runner.expr n s.
Proof. intros Hle. apply (runner_refines n m Hle). Qed.

Lemma pleft_budget s : (4 * pleft s + 6 <= budget (Runner.scan s))%nat.
Proof.
  unfold pleft, tokens_left, budget. destruct (Runner.la s); lia.
Qed.

Lemma run_from_total s : run_from s ≠ Exhausted.
Proof. apply stmt_list_total, pleft_budget. Qed.

(** Whatever a sufficient stack gives is what the budget gives. *)
Lemma run_from_eq n s r :
  Runner.stmt_list n s = r → r ≠ Exhausted → run_from s = r.
Proof.
  intros E Hr. unfold run_from.
  destruct (Nat.le_ge_cases n (budget (Runner.scan s))) as [Hle|Hle].
  - rewrite (stmt_list_stable _ _ _ Hle); rewrite E; auto.
  - rewrite <- E. symmetry. apply stmt_list_stable; [assumption|].
    apply run_from_total.
Qed.

(** The state of the interpreter once [create_scanner] has read the first
    lookahead. *)
Lemma parse_total text :
  Runner.parse (budget (plex_scanner text)) text ≠ Exhausted.
Proof.
  unfold Runner.parse, bind.
  destruct (Runner.advance (Runner.fresh text)) as [[] s| |] eqn:E;
    [| discriminate |].
  - apply stmt_list_total.
    unfold Runner.advance, Runner.fresh, read in E. simpl in E.
    unfold pleft, tokens_left, budget. simpl.
    destruct (scan_text text 1 0 Idle).1 as [|t ts]; simpl in *.
    + destruct (scan_text text 1 0 Idle).2; inversion E; subst; simpl; lia.
    + inversion E; subst; simpl; lia.
  - unfold Runner.advance in E.
    destruct (read _) as [[[k t]|] sc]; discriminate.
Qed.

Lemma recognizer_parse_total text :
  Recognizer.parse (budget (plex_scanner text)) text ≠ Exhausted.
Proof.
  unfold Recognizer.parse, bind.
  destruct (Recognizer.advance (Recognizer.fresh text)) as [[] s| |] eqn:E;
    [| discriminate |].
  - destruct (recognizer_live (budget (plex_scanner text)) (S (rleft s)))
      as (L & _).
    apply L; [| lia].
    unfold Recognizer.advance, Recognizer.fresh, read in E. simpl in E.
    unfold rleft, tokens_left, budget. simpl.
    destruct (scan_text text 1 0 Idle).1 as [|t ts]; simpl in *.
    + destruct (scan_text text 1 0 Idle).2; inversion E; subst; simpl; lia.
    + inversion E; subst; simpl; lia.
  - unfold Recognizer.advance in E.
    destruct (read _) as [[[k t]|] sc]; discriminate.
Qed.

(** ** match *)

(** C10.  When [match(token)] is called with a lookahead other than [token],
    it raises a ParseError and leaves the parser object exactly as it was:
    scanner (so no token is consumed), lookahead, lexeme, dictionary and
    output.  The same holds in scanner.py, whose parser objects are the
    [erase s]. *)
Theorem match_mismatch_raises_unchanged (tok : kind) (s : Runner.pstate)
    (H : Runner.la s ≠ Some tok) :
  Runner.match_ tok s
    = Raise (ParseError (err_found (Runner.la s) tok)) s
  ∧ Recognizer.match_ tok (erase s)
    = Raise (ParseError (err_found (Runner.la s) tok)) (erase s).
Proof.
  unfold Runner.match_, Recognizer.match_. simpl.
  destruct (decide (Runner.la s = Some tok)); [contradiction|]. now split.
Qed.

Lemma match_mismatch_witness :
  let s := load [Token Kbin "1" (1, 2)%nat] (1, 3)%nat ∅ [] in
  Runner.match_ Kassign s
    = Raise (ParseError (err_found (Runner.la s) Kassign)) s
  ∧ Recognizer.match_ Kassign (erase s)
    = Raise (ParseError (err_found (Runner.la s) Kassign)) (erase s).
Proof.
  intros s. apply (match_mismatch_raises_unchanged Kassign s). discriminate.
Defined.

(** ** The messages of the nonterminals *)

(** C7.  On a lookahead outside its FIRST and FOLLOW sets [factor_tail]
    raises a ParseError, in both files, but the message names [term_tail],
    not [factor_tail]; the other two tails name themselves. *)
Theorem factor_tail_error_names_term_tail (n : nat) (v : Z)
    (s : Runner.pstate) (H : factor_tail_rejects (Runner.la s) = true) :
  Runner.factor_tail (S n) v s = Raise (ParseError err_factor_tail) s
  ∧ Recognizer.factor_tail (S n) (erase s)
    = Raise (ParseError err_factor_tail) (erase s)
  ∧ names "factor_tail" err_factor_tail = false
  ∧ names "term_tail" err_factor_tail = true
  ∧ names "term_tail" err_term_tail = true
  ∧ names "atom_tail" err_atom_tail = true.
Proof.
  simpl. unfold Runner.factor_tail_body, Recognizer.factor_tail_body, bind,
    Runner.get_la, Recognizer.get_la. simpl.
  destruct (Runner.la s) as [[]|]; try discriminate; repeat split.
Qed.

Lemma factor_tail_error_witness :
  let s := load [Token Kassign "=" (1, 0)%nat] (1, 1)%nat ∅ [] in
  Runner.factor_tail 1 0 s = Raise (ParseError err_factor_tail) s
  ∧ Recognizer.factor_tail 1 (erase s)
    = Raise (ParseError err_factor_tail) (erase s)
  ∧ names "factor_tail" err_factor_tail = false
  ∧ names "term_tail" err_factor_tail = true
  ∧ names "term_tail" err_term_tail = true
  ∧ names "atom_tail" err_atom_tail = true.
Proof.
  intros s. apply (factor_tail_error_names_term_tail 0 0 s). reflexivity.
Defined.

(** In a run of the parser [factor_tail] is entered only when [factor] has
    returned, and [factor] returns only where [atom_tail] took one of its
    alternatives: the lookahead is then never one that [factor_tail]
    rejects.  The message above is seen only on a direct call. *)
Lemma atom_tail_returns_on_follow n :
  ∀ v s r s', Runner.atom_tail n v s = Ok r s' →
              factor_tail_rejects (Runner.la s') = false.
Proof.
  induction n as [|n IH]; intros v s r s' H; [discriminate|].
  simpl in H. unfold Runner.atom_tail_body, bind, Runner.get_la in H.
  destruct (Runner.la s) as [[]|] eqn:El; try discriminate H;
    try (injection H as _ <-; now rewrite El).
  destruct (Runner.match_ Kand s) as [[] s1| |]; try discriminate H.
  destruct (Runner.atom n s1) as [a s2| |]; try discriminate H.
  destruct (Runner.atom_tail n a s2) as [b s3| |] eqn:E; try discriminate H.
  injection H as _ <-. exact (IH _ _ _ _ E).
Qed.

Lemma factor_returns_on_follow n s v s' :
  Runner.factor n s = Ok v s' → factor_tail_rejects (Runner.la s') = false.
Proof.
  destruct n as [|n]; [discriminate|]. simpl.
  unfold Runner.factor_body, bind, Runner.get_la.
  destruct (Runner.la s) as [[]|]; try discriminate;
    (destruct (Runner.atom n s) as [a s1| |]; try discriminate;
     apply atom_tail_returns_on_follow).
Qed.

(** ** Recogniser and interpreter *)

Lemma sim_advance : simulates Runner.advance Recognizer.advance.
Proof.
  intros s. unfold Runner.advance, Recognizer.advance. simpl.
  destruct (read (Runner.scan s)) as [[[k t]|] sc]; simpl;
    [reflexivity | now right].
Qed.

Lemma parse_agrees n text :
  agrees (Runner.parse n text) (Recognizer.parse n text).
Proof.
  unfold Runner.parse, Recognizer.parse.
  change (Recognizer.fresh text) with (erase (Runner.fresh text)).
  apply sim_bind; [apply sim_advance | intros _; apply recognizer_simulates].
Qed.

(** C1, as the code has it.  On the budget of the driver both parsers
    finish.  If the interpreter runs to completion, the recogniser accepts;
    if the interpreter raises anything but the ParseError for a variable
    without a value, the recogniser raises the same exception on the same
    scanner and lookahead.  So the recogniser accepts only where the
    interpreter completes or stops at such a variable, and where the
    recogniser raises the interpreter raises too. *)
Theorem recognizer_follows_interpreter (text : string) :
  let n := budget (plex_scanner text) in
  Runner.parse n text ≠ Exhausted
  ∧ Recognizer.parse n text ≠ Exhausted
  ∧ (∀ s, Runner.parse n text = Ok tt s →
          Recognizer.parse n text = Ok tt (erase s))
  ∧ (∀ e s, Runner.parse n text = Raise e s → e ≠ ParseError err_undefined →
            Recognizer.parse n text = Raise e (erase s))
  ∧ (∀ r, Recognizer.parse n text = Ok tt r →
          (∃ s, Runner.parse n text = Ok tt s)
          ∨ (∃ s, Runner.parse n text = Raise (ParseError err_undefined) s))
  ∧ (∀ e r, Recognizer.parse n text = Raise e r →
            ∃ e' s, Runner.parse n text = Raise e' s
                    ∧ (e' = e ∨ e' = ParseError err_undefined)).
Proof.
  intros n. pose proof (parse_agrees n text) as Hag.
  pose proof (parse_total text) as Htot. fold n in Htot.
  pose proof (recognizer_parse_total text) as Hrtot. fold n in Hrtot.
  destruct (Runner.parse n text) as [[] s|e s|] eqn:E; simpl in Hag;
    [| | contradiction].
  - rewrite Hag. repeat split; try discriminate.
    + intros s' [= ->]. reflexivity.
    + intros r _. left. now exists s.
  - split; [discriminate|].
    destruct Hag as [->|Hag].
    + repeat split; try discriminate; try assumption.
      * intros e s' [= <- <-] Hne. contradiction.
      * intros r _. right. now exists s.
      * intros e r _. exists (ParseError err_undefined), s. auto.
    + rewrite Hag. repeat split; try discriminate.
      * intros e' s' [= <- <-] _. reflexivity.
      * intros e' r [= <- <-]. exists e, s. auto.
Qed.

Lemma recognizer_follows_interpreter_witness :
  Recognizer.parse (budget (plex_scanner "x 1")) "x 1"
  = Raise (ParseError (err_found (Some Kbin) Kassign))
      (Recognizer.RState (Scanner [] (AtEof (1, 3)%nat) (1, 2)%nat)
         (Some Kbin) "1").
Proof.
  apply (proj1 (proj2 (proj2 (proj2 (recognizer_follows_interpreter "x 1"))))
           (ParseError (err_found (Some Kbin) Kassign))
           (Runner.PState (Scanner [] (AtEof (1, 3)%nat) (1, 2)%nat)
              (Some Kbin) "1" ∅ [])).
  - reflexivity.
  - discriminate.
Defined.

(** C1 as stated fails: a program that only refers to a variable without a
    value is accepted by the recogniser and stopped by the interpreter. *)
Lemma recognizer_accepts_undefined_reference :
  Recognizer.main "print y" = Some []
  ∧ Runner.main "print y"
    = Some ["Parser Error: in atom: unrecognized variable name at line 1 char 8"]
  ∧ (∃ r, Recognizer.parse (budget (plex_scanner "print y")) "print y"
          = Ok tt r)
  ∧ (∃ s, Runner.parse (budget (plex_scanner "print y")) "print y"
          = Raise (ParseError err_undefined) s).
Proof.
  repeat split; try reflexivity; eexists; reflexivity.
Qed.

(** ** Effects: the dictionary and the output *)

Lemma keeps_bind {A B} (m : M Runner.pstate A) (k : A -> M Runner.pstate B) :
  keeps m → (∀ a, keeps (k a)) → keeps (bind m k).
Proof.
  intros Hm Hk s. unfold bind. specialize (Hm s).
  destruct (m s) as [a s1|e s1|]; auto.
  specialize (Hk a s1). destruct (k a s1); auto;
    destruct Hk, Hm; split; congruence.
Qed.

Lemma keeps_ret {A} (a : A) : keeps (ret a).
Proof. intros s. now split. Qed.

Lemma keeps_raise {A} e : keeps (A := A) (raise e).
Proof. intros s. now split. Qed.

Lemma keeps_exhausted {A} : keeps (A := A) exhausted.
Proof. intros s. exact I. Qed.

Lemma keeps_get_la : keeps Runner.get_la.
Proof. intros s. now split. Qed.

Lemma keeps_get_val : keeps Runner.get_val.
Proof. intros s. now split. Qed.

Lemma keeps_get_var x : keeps (Runner.get_var x).
Proof. intros s. now split. Qed.

Lemma keeps_match tok : keeps (Runner.match_ tok).
Proof.
  intros s. unfold Runner.match_, Runner.advance.
  destruct (decide _); [|now split].
  destruct (read _) as [[[k t]|] sc]; now split.
Qed.

Ltac keeps_go :=
  repeat first
    [ apply keeps_ret
    | apply keeps_raise
    | apply keeps_get_la
    | apply keeps_get_val
    | apply keeps_get_var
    | apply keeps_match
    | assumption
    | match goal with H : ∀ v, keeps (_ v) |- _ => apply H end
    | apply keeps_bind; [| intros ?]
    | match goal with |- keeps (match ?k with _ => _ end) => destruct k end ].

Section RunnerKeeps.
Import Runner.
Variables expr' term' factor' atom' : M pstate Z.
Variables term_tail' factor_tail' atom_tail' : Z -> M pstate Z.
Hypothesis Hexpr : keeps expr'.
Hypothesis Hterm : keeps term'.
Hypothesis Hfactor : keeps factor'.
Hypothesis Hatom : keeps atom'.
Hypothesis Hterm_tail : ∀ v, keeps (term_tail' v).
Hypothesis Hfactor_tail : ∀ v, keeps (factor_tail' v).
Hypothesis Hatom_tail : ∀ v, keeps (atom_tail' v).

Lemma expr_body_keeps : keeps (expr_body term' term_tail').
Proof. unfold expr_body. keeps_go. Qed.

Lemma term_tail_body_keeps v : keeps (term_tail_body term' term_tail' v).
Proof. unfold term_tail_body. keeps_go. Qed.

Lemma term_body_keeps : keeps (term_body factor' factor_tail').
Proof. unfold term_body. keeps_go. Qed.

Lemma factor_tail_body_keeps v :
  keeps (factor_tail_body factor' factor_tail' v).
Proof. unfold factor_tail_body. keeps_go. Qed.

Lemma factor_body_keeps : keeps (factor_body atom' atom_tail').
Proof. unfold factor_body. keeps_go. Qed.

Lemma atom_tail_body_keeps v : keeps (atom_tail_body atom' atom_tail' v).
Proof. unfold atom_tail_body. keeps_go. Qed.

Lemma atom_body_keeps : keeps (atom_body expr').
Proof. unfold atom_body. keeps_go. Qed.
End RunnerKeeps.

Lemma runner_keeps n :
  keeps (Runner.expr n)
  ∧ keeps (Runner.term n)
  ∧ keeps (Runner.factor n)
  ∧ keeps (Runner.atom n)
  ∧ (∀ v, keeps (Runner.term_tail n v))
  ∧ (∀ v, keeps (Runner.factor_tail n v))
  ∧ (∀ v, keeps (Runner.atom_tail n v)).
Proof.
  induction n as [|n (H1 & H2 & H3 & H4 & H5 & H6 & H7)].
  - repeat split; intros; apply keeps_exhausted.
  - simpl. repeat split; intros.
    + now apply expr_body_keeps.
    + now apply term_body_keeps.
    + now apply factor_body_keeps.
    + now apply atom_body_keeps.
    + now apply term_tail_body_keeps.
    + now apply factor_tail_body_keeps.
    + now apply atom_tail_body_keeps.
Qed.

Lemma expr_keeps n : keeps (Runner.expr n).
Proof. apply runner_keeps. Qed.

(** What a statement does to dictionary and output: an assignment that
    returns has stored one value, a print that returns has added one line,
    and a statement that raises has done neither. *)
Lemma stmt_effects n s :
  match Runner.stmt n s with
  | Ok _ s' =>
      (∃ x v, Runner.vars s' = <[x := v]> (Runner.vars s)
              ∧ Runner.out s' = Runner.out s)
      ∨ (∃ v, Runner.vars s' = Runner.vars s
              ∧ Runner.out s' = Runner.out s ++ [format_b v])
  | Raise _ s' =>
      Runner.vars s' = Runner.vars s ∧ Runner.out s' = Runner.out s
  | Exhausted => True
  end.
Proof.
  destruct n as [|n]; simpl; [exact I|].
  unfold Runner.stmt_body, bind at 1, Runner.get_la.
  destruct (Runner.la s) as [[]|]; try (now split).
  - unfold bind, Runner.get_val.
    pose proof (keeps_match Kprint s) as H1.
    destruct (Runner.match_ Kprint s) as [[] s1|e s1|]; [|exact H1|exact I].
    pose proof (expr_keeps n s1) as H2.
    destruct (Runner.expr n s1) as [v s2|e s2|]; [| |exact I].
    + right. exists v. simpl. destruct H1, H2. split; congruence.
    + destruct H1, H2. split; congruence.
  - unfold bind, Runner.get_val.
    pose proof (keeps_match Kid s) as H1.
    destruct (Runner.match_ Kid s) as [[] s1|e s1|]; [|exact H1|exact I].
    pose proof (keeps_match Kassign s1) as H2.
    destruct (Runner.match_ Kassign s1) as [[] s2|e s2|];
      [| destruct H1, H2; split; congruence | exact I].
    pose proof (expr_keeps n s2) as H3.
    destruct (Runner.expr n s2) as [v s3|e s3|]; [| |exact I].
    + left. exists (Runner.val s), v. simpl. destruct H1, H2, H3.
      split; congruence.
    + destruct H1, H2, H3. split; congruence.
Qed.

Lemma stmt_list_effects n s :
  match Runner.stmt_list n s with
  | Ok _ s' => completed s s'
  | Raise _ s' =>
      ∃ sk, completed s sk ∧ Runner.vars s' = Runner.vars sk
            ∧ Runner.out s' = Runner.out sk
  | Exhausted => True
  end.
Proof.
  revert s. induction n as [|n IH]; intros s; simpl; [exact I|].
  unfold Runner.stmt_list_body, bind at 1, Runner.get_la.
  assert (Hrun : match (Runner.stmt n;;; Runner.stmt_list n) s with
                 | Ok _ s' => completed s s'
                 | Raise _ s' =>
                     ∃ sk, completed s sk ∧ Runner.vars s' = Runner.vars sk
                           ∧ Runner.out s' = Runner.out sk
                 | Exhausted => True
                 end).
  { unfold bind. pose proof (stmt_effects n s) as H1.
    destruct (Runner.stmt n s) as [[] s1|e s1|] eqn:E1; [| |exact I].
    - specialize (IH s1).
      destruct (Runner.stmt_list n s1) as [[] s2|e s2|]; [| |exact I].
      + now apply (completed_stmt n s s1).
      + destruct IH as (sk & Hc & Hv & Ho). exists sk.
        split; [now apply (completed_stmt n s s1) | now split].
    - exists s. split; [constructor | exact H1]. }
  destruct (Runner.la s) as [[]|]; simpl;
    first [ exact Hrun
          | constructor
          | exists s; split; [constructor | now split] ].
Qed.

(** Completed statements only add: the lines printed before are a prefix
    of the lines printed after, and each new line is a value in binary. *)
Lemma completed_out s sk :
  completed s sk → ∃ vs, Runner.out sk = Runner.out s ++ map format_b vs.
Proof.
  induction 1 as [s|n s s1 sk Hs _ (vs & IH)].
  - exists []. simpl. now rewrite app_nil_r.
  - pose proof (stmt_effects n s) as H. rewrite Hs in H.
    destruct H as [(x & v & _ & Ho)|(v & _ & Ho)].
    + exists vs. now rewrite IH, Ho.
    + exists (v :: vs). rewrite IH, Ho, <- app_assoc. reflexivity.
Qed.

(** ** Errors *)

Lemma stmt_statement_done n s s1 :
  Runner.stmt n s = Ok tt s1 → statement_done s s1.
Proof.
  destruct n as [|n]; [discriminate|]. simpl.
  unfold Runner.stmt_body, bind at 1, Runner.get_la.
  destruct (Runner.la s) as [[]|] eqn:El; try discriminate.
  - unfold bind.
    pose proof (keeps_match Kprint s) as H1.
    destruct (Runner.match_ Kprint s) as [[] s2|e s2|] eqn:E1;
      try discriminate.
    pose proof (expr_keeps n s2) as H2.
    destruct (Runner.expr n s2) as [v s3|e s3|] eqn:E2; try discriminate.
    intros [= <-]. destruct H1 as (Hv1 & Ho1), H2 as (Hv2 & Ho2).
    rewrite Hv2, Hv1, Ho2, Ho1. now apply (print_done s n s2 v s3).
  - unfold bind, Runner.get_val.
    pose proof (keeps_match Kid s) as H1.
    destruct (Runner.match_ Kid s) as [[] s2|e s2|] eqn:E1;
      try discriminate.
    pose proof (keeps_match Kassign s2) as H2.
    destruct (Runner.match_ Kassign s2) as [[] s3|e s3|] eqn:E2;
      try discriminate.
    pose proof (expr_keeps n s3) as H3.
    destruct (Runner.expr n s3) as [v s4|e s4|] eqn:E3; try discriminate.
    intros [= <-].
    destruct H1 as (Hv1 & Ho1), H2 as (Hv2 & Ho2), H3 as (Hv3 & Ho3).
    rewrite Hv3, Hv2, Hv1, Ho3, Ho2, Ho1.
    now apply (assignment_done s n s2 s3 v s4).
Qed.

(** Where the statement list raises: after the statements that returned,
    at the first that does not. *)
Lemma stmt_list_stops n :
  ∀ s e s', Runner.stmt_list n s = Raise e s' →
            ∃ sk, completed s sk ∧ statements_done s sk ∧ stops_at sk e s'.
Proof.
  induction n as [|n IH]; intros s e s'; [discriminate|].
  change (Runner.stmt_list (S n)) with
    (Runner.stmt_list_body (Runner.stmt_list n) (Runner.stmt n)).
  unfold Runner.stmt_list_body, bind at 1, Runner.get_la.
  assert (Hrun : Runner.la s = Some Kid ∨ Runner.la s = Some Kprint →
                 (Runner.stmt n;;; Runner.stmt_list n) s = Raise e s' →
                 ∃ sk, completed s sk ∧ statements_done s sk
                       ∧ stops_at sk e s').
  { intros Hla. unfold bind.
    destruct (Runner.stmt n s) as [[] s1|e1 s1|] eqn:E1; try discriminate.
    - intros E2. destruct (IH _ _ _ E2) as (sk & Hc & Hd & Hs).
      exists sk. split; [now apply (completed_stmt n s s1)|].
      split; [|exact Hs].
      apply (done_more s s1 sk); [|exact Hd].
      now apply (stmt_statement_done n).
    - intros [= -> ->]. exists s.
      split; [constructor|]. split; [constructor|].
      left. split; [exact Hla | now exists n]. }
  destruct (Runner.la s) as [[]|] eqn:El; try discriminate; auto;
    intros [= <- <-]; exists s;
    (split; [constructor|]); (split; [constructor|]);
    right; rewrite El; repeat split; discriminate.
Qed.

(** C8, as the code has it.  When the statement list raises, whatever
    the exception, there is a parser object [sk] such that: the statements
    before it have each run to their return and done what a statement is
    to do (stored the value of their expression, or printed it); the
    statement that starts at [sk] is the one that raises, or [sk] starts no
    statement; and dictionary and output after the exception are those of
    [sk]: nothing of the statements that returned is undone, every line
    they printed is there, and the statement that raised has added
    nothing.  A statement that raises leaves dictionary and output as it
    found them; an assignment whose expression raises stores nothing. *)
Theorem errors_keep_completed_effects (n : nat) (s s' : Runner.pstate)
    (e : exn) (H : Runner.stmt_list n s = Raise e s') :
  (∃ sk vs, completed s sk
            ∧ statements_done s sk
            ∧ stops_at sk e s'
            ∧ Runner.vars s' = Runner.vars sk
            ∧ Runner.out s' = Runner.out sk
            ∧ Runner.out sk = Runner.out s ++ map format_b vs)
  ∧ (∀ m s1 e1 s1', Runner.stmt m s1 = Raise e1 s1' →
       Runner.vars s1' = Runner.vars s1 ∧ Runner.out s1' = Runner.out s1).
Proof.
  assert (Hstmt : ∀ m s1 e1 s1', Runner.stmt m s1 = Raise e1 s1' →
            Runner.vars s1' = Runner.vars s1
            ∧ Runner.out s1' = Runner.out s1).
  { intros m s1 e1 s1' E. pose proof (stmt_effects m s1) as He.
    now rewrite E in He. }
  split; [|exact Hstmt].
  destruct (stmt_list_stops n s e s' H) as (sk & Hc & Hd & Hs).
  destruct (completed_out _ _ Hc) as (vs & Hvs).
  exists sk, vs. repeat apply conj; auto.
  - destruct Hs as [(_ & m & Hm)|(_ & _ & _ & _ & ->)];
      [apply (Hstmt _ _ _ _ Hm) | reflexivity].
  - destruct Hs as [(_ & m & Hm)|(_ & _ & _ & _ & ->)];
      [apply (Hstmt _ _ _ _ Hm) | reflexivity].
Qed.

Lemma errors_keep_completed_effects_witness :
  ∃ s',
    (∃ sk vs, completed (started "x = 1 print x print 10 &") sk
              ∧ statements_done (started "x = 1 print x print 10 &") sk
              ∧ stops_at sk PlexError s'
              ∧ Runner.vars s' = Runner.vars sk
              ∧ Runner.out s' = Runner.out sk
              ∧ Runner.out sk
                = Runner.out (started "x = 1 print x print 10 &")
                    ++ map format_b vs)
    ∧ (∀ m s1 e1 s1', Runner.stmt m s1 = Raise e1 s1' →
         Runner.vars s1' = Runner.vars s1 ∧ Runner.out s1' = Runner.out s1).
Proof.
  exists (match Runner.stmt_list 40 (started "x = 1 print x print 10 &") with
          | Ok _ s' | Raise _ s' => s'
          | Exhausted => started "x = 1 print x print 10 &"
          end).
  apply (errors_keep_completed_effects 40
           (started "x = 1 print x print 10 &") _ PlexError).
  vm_compute. reflexivity.
Defined.

(** C8 as stated fails where it speaks of the statements fully parsed
    before a scanner error.  [print 1] on a line of its own is a complete
    statement that prints [1]; followed on the next line by a character
    that is not of the lexicon, it prints nothing: with one token of
    lookahead the statement returns only once the token after it has been
    read, and that read is the scanner's error.  A statement in between
    makes the first one return. *)
Lemma complete_print_before_bad_character_is_lost :
  Runner.main "print 1" = Some ["1"]
  ∧ Runner.main ("print 1" +:+ String "010"%char "&")
    = Some ["Scanner Error: at line 2 char 1"]
  ∧ Runner.main ("print 1" +:+ String "010"%char "print 10 &")
    = Some ["1"; "Scanner Error: at line 2 char 10"].
Proof. repeat split; vm_compute; reflexivity. Qed.


(** A print statement returns, and prints, only once the token after its
    expression has been read: when that token is not one of the lexicon, the
    statement has not returned and its line is not printed. *)
Example print_before_bad_character :
  Runner.main ("print 1" +:+ String "010"%char "&")
  = Some ["Scanner Error: at line 2 char 1"]
  ∧ Runner.main ("print 1" +:+ String "010"%char "print 10 &")
    = Some ["1"; "Scanner Error: at line 2 char 10"].
Proof. split; vm_compute; reflexivity. Qed.

Lemma starts_expr_cases k :
  starts_expr k = true → k = Some Klparen ∨ k = Some Kid ∨ k = Some Kbin.
Proof. destruct k as [[]|]; try discriminate; auto. Qed.

Ltac hit_unfold :=
  unfold raises in *; simpl;
  unfold Runner.atom_body, Runner.factor_body, Runner.term_body,
    Runner.expr_body, Runner.atom_tail_body, Runner.factor_tail_body,
    Runner.term_tail_body, Runner.stmt_body, Runner.stmt_list_body,
    bind, Runner.get_la, Runner.get_val, Runner.get_var.

Ltac hit_rewrite :=
  repeat match goal with
    | H : Runner.la ?s = _ |- context [Runner.la ?s] => rewrite H
    | H : ?m = Ok _ _ |- context [?m] => rewrite H
    | H : ?m = Raise _ _ |- context [?m] => rewrite H
    | H : ?m = None |- context [?m] => rewrite H
    end.

(** No procedure handles an exception: what the call of [atom] raises is
    what every procedure on the way to it raises. *)
Lemma hits_undefined_raises p n s e s' :
  hits_undefined p n s e s' → raises p n s e s'.
Proof.
  induction 1;
    repeat match goal with
      | H : starts_expr _ = true |- _ =>
          apply starts_expr_cases in H; destruct H as [H | [H | H]]
      | H : _ ∨ _ |- _ => destruct H as [H | H]
      end;
    hit_unfold; hit_rewrite; try reflexivity.
  pose proof (keeps_match Kid s) as Hk. rewrite H1 in Hk.
  destruct Hk as (Hv & _). now rewrite Hv, H0.
Qed.

Lemma hits_undefined_exception p n s e s' :
  hits_undefined p n s e s' → e = ParseError err_undefined ∨ e = PlexError.
Proof.
  induction 1; auto.
  right. unfold Runner.match_, Runner.advance in H1.
  destruct (decide _); [|congruence].
  destruct (read _) as [[[k t]|] sc]; congruence.
Qed.

(** C6, as the code has it.  A statement whose run comes to a reference
    to an identifier that has no value in the dictionary always raises, and
    prints and stores nothing: dictionary and output are as the statement
    found them.  No procedure on the way handles the exception, so it is
    what [atom] raises, and [stmt_list] raises it in turn.  [atom] first
    consumes the identifier, so it raises the scanner's error when the
    scanner cannot deliver the next token, and the ParseError for the
    unrecognized variable name otherwise.  No statement that raises
    changes dictionary or output. *)
Theorem undefined_reference_raises (n : nat) (s : Runner.pstate) (e : exn)
    (s' : Runner.pstate) (H : hits_undefined PStmt n s e s') :
  Runner.stmt n s = Raise e s'
  ∧ Runner.vars s' = Runner.vars s ∧ Runner.out s' = Runner.out s
  ∧ (e = ParseError err_undefined ∨ e = PlexError)
  ∧ (∀ m s0 e0 s0', hits_undefined PStmtList m s0 e0 s0' →
       Runner.stmt_list m s0 = Raise e0 s0')
  ∧ (∀ m s0, Runner.la s0 = Some Kid →
       Runner.vars s0 !! Runner.val s0 = None →
       match read (Runner.scan s0) with
       | (Some (k, text), sc) =>
           Runner.atom (S m) s0
           = Raise (ParseError err_undefined)
               (Runner.PState sc k text (Runner.vars s0) (Runner.out s0))
       | (None, sc) =>
           Runner.atom (S m) s0
           = Raise PlexError
               (Runner.PState sc (Runner.la s0) (Runner.val s0)
                  (Runner.vars s0) (Runner.out s0))
       end)
  ∧ (∀ m s1 e1 s1', Runner.stmt m s1 = Raise e1 s1' →
       Runner.vars s1' = Runner.vars s1 ∧ Runner.out s1' = Runner.out s1).
Proof.
  pose proof (hits_undefined_raises _ _ _ _ _ H) as Hr. simpl in Hr.
  pose proof (stmt_effects n s) as He. rewrite Hr in He.
  repeat apply conj; try apply He; try exact Hr.
  - exact (hits_undefined_exception _ _ _ _ _ H).
  - intros m s0 e0 s0' H0. exact (hits_undefined_raises _ _ _ _ _ H0).
  - intros m s0 Hla Hno. simpl.
    unfold Runner.atom_body, bind, Runner.get_la, Runner.get_val,
      Runner.match_, Runner.advance, Runner.get_var.
    rewrite Hla. simpl. destruct (decide _) as [_|Hne]; [|now destruct Hne].
    destruct (read (Runner.scan s0)) as [[[k t]|] sc]; simpl.
    + now rewrite Hno.
    + now rewrite Hla.
  - intros m s1 e1 s1' E. pose proof (stmt_effects m s1) as He1.
    now rewrite E in He1.
Qed.

Lemma undefined_reference_raises_witness :
  let s := load [tk Kprint "print"; tk Kbin "1"; tk Kand "and";
                 tk Klparen "("; tk Kbin "0"; tk Kor "or"; tk Kid "y";
                 tk Krparen ")"] (1, 20)%nat ∅ ["11"] in
  let s' := Runner.PState (Scanner [] (AtEof (1, 20)%nat) (1, 0)%nat)
              (Some Krparen) ")" ∅ ["11"] in
  let e := ParseError err_undefined in
  Runner.stmt 12 s = Raise e s'
  ∧ Runner.vars s' = Runner.vars s ∧ Runner.out s' = Runner.out s
  ∧ (e = ParseError err_undefined ∨ e = PlexError)
  ∧ (∀ m s0 e0 s0', hits_undefined PStmtList m s0 e0 s0' →
       Runner.stmt_list m s0 = Raise e0 s0')
  ∧ (∀ m s0, Runner.la s0 = Some Kid →
       Runner.vars s0 !! Runner.val s0 = None →
       match read (Runner.scan s0) with
       | (Some (k, text), sc) =>
           Runner.atom (S m) s0
           = Raise (ParseError err_undefined)
               (Runner.PState sc k text (Runner.vars s0) (Runner.out s0))
       | (None, sc) =>
           Runner.atom (S m) s0
           = Raise PlexError
               (Runner.PState sc (Runner.la s0) (Runner.val s0)
                  (Runner.vars s0) (Runner.out s0))
       end)
  ∧ (∀ m s1 e1 s1', Runner.stmt m s1 = Raise e1 s1' →
       Runner.vars s1' = Runner.vars s1 ∧ Runner.out s1' = Runner.out s1).
Proof.
  intros s s' e. apply (undefined_reference_raises 12 s e s').
  subst s s' e.
  eapply hit_print; [reflexivity | vm_compute; reflexivity |].
  eapply hit_expr_term; [reflexivity|].
  eapply hit_term_factor; [reflexivity|].
  eapply hit_factor_tail; [reflexivity | vm_compute; reflexivity |].
  eapply hit_and_atom; [reflexivity | vm_compute; reflexivity |].
  eapply hit_in_parentheses; [reflexivity | vm_compute; reflexivity |].
  eapply hit_expr_term; [reflexivity|].
  eapply hit_term_tail; [reflexivity | vm_compute; reflexivity |].
  eapply hit_or_factor; [reflexivity | vm_compute; reflexivity |].
  eapply hit_factor_atom; [reflexivity|].
  eapply hit_here; vm_compute; reflexivity.
Defined.


(** C6 as stated fails: in [print y &] the identifier [y] has no value, and
    the run fails with the scanner's error, raised while [atom] consumes
    [y], not with the error for the unrecognized variable. *)
Lemma undefined_reference_scanner_error_first :
  let s := Runner.PState (Scanner [] (Unrecognized (1, 8)%nat) (1, 6)%nat)
             (Some Kid) "y" ∅ [] in
  Runner.match_ Kprint (started "print y &") = Ok tt s
  ∧ Runner.la s = Some Kid
  ∧ Runner.vars s !! Runner.val s = None
  ∧ (∃ s', Runner.atom 1 s = Raise PlexError s')
  ∧ (∃ s', Runner.parse (budget (plex_scanner "print y &")) "print y &"
           = Raise PlexError s')
  ∧ Runner.main "print y &" = Some ["Scanner Error: at line 1 char 9"].
Proof.
  intros s. repeat split; try (vm_compute; reflexivity);
    eexists; vm_compute; reflexivity.
Qed.

(** ** The driver *)

Lemma advance_keeps : keeps Runner.advance.
Proof.
  intros s. unfold Runner.advance.
  destruct (read _) as [[[k t]|] sc]; now split.
Qed.

Lemma parse_out n text :
  match Runner.parse n text with
  | Ok _ s | Raise _ s => ∃ vs, Runner.out s = map format_b vs
  | Exhausted => True
  end.
Proof.
  unfold Runner.parse, bind.
  pose proof (advance_keeps (Runner.fresh text)) as H0.
  destruct (Runner.advance (Runner.fresh text)) as [[] s0|e s0|];
    [| exists []; apply H0 | exact I].
  destruct H0 as (_ & H0). simpl in H0.
  pose proof (stmt_list_effects n s0) as H1.
  destruct (Runner.stmt_list n s0) as [[] s1|e s1|]; [| |exact I].
  - destruct (completed_out _ _ H1) as (vs & Hvs). exists vs.
    now rewrite Hvs, H0.
  - destruct H1 as (sk & Hc & _ & Ho).
    destruct (completed_out _ _ Hc) as (vs & Hvs). exists vs.
    now rewrite Ho, Hvs, H0.
Qed.

(** C9.  The driver always finishes.  What it prints is the values printed
    by the statements, each a line in binary, and then: nothing more when
    the run completes; on the scanner's error the one line
    [Scanner Error: at line L char C]; on a ParseError with message [msg]
    the one line [Parser Error: msg at line L char C]; where [L] is the
    scanner's line and [C] its column, which counts from 0, plus 1.  The
    diagnostic is the last line.  The driver of scanner.py prints the same
    diagnostics and nothing else. *)
Theorem one_diagnostic_line (text : string) :
  let n := budget (plex_scanner text) in
  (∃ vs : list Z,
     match Runner.parse n text with
     | Ok _ s => Runner.main text = Some (map format_b vs)
     | Raise PlexError s =>
         Runner.main text
         = Some (map format_b vs
                   ++ ["Scanner Error: at line "
                         +:+ decimal (Runner.position s).1 +:+ " char "
                         +:+ decimal ((Runner.position s).2 + 1)])
     | Raise (ParseError msg) s =>
         Runner.main text
         = Some (map format_b vs
                   ++ ["Parser Error: " +:+ msg +:+ " at line "
                         +:+ decimal (Runner.position s).1 +:+ " char "
                         +:+ decimal ((Runner.position s).2 + 1)])
     | Exhausted => False
     end)
  ∧ match Recognizer.parse n text with
    | Ok _ r => Recognizer.main text = Some []
    | Raise PlexError r =>
        Recognizer.main text
        = Some ["Scanner Error: at line "
                  +:+ decimal (Recognizer.position r).1 +:+ " char "
                  +:+ decimal ((Recognizer.position r).2 + 1)]
    | Raise (ParseError msg) r =>
        Recognizer.main text
        = Some ["Parser Error: " +:+ msg +:+ " at line "
                  +:+ decimal (Recognizer.position r).1 +:+ " char "
                  +:+ decimal ((Recognizer.position r).2 + 1)]
    | Exhausted => False
    end.
Proof.
  intros n. split.
  - pose proof (parse_out n text) as Ho.
    pose proof (parse_total text) as Ht. fold n in Ht.
    unfold Runner.main. fold n.
    destruct (Runner.parse n text) as [[] s|[|msg] s|];
      [| | | contradiction]; destruct Ho as (vs & Ho); exists vs;
      now rewrite Ho.
  - pose proof (recognizer_parse_total text) as Ht. fold n in Ht.
    unfold Recognizer.main. fold n.
    destruct (Recognizer.parse n text) as [[] r|[|msg] r|];
      [reflexivity | reflexivity | reflexivity | contradiction].
Qed.

Example diagnostic_of_missing_assign :
  Runner.main "x 1" = Some ["Parser Error: found bin instead of = at line 1 char 3"].
Proof. vm_compute. reflexivity. Qed.

Example diagnostic_after_output :
  Runner.main "x = 101 print x print x and 110 print 2"
  = Some ["101"; "100"; "Scanner Error: at line 1 char 39"].
Proof. vm_compute. reflexivity. Qed.

(** ** Binary literals and binary output *)

Lemma append_cons c (s t : string) : String c s +:+ t = String c (s +:+ t).
Proof. reflexivity. Qed.

Lemma append_nil_r (s : string) : s +:+ EmptyString = s.
Proof.
  induction s as [|c s IH]; [reflexivity | now rewrite append_cons, IH].
Qed.

Lemma append_assoc (a b c : string) : (a +:+ b) +:+ c = a +:+ (b +:+ c).
Proof.
  induction a as [|x a IH]; [reflexivity | now rewrite !append_cons, IH].
Qed.

Lemma list_ascii_of_string_app (a b : string) :
  list_ascii_of_string (a +:+ b)
  = list_ascii_of_string a ++ list_ascii_of_string b.
Proof.
  induction a as [|x a IH]; [reflexivity|].
  rewrite append_cons. simpl. now rewrite IH.
Qed.

Lemma is_bin_cases c : is_bin c = true → c = "0"%char ∨ c = "1"%char.
Proof.
  destruct c as [[] [] [] [] [] [] [] []]; vm_compute; intros H;
    first [discriminate | now left | now right].
Qed.

(** A run of binary digits is one token, whatever its length. *)
Lemma scan_text_bin_run (L : string) :
  ∀ p acc line col,
    forallb is_bin (list_ascii_of_string L) = true →
    scan_text L line col (InBin p acc)
    = ([Token Kbin (acc +:+ L) p], AtEof (line, (col + String.length L)%nat)).
Proof.
  induction L as [|c L IH]; intros p acc line col H; simpl.
  - now rewrite append_nil_r, Nat.add_0_r.
  - simpl in H. apply andb_prop in H as [Hc HL]. rewrite Hc.
    rewrite (IH _ _ _ _ HL), append_assoc. simpl.
    now rewrite Nat.add_succ_r.
Qed.

Lemma scan_text_literal (L : string) line col :
  binary_literal L = true →
  scan_text L line col Idle
  = ([Token Kbin L (line, col)], AtEof (line, (col + String.length L)%nat)).
Proof.
  destruct L as [|c L]; [discriminate|]. unfold binary_literal.
  simpl. intros H. apply andb_prop in H as [Hc HL].
  destruct (is_bin_cases c Hc) as [-> | ->]; simpl;
    rewrite (scan_text_bin_run L _ _ _ _ HL); unfold emit; simpl;
    now rewrite Nat.add_succ_r.
Qed.

Lemma plex_scanner_print_literal (L : string) :
  binary_literal L = true →
  plex_scanner ("print " +:+ L)
  = Scanner [Token Kprint "print" (1, 0)%nat; Token Kbin L (1, 6)%nat]
      (AtEof (1%nat, (6 + String.length L)%nat)) (0, 0)%nat.
Proof.
  intros H. unfold plex_scanner. cbv [String.append]. simpl.
  now rewrite (scan_text_literal L _ _ H).
Qed.

Lemma int_base2_app (a b : string) :
  int_base2 (a +:+ b)
  = fold_left (fun acc c => 2 * acc + (if Ascii.eqb c "1" then 1 else 0))
      (list_ascii_of_string b) (int_base2 a).
Proof.
  unfold int_base2. now rewrite list_ascii_of_string_app, fold_left_app.
Qed.

Lemma int_base2_bin_digits p : int_base2 (bin_digits p) = Zpos p.
Proof.
  induction p as [p IH|p IH|]; simpl; [| |reflexivity];
    rewrite int_base2_app, IH; simpl; lia.
Qed.

Lemma bin_digits_leading_one p : ∃ r, bin_digits p = String "1" r.
Proof.
  induction p as [p (r & IH)|p (r & IH)|]; simpl.
  - rewrite IH, append_cons. eauto.
  - rewrite IH, append_cons. eauto.
  - eauto.
Qed.

Lemma bin_digits_binary p :
  forallb is_bin (list_ascii_of_string (bin_digits p)) = true.
Proof.
  induction p as [p IH|p IH|]; simpl; [| |reflexivity];
    now rewrite list_ascii_of_string_app, forallb_app, IH.
Qed.

Lemma int_base2_nonneg (L : string) : 0 <= int_base2 L.
Proof.
  unfold int_base2.
  assert (H : ∀ l acc, 0 <= acc →
            0 <= fold_left
                   (fun acc c => 2 * acc + (if Ascii.eqb c "1" then 1 else 0))
                   l acc).
  { induction l as [|c l IH]; intros acc Hacc; simpl; [assumption|].
    apply IH. destruct (Ascii.eqb c "1"); lia. }
  apply H. lia.
Qed.

Lemma format_b_minimal v : 0 <= v → minimal_binary (format_b v) = true.
Proof.
  intros Hv. destruct v as [|p|p]; [reflexivity | | lia].
  unfold minimal_binary. simpl.
  destruct (bin_digits_leading_one p) as (r & Hr).
  rewrite bin_digits_binary, Hr.
  replace (String.prefix "1" (String "1" r)) with true
    by (destruct r; reflexivity).
  apply orb_true_r.
Qed.

Lemma int_base2_format_b v : 0 <= v → int_base2 (format_b v) = v.
Proof.
  intros Hv. destruct v as [|p|p]; [reflexivity | | lia].
  apply int_base2_bin_digits.
Qed.

Lemma bin_digits_snoc (l : list ascii) :
  ∀ p, forallb is_bin l = true →
       ∃ q, fold_left
              (fun acc c => 2 * acc + (if Ascii.eqb c "1" then 1 else 0))
              l (Zpos p) = Zpos q
            ∧ bin_digits q = bin_digits p +:+ string_of_list_ascii l.
Proof.
  induction l as [|c l IH]; intros p H; simpl.
  - exists p. now rewrite append_nil_r.
  - simpl in H. apply andb_prop in H as [Hc Hl].
    destruct (is_bin_cases c Hc) as [-> | ->]; simpl.
    + destruct (IH (xO p) Hl) as (q & Hq & Hd). exists q.
      split; [exact Hq|]. rewrite Hd. simpl. now rewrite append_assoc.
    + destruct (IH (xI p) Hl) as (q & Hq & Hd). exists q.
      split; [exact Hq|]. rewrite Hd. simpl. now rewrite append_assoc.
Qed.

Lemma fold_positional (l : string) :
  ∀ acc,
    fold_left (fun acc c => 2 * acc + (if Ascii.eqb c "1" then 1 else 0))
      (list_ascii_of_string l) acc
    = acc * 2 ^ Z.of_nat (String.length l) + positional_value l.
Proof.
  induction l as [|c l IH]; intros acc; simpl fold_left.
  - simpl. lia.
  - rewrite IH. cbn [positional_value String.length].
    rewrite Nat2Z.inj_succ, Z.pow_succ_r by lia.
    destruct (Ascii.eqb c "1"); lia.
Qed.

(** [int(text, 2)] is the positional value. *)
Lemma int_base2_positional (L : string) : int_base2 L = positional_value L.
Proof. unfold int_base2. rewrite fold_positional. lia. Qed.

Lemma int_base2_leading_zero (L : string) :
  int_base2 (String "0" L) = int_base2 L.
Proof. reflexivity. Qed.

Lemma format_b_int_base2_leading_one (L : string) :
  forallb is_bin (list_ascii_of_string L) = true →
  format_b (int_base2 (String "1" L)) = String "1" L.
Proof.
  intros H.
  destruct (bin_digits_snoc (list_ascii_of_string L) xH H) as (q & Hq & Hd).
  change (int_base2 (String "1" L))
    with (fold_left
            (fun acc c => 2 * acc + (if Ascii.eqb c "1" then 1 else 0))
            (list_ascii_of_string L) 1).
  rewrite Hq. simpl. rewrite Hd.
  now rewrite string_of_list_ascii_of_string.
Qed.

(** What is printed for a literal is its canonical form. *)
Lemma format_b_int_base2_canonical (L : string) :
  forallb is_bin (list_ascii_of_string L) = true →
  format_b (int_base2 L) = canonical L.
Proof.
  induction L as [|c L IH]; intros H; [reflexivity|].
  simpl in H. apply andb_prop in H as [Hc HL].
  destruct (is_bin_cases c Hc) as [-> | ->].
  - rewrite int_base2_leading_zero, (IH HL). reflexivity.
  - now apply format_b_int_base2_leading_one.
Qed.

Lemma positional_value_strip (L : string) :
  positional_value (strip_zeros L) = positional_value L.
Proof.
  induction L as [|c L IH]; [reflexivity|].
  cbn [strip_zeros]. destruct (Ascii.eqb c "0") eqn:E; [|reflexivity].
  apply Ascii.eqb_eq in E as ->. rewrite IH. reflexivity.
Qed.

Lemma positional_value_canonical (L : string) :
  positional_value (canonical L) = positional_value L.
Proof.
  rewrite <- (positional_value_strip L). unfold canonical.
  destruct (strip_zeros L); reflexivity.
Qed.

(** C5.  For every binary literal [L], leading zeros permitted, the
    program [print L] prints one line: the canonical form of [L], which is
    [L] without its leading zeros, and the bare [0] when [L] is zeros only.
    The line is a binary numeral without leading zeros, and it stands for
    the integer [L] stands for in positional notation, which is the integer
    [int(L, 2)] computes. *)
Theorem print_literal_emits_minimal_binary (L : string)
    (H : binary_literal L = true) :
  Runner.main ("print " +:+ L) = Some [canonical L]
  ∧ minimal_binary (canonical L) = true
  ∧ positional_value (canonical L) = positional_value L
  ∧ int_base2 L = positional_value L
  ∧ Runner.main ("print " +:+ L) = Some [format_b (int_base2 L)]
  ∧ minimal_binary (format_b (int_base2 L)) = true
  ∧ int_base2 (format_b (int_base2 L)) = int_base2 L.
Proof.
  assert (Hbin : forallb is_bin (list_ascii_of_string L) = true).
  { unfold binary_literal in H. destruct L; [discriminate | exact H]. }
  assert (Hmain : Runner.main ("print " +:+ L)
                  = Some [format_b (int_base2 L)]).
  { unfold Runner.main, Runner.parse, Runner.fresh.
    rewrite (plex_scanner_print_literal L H). reflexivity. }
  pose proof (format_b_int_base2_canonical L Hbin) as Hc.
  pose proof (format_b_minimal _ (int_base2_nonneg L)) as Hm.
  repeat apply conj.
  - now rewrite Hmain, Hc.
  - now rewrite <- Hc.
  - apply positional_value_canonical.
  - apply int_base2_positional.
  - exact Hmain.
  - exact Hm.
  - apply int_base2_format_b, int_base2_nonneg.
Qed.

Lemma print_literal_witness :
  Runner.main ("print " +:+ "000101") = Some [canonical "000101"]
  ∧ minimal_binary (canonical "000101") = true
  ∧ positional_value (canonical "000101") = positional_value "000101"
  ∧ int_base2 "000101" = positional_value "000101"
  ∧ Runner.main ("print " +:+ "000101") = Some [format_b (int_base2 "000101")]
  ∧ minimal_binary (format_b (int_base2 "000101")) = true
  ∧ int_base2 (format_b (int_base2 "000101")) = int_base2 "000101".
Proof.
  apply (print_literal_emits_minimal_binary "000101"). reflexivity.
Defined.


Example print_leading_zeros : Runner.main "print 000101" = Some ["101"].
Proof. vm_compute. reflexivity. Qed.

Example print_zero : Runner.main "print 000" = Some ["0"].
Proof. vm_compute. reflexivity. Qed.

(** ** Precedence *)

(** C3.  [and] binds tighter than [or], [or] tighter than [xor], and
    parentheses override both: with any values [a], [b], [c] for the
    variables of those names, the printed value is the one of the
    bracketing shown.  The two programs of the specification print [1]. *)
Theorem precedence_and_or_xor (a b c : Z) :
  let p := op_tk Kprint in
  let va := tk Kid "a" in let vb := tk Kid "b" in let vc := tk Kid "c" in
  let and_ := op_tk Kand in let or_ := op_tk Kor in
  let xor_ := op_tk Kxor in
  let lp := op_tk Klparen in let rp := op_tk Krparen in
  Runner.main "print 1 or 0 and 0" = Some ["1"]
  ∧ Runner.main "print 1 and 0 or 1" = Some ["1"]
  ∧ run_tokens [p; va; or_; vb; and_; vc] (env3 a b c)
    = Some [format_b (Z.lor a (Z.land b c))]
  ∧ run_tokens [p; va; and_; vb; or_; vc] (env3 a b c)
    = Some [format_b (Z.lor (Z.land a b) c)]
  ∧ run_tokens [p; va; xor_; vb; or_; vc] (env3 a b c)
    = Some [format_b (Z.lxor a (Z.lor b c))]
  ∧ run_tokens [p; va; or_; vb; xor_; vc] (env3 a b c)
    = Some [format_b (Z.lxor (Z.lor a b) c)]
  ∧ run_tokens [p; va; xor_; vb; and_; vc] (env3 a b c)
    = Some [format_b (Z.lxor a (Z.land b c))]
  ∧ run_tokens [p; va; and_; vb; xor_; vc] (env3 a b c)
    = Some [format_b (Z.lxor (Z.land a b) c)]
  ∧ run_tokens [p; lp; va; or_; vb; rp; and_; vc] (env3 a b c)
    = Some [format_b (Z.land (Z.lor a b) c)]
  ∧ run_tokens [p; lp; va; xor_; vb; rp; or_; vc] (env3 a b c)
    = Some [format_b (Z.lor (Z.lxor a b) c)]
  ∧ run_tokens [p; lp; va; xor_; vb; rp; and_; vc] (env3 a b c)
    = Some [format_b (Z.land (Z.lxor a b) c)].
Proof.
  intros. repeat split; vm_compute; reflexivity.
Qed.
(** ** Chains at one precedence level *)

Lemma match_loaded k p text rest fin vs o :
  Runner.match_ k
    (Runner.PState (Scanner rest (AtEof fin) p) (Some k) text vs o)
  = Ok tt (load rest fin vs o).
Proof.
  unfold Runner.match_, Runner.advance, read. simpl.
  destruct (decide _) as [_|Hne]; [|now destruct Hne].
  destruct rest; reflexivity.
Qed.

Lemma atom_literal n l p rest fin vs o :
  (1 <= n)%nat →
  Runner.atom n
    (Runner.PState (Scanner rest (AtEof fin) p) (Some Kbin) l vs o)
  = Ok (int_base2 l) (load rest fin vs o).
Proof.
  destruct n as [|n]; [lia|]. intros _. simpl.
  unfold Runner.atom_body, bind, Runner.get_la, Runner.get_val. simpl.
  now rewrite match_loaded.
Qed.

Lemma atom_tail_stop n v rest fin vs o :
  (1 <= n)%nat → atom_tail_stops rest = true →
  Runner.atom_tail n v (load rest fin vs o) = Ok v (load rest fin vs o).
Proof.
  destruct n as [|n]; [lia|]. intros _ H.
  destruct rest as [|[[] text p] rest]; try discriminate; reflexivity.
Qed.

Lemma factor_tail_stop n v rest fin vs o :
  (1 <= n)%nat → factor_tail_stops rest = true →
  Runner.factor_tail n v (load rest fin vs o) = Ok v (load rest fin vs o).
Proof.
  destruct n as [|n]; [lia|]. intros _ H.
  destruct rest as [|[[] text p] rest]; try discriminate; reflexivity.
Qed.

Lemma term_tail_stop n v fin vs o :
  (1 <= n)%nat →
  Runner.term_tail n v (load [] fin vs o) = Ok v (load [] fin vs o).
Proof. destruct n as [|n]; [lia|]. reflexivity. Qed.

Lemma factor_literal n l p rest fin vs o :
  (2 <= n)%nat → atom_tail_stops rest = true →
  Runner.factor n
    (Runner.PState (Scanner rest (AtEof fin) p) (Some Kbin) l vs o)
  = Ok (int_base2 l) (load rest fin vs o).
Proof.
  destruct n as [|n]; [lia|]. intros Hn H.
  change (Runner.factor (S n)) with
    (Runner.factor_body (Runner.atom n) (Runner.atom_tail n)).
  unfold Runner.factor_body, bind, Runner.get_la. simpl.
  rewrite atom_literal by lia.
  now rewrite atom_tail_stop by (assumption || lia).
Qed.

Lemma term_literal n l p rest fin vs o :
  (3 <= n)%nat → factor_tail_stops rest = true →
  Runner.term n
    (Runner.PState (Scanner rest (AtEof fin) p) (Some Kbin) l vs o)
  = Ok (int_base2 l) (load rest fin vs o).
Proof.
  destruct n as [|n]; [lia|]. intros Hn H.
  change (Runner.term (S n)) with
    (Runner.term_body (Runner.factor n) (Runner.factor_tail n)).
  unfold Runner.term_body, bind, Runner.get_la. simpl.
  rewrite factor_literal; [| lia |].
  - now rewrite factor_tail_stop by (assumption || lia).
  - destruct rest as [|[[] text q] rest]; try discriminate; reflexivity.
Qed.

Lemma atom_tail_chain ls :
  ∀ v n fin vs o,
    (length ls + 1 <= n)%nat →
    Runner.atom_tail n v (load (links Kand ls) fin vs o)
    = Ok (accumulate Z.land v (map int_base2 ls)) (load [] fin vs o).
Proof.
  induction ls as [|l ls IH]; intros v n fin vs o Hn;
    (destruct n as [|n]; [simpl in Hn; lia|]).
  - reflexivity.
  - simpl in Hn.
    change (Runner.atom_tail (S n) v) with
      (Runner.atom_tail_body (Runner.atom n) (Runner.atom_tail n) v).
    unfold Runner.atom_tail_body, bind, Runner.get_la. simpl.
    rewrite atom_literal by lia.
    now rewrite IH by lia.
Qed.

Lemma factor_tail_chain ls :
  ∀ v n fin vs o,
    (length ls + 3 <= n)%nat →
    Runner.factor_tail n v (load (links Kor ls) fin vs o)
    = Ok (accumulate Z.lor v (map int_base2 ls)) (load [] fin vs o).
Proof.
  induction ls as [|l ls IH]; intros v n fin vs o Hn;
    (destruct n as [|n]; [simpl in Hn; lia|]).
  - reflexivity.
  - simpl in Hn.
    change (Runner.factor_tail (S n) v) with
      (Runner.factor_tail_body (Runner.factor n) (Runner.factor_tail n) v).
    unfold Runner.factor_tail_body, bind, Runner.get_la. simpl.
    rewrite factor_literal; [| lia | now destruct ls].
    now rewrite IH by lia.
Qed.

Lemma term_tail_chain ls :
  ∀ v n fin vs o,
    (length ls + 4 <= n)%nat →
    Runner.term_tail n v (load (links Kxor ls) fin vs o)
    = Ok (accumulate Z.lxor v (map int_base2 ls)) (load [] fin vs o).
Proof.
  induction ls as [|l ls IH]; intros v n fin vs o Hn;
    (destruct n as [|n]; [simpl in Hn; lia|]).
  - reflexivity.
  - simpl in Hn.
    change (Runner.term_tail (S n) v) with
      (Runner.term_tail_body (Runner.term n) (Runner.term_tail n) v).
    unfold Runner.term_tail_body, bind, Runner.get_la. simpl.
    rewrite term_literal; [| lia | now destruct ls].
    now rewrite IH by lia.
Qed.

Lemma accumulate_fold_left op (Hassoc : ∀ x y z, op x (op y z) = op (op x y) z)
    v ts : accumulate op v ts = fold_left op ts v.
Proof.
  revert v. induction ts as [|t ts IH]; intros v; simpl; [reflexivity|].
  rewrite <- IH. destruct ts as [|u ts]; simpl; [reflexivity | apply Hassoc].
Qed.

Lemma fold_left_permutation op
    (Hassoc : ∀ x y z : Z, op x (op y z) = op (op x y) z)
    (Hcomm : ∀ x y : Z, op x y = op y x) ts ts' :
  Permutation ts ts' → ∀ v, fold_left op ts v = fold_left op ts' v.
Proof.
  induction 1 as [|x l l' _ IH|x y l|l l' l'' _ IH1 _ IH2]; intros v; simpl.
  - reflexivity.
  - apply IH.
  - f_equal. rewrite <- !Hassoc. f_equal. apply Hcomm.
  - now rewrite IH1.
Qed.

Lemma run_chain_xor l ls :
  run_tokens (op_tk Kprint :: tk Kbin l :: links Kxor ls) ∅
  = Some [format_b (accumulate Z.lxor (int_base2 l) (map int_base2 ls))].
Proof.
  unfold run_tokens.
  rewrite (run_from_eq (length ls + 8) _
             (Ok tt (load [] (1, 0)%nat ∅
                       [format_b (accumulate Z.lxor (int_base2 l)
                                    (map int_base2 ls))])));
    [reflexivity | | discriminate].
  replace (length ls + 8)%nat with (S (S (S (length ls + 5)))) by lia.
  simpl. unfold Runner.stmt_list_body, Runner.stmt_body, Runner.expr_body,
    bind, Runner.get_la. simpl.
  rewrite term_literal; [| lia | now destruct ls].
  now rewrite term_tail_chain by lia.
Qed.

Lemma run_chain_or l ls :
  run_tokens (op_tk Kprint :: tk Kbin l :: links Kor ls) ∅
  = Some [format_b (accumulate Z.lor (int_base2 l) (map int_base2 ls))].
Proof.
  unfold run_tokens.
  rewrite (run_from_eq (length ls + 8) _
             (Ok tt (load [] (1, 0)%nat ∅
                       [format_b (accumulate Z.lor (int_base2 l)
                                    (map int_base2 ls))])));
    [reflexivity | | discriminate].
  replace (length ls + 8)%nat with (S (S (S (S (length ls + 4))))) by lia.
  simpl. unfold Runner.stmt_list_body, Runner.stmt_body, Runner.expr_body,
    Runner.term_body, bind, Runner.get_la. simpl.
  rewrite factor_literal; [| lia | now destruct ls].
  now rewrite factor_tail_chain by lia.
Qed.

Lemma run_chain_and l ls :
  run_tokens (op_tk Kprint :: tk Kbin l :: links Kand ls) ∅
  = Some [format_b (accumulate Z.land (int_base2 l) (map int_base2 ls))].
Proof.
  unfold run_tokens.
  rewrite (run_from_eq (length ls + 8) _
             (Ok tt (load [] (1, 0)%nat ∅
                       [format_b (accumulate Z.land (int_base2 l)
                                    (map int_base2 ls))])));
    [reflexivity | | discriminate].
  replace (length ls + 8)%nat with (S (S (S (S (S (length ls + 3)))))) by lia.
  simpl. unfold Runner.stmt_list_body, Runner.stmt_body, Runner.expr_body,
    Runner.term_body, Runner.factor_body, bind, Runner.get_la. simpl.
  rewrite atom_literal by lia.
  now rewrite atom_tail_chain by lia.
Qed.

(** C4.  [xor], [or] and [and] are associative and commutative on values.
    A chain of literals at one precedence level prints what the tail
    procedures accumulate, the first operand combined with the result of the
    rest of the chain, and that is the left-to-right fold of the operands,
    and the fold of the operands taken in any other order.
    [print 1 xor 1 xor 1] prints [1]. *)
Theorem chains_accumulate_as_any_fold (l : string) (ls : list string) :
  let v := int_base2 l in
  let vs := map int_base2 ls in
  (run_tokens (op_tk Kprint :: tk Kbin l :: links Kxor ls) ∅
     = Some [format_b (accumulate Z.lxor v vs)]
   ∧ run_tokens (op_tk Kprint :: tk Kbin l :: links Kor ls) ∅
     = Some [format_b (accumulate Z.lor v vs)]
   ∧ run_tokens (op_tk Kprint :: tk Kbin l :: links Kand ls) ∅
     = Some [format_b (accumulate Z.land v vs)])
  ∧ (accumulate Z.lxor v vs = fold_left Z.lxor vs v
     ∧ accumulate Z.lor v vs = fold_left Z.lor vs v
     ∧ accumulate Z.land v vs = fold_left Z.land vs v)
  ∧ (∀ us, Permutation (v :: vs) us →
       fold_left Z.lxor us 0 = accumulate Z.lxor v vs
       ∧ fold_left Z.lor us 0 = accumulate Z.lor v vs
       ∧ fold_left Z.land us (-1) = accumulate Z.land v vs)
  ∧ (∀ x y z : Z,
       Z.lxor x (Z.lxor y z) = Z.lxor (Z.lxor x y) z
       ∧ Z.lor x (Z.lor y z) = Z.lor (Z.lor x y) z
       ∧ Z.land x (Z.land y z) = Z.land (Z.land x y) z
       ∧ Z.lxor x y = Z.lxor y x
       ∧ Z.lor x y = Z.lor y x
       ∧ Z.land x y = Z.land y x)
  ∧ Runner.main "print 1 xor 1 xor 1" = Some ["1"].
Proof.
  intros v vs.
  assert (Ax : ∀ x y z, Z.lxor x (Z.lxor y z) = Z.lxor (Z.lxor x y) z)
    by (intros; now rewrite Z.lxor_assoc).
  assert (Ao : ∀ x y z, Z.lor x (Z.lor y z) = Z.lor (Z.lor x y) z)
    by (intros; now rewrite Z.lor_assoc).
  assert (Aa : ∀ x y z, Z.land x (Z.land y z) = Z.land (Z.land x y) z)
    by (intros; now rewrite Z.land_assoc).
  split; [| split; [| split; [| split]]].
  - split; [apply run_chain_xor | split; [apply run_chain_or | apply run_chain_and]].
  - split; [| split]; now apply accumulate_fold_left.
  - intros us Hp.
    rewrite !accumulate_fold_left by assumption.
    rewrite <- (fold_left_permutation Z.lxor Ax Z.lxor_comm _ _ Hp).
    rewrite <- (fold_left_permutation Z.lor Ao Z.lor_comm _ _ Hp).
    rewrite <- (fold_left_permutation Z.land Aa Z.land_comm _ _ Hp).
    simpl. now rewrite Z.land_m1_l.
  - intros x y z. repeat split; auto using Z.lxor_comm, Z.lor_comm, Z.land_comm.
  - vm_compute. reflexivity.
Qed.

Example xor_chain_of_three : Runner.main "print 101 xor 110 xor 011" = Some ["0"].
Proof. vm_compute. reflexivity. Qed.

(** ** What follows an expression does not change its value *)

Section Frame.
Variable t : token.
Variable rest : list token.
Hypothesis Ht : tkind t = Kid ∨ tkind t = Kprint ∨ tkind t = Krparen.

Lemma framed_weaken {A} P (m : M Runner.pstate A) :
  framed t rest m → framed_at t rest P m.
Proof. intros H s a s' Hs _. now apply H. Qed.

Lemma framed_bind {A B} P (m : M Runner.pstate A)
    (k : A -> M Runner.pstate B) :
  framed_at t rest P m → (∀ a, framed t rest (k a)) →
  framed_at t rest P (bind m k).
Proof.
  intros Hm Hk s b s' Hs HP. unfold bind.
  destruct (m s) as [a s1| |] eqn:E; try discriminate.
  destruct (Hm _ _ _ Hs HP E) as (Hs1 & ->). intros E2.
  now apply Hk.
Qed.

Lemma framed_ret {A} P (a : A) : framed_at t rest P (ret a).
Proof. intros s b s' Hs _ [= <- <-]. now split. Qed.

Lemma framed_raise {A} P e : framed_at (A := A) t rest P (raise e).
Proof. intros s b s' _ _. discriminate. Qed.

Lemma framed_exhausted {A} P : framed_at (A := A) t rest P exhausted.
Proof. intros s b s' _ _. discriminate. Qed.

Lemma framed_get_var P x : framed_at t rest P (Runner.get_var x).
Proof.
  intros s b s' Hs _ [= <- <-]. split; [assumption|].
  unfold Runner.get_var, graft. now destruct (Runner.la s).
Qed.

Lemma framed_get_val {A} k (f : string -> M Runner.pstate A) :
  (∀ x, framed_at t rest (fun s => Runner.la s = Some k) (f x)) →
  framed_at t rest (fun s => Runner.la s = Some k) (bind Runner.get_val f).
Proof.
  intros H s a s' Hs HP. unfold bind, Runner.get_val. intros E.
  destruct (H _ _ _ _ Hs HP E) as (Hs' & E'). split; [assumption|].
  replace (Runner.val (graft t rest s)) with (Runner.val s); [assumption|].
  unfold graft. now rewrite HP.
Qed.

Lemma framed_match P tok : framed_at t rest P (Runner.match_ tok).
Proof.
  intros [[p e st] l v vs o] [] s' ((pe & He) & Hnil) _.
  unfold Runner.match_, Runner.advance, read, graft. simpl in *.
  destruct (decide (l = Some tok)) as [->|]; [|discriminate]. simpl.
  destruct (decide _) as [_|Hne]; [|now destruct Hne].
  destruct p as [|t1 p]; simpl.
  - subst e. intros [= <-]. simpl. repeat split; eauto.
  - intros [= <-]. simpl. repeat split; eauto. discriminate.
Qed.

(** A procedure that raises at the end of the input. *)
Lemma framed_first {A} (f : option kind -> M Runner.pstate A) e :
  f None = raise e →
  (∀ k, framed_at t rest (fun s => Runner.la s = Some k) (f (Some k))) →
  framed t rest (bind Runner.get_la f).
Proof.
  intros Hnone Hsome s a s' Hs _. unfold bind, Runner.get_la.
  destruct (Runner.la s) as [k|] eqn:El.
  - intros E. destruct (Hsome k _ _ _ Hs El E) as (Hs' & E').
    split; [assumption|].
    replace (Runner.la (graft t rest s)) with (Some k); [assumption|].
    unfold graft. now rewrite El.
  - rewrite Hnone. discriminate.
Qed.

(** A procedure that returns its operand at the end of the input, and on
    the kind of [t]. *)
Lemma framed_tail {A} (f : option kind -> M Runner.pstate A) v :
  f None = ret v → f (Some (tkind t)) = ret v →
  (∀ k, framed_at t rest (fun s => Runner.la s = Some k) (f (Some k))) →
  framed t rest (bind Runner.get_la f).
Proof.
  intros Hnone Hkind Hsome s a s' Hs _. unfold bind, Runner.get_la.
  destruct (Runner.la s) as [k|] eqn:El.
  - intros E. destruct (Hsome k _ _ _ Hs El E) as (Hs' & E').
    split; [assumption|].
    replace (Runner.la (graft t rest s)) with (Some k); [assumption|].
    unfold graft. now rewrite El.
  - rewrite Hnone. intros [= <- <-]. split; [assumption|].
    replace (Runner.la (graft t rest s)) with (Some (tkind t)).
    + now rewrite Hkind.
    + unfold graft. now rewrite El.
Qed.

Ltac framed_go :=
  repeat first
    [ apply framed_ret
    | apply framed_raise
    | apply framed_match
    | apply framed_get_var
    | apply framed_get_val; intros ?
    | progress cbv zeta
    | apply framed_weaken; assumption
    | match goal with
      | H : ∀ v, framed _ _ (_ v) |- _ => apply framed_weaken; apply H
      end
    | apply framed_bind; [| intros ?]
    | match goal with
      | |- framed_at _ _ _ (match ?k with _ => _ end) => destruct k
      end
    | match goal with |- framed _ _ _ => unfold framed end ].

Variables expr' term' factor' atom' : M Runner.pstate Z.
Variables term_tail' factor_tail' atom_tail' : Z -> M Runner.pstate Z.
Hypothesis Hexpr : framed t rest expr'.
Hypothesis Hterm : framed t rest term'.
Hypothesis Hfactor : framed t rest factor'.
Hypothesis Hatom : framed t rest atom'.
Hypothesis Hterm_tail : ∀ v, framed t rest (term_tail' v).
Hypothesis Hfactor_tail : ∀ v, framed t rest (factor_tail' v).
Hypothesis Hatom_tail : ∀ v, framed t rest (atom_tail' v).

Lemma expr_body_framed : framed t rest (Runner.expr_body term' term_tail').
Proof.
  unfold Runner.expr_body. eapply framed_first; [reflexivity|].
  intros k. framed_go.
Qed.

Lemma term_body_framed :
  framed t rest (Runner.term_body factor' factor_tail').
Proof.
  unfold Runner.term_body. eapply framed_first; [reflexivity|].
  intros k. framed_go.
Qed.

Lemma factor_body_framed :
  framed t rest (Runner.factor_body atom' atom_tail').
Proof.
  unfold Runner.factor_body. eapply framed_first; [reflexivity|].
  intros k. framed_go.
Qed.

Lemma atom_body_framed : framed t rest (Runner.atom_body expr').
Proof.
  unfold Runner.atom_body. eapply framed_first; [reflexivity|].
  intros k. framed_go.
Qed.

Lemma term_tail_body_framed v :
  framed t rest (Runner.term_tail_body term' term_tail' v).
Proof.
  unfold Runner.term_tail_body.
  apply (framed_tail _ v); [reflexivity | |].
  - destruct Ht as [-> | [-> | ->]]; reflexivity.
  - intros k. framed_go.
Qed.

Lemma factor_tail_body_framed v :
  framed t rest (Runner.factor_tail_body factor' factor_tail' v).
Proof.
  unfold Runner.factor_tail_body.
  apply (framed_tail _ v); [reflexivity | |].
  - destruct Ht as [-> | [-> | ->]]; reflexivity.
  - intros k. framed_go.
Qed.

Lemma atom_tail_body_framed v :
  framed t rest (Runner.atom_tail_body atom' atom_tail' v).
Proof.
  unfold Runner.atom_tail_body.
  apply (framed_tail _ v); [reflexivity | |].
  - destruct Ht as [-> | [-> | ->]]; reflexivity.
  - intros k. framed_go.
Qed.
End Frame.

Lemma runner_framed t rest n :
  tkind t = Kid ∨ tkind t = Kprint ∨ tkind t = Krparen →
  framed t rest (Runner.expr n)
  ∧ framed t rest (Runner.term n)
  ∧ framed t rest (Runner.factor n)
  ∧ framed t rest (Runner.atom n)
  ∧ (∀ v, framed t rest (Runner.term_tail n v))
  ∧ (∀ v, framed t rest (Runner.factor_tail n v))
  ∧ (∀ v, framed t rest (Runner.atom_tail n v)).
Proof.
  intros Ht. induction n as [|n (H1 & H2 & H3 & H4 & H5 & H6 & H7)].
  - repeat apply conj; intros; apply framed_exhausted.
  - simpl. repeat apply conj; intros.
    + now apply expr_body_framed.
    + now apply term_body_framed.
    + now apply factor_body_framed.
    + now apply atom_body_framed.
    + now apply term_tail_body_framed.
    + now apply factor_tail_body_framed.
    + now apply atom_tail_body_framed.
Qed.
(** ** Assignment and print *)

Lemma tidy_load ts fin vs o : tidy (load ts fin vs o).
Proof.
  destruct ts as [|t ts]; simpl; (split; [eauto|]); [reflexivity|discriminate].
Qed.

Lemma graft_load t rest ts fin vs o :
  graft t rest (load ts fin vs o) = load (ts ++ t :: rest) fin vs o.
Proof. destruct ts; reflexivity. Qed.

(** An expression that takes all of [E] takes the same [E] out of a longer
    input, and leaves the rest. *)
Lemma expr_before_statement n E fin vs o v s' t rest :
  tkind t = Kid ∨ tkind t = Kprint ∨ tkind t = Krparen →
  Runner.expr n (load E fin vs o) = Ok v s' → Runner.la s' = None →
  ∃ e, Runner.expr n (load (E ++ t :: rest) fin vs o)
       = Ok v (Runner.PState (Scanner rest (AtEof e) (tpos t))
                 (Some (tkind t)) (ttext t) vs o).
Proof.
  intros Ht HE Hend.
  destruct (runner_framed t rest n Ht) as (H & _).
  destruct (H _ _ _ (tidy_load E fin vs o) I HE) as (((e & He) & _) & HE').
  rewrite graft_load in HE'. exists e. rewrite HE'. f_equal.
  pose proof (expr_keeps n (load E fin vs o)) as Hk. rewrite HE in Hk.
  destruct Hk as (Hv & Ho).
  unfold graft. rewrite Hend, He, Hv, Ho. now destruct E.
Qed.

Lemma expr_at_end n E fin vs o v s' :
  Runner.expr n (load E fin vs o) = Ok v s' → Runner.la s' = None →
  ∃ e, s' = Runner.PState (Scanner [] (AtEof e) (start (Runner.scan s')))
              None (Runner.val s') vs o.
Proof.
  intros HE Hend.
  destruct (runner_framed (tk Kid "x") [] n ltac:(auto)) as (H & _).
  destruct (H _ _ _ (tidy_load E fin vs o) I HE) as (((e & He) & Hnil) & _).
  pose proof (expr_keeps n (load E fin vs o)) as Hk. rewrite HE in Hk.
  destruct Hk as (Hv & Ho). exists e.
  destruct s' as [[p en st] l va vs' o']. simpl in *.
  rewrite (Hnil Hend). subst. now destruct E.
Qed.


Lemma stmt_list_next n s s1 r :
  Runner.la s = Some Kid ∨ Runner.la s = Some Kprint →
  Runner.stmt n s = Ok tt s1 → Runner.stmt_list n s1 = r →
  Runner.stmt_list (S n) s = r.
Proof.
  intros Hla Hs Hr.
  change (Runner.stmt_list (S n)) with
    (Runner.stmt_list_body (Runner.stmt_list n) (Runner.stmt n)).
  unfold Runner.stmt_list_body, bind, Runner.get_la.
  destruct Hla as [-> | ->]; now rewrite Hs.
Qed.

Lemma stmt_list_done n s :
  Runner.la s = None → Runner.stmt_list (S n) s = Ok tt s.
Proof.
  intros Hla.
  change (Runner.stmt_list (S n)) with
    (Runner.stmt_list_body (Runner.stmt_list n) (Runner.stmt n)).
  unfold Runner.stmt_list_body, bind, Runner.get_la. now rewrite Hla.
Qed.

Lemma stmt_print n p text ts fin vs o v s1 :
  Runner.expr n (load ts fin vs o) = Ok v s1 →
  Runner.stmt (S n)
    (Runner.PState (Scanner ts (AtEof fin) p) (Some Kprint) text vs o)
  = Runner.print (format_b v) s1.
Proof.
  intros HE.
  change (Runner.stmt (S n)) with (Runner.stmt_body (Runner.expr n)).
  unfold Runner.stmt_body, bind, Runner.get_la. simpl.
  now rewrite match_loaded, HE.
Qed.

Lemma stmt_assign n x p1 text p2 ts fin vs o v s1 :
  Runner.expr n (load ts fin vs o) = Ok v s1 →
  Runner.stmt (S n)
    (Runner.PState (Scanner (Token Kassign text p2 :: ts) (AtEof fin) p1)
       (Some Kid) x vs o)
  = Runner.set_var x v s1.
Proof.
  intros HE.
  change (Runner.stmt (S n)) with (Runner.stmt_body (Runner.expr n)).
  unfold Runner.stmt_body, bind, Runner.get_la, Runner.get_val. simpl.
  rewrite ?match_loaded. simpl. rewrite ?match_loaded. now rewrite HE.
Qed.

Lemma expr_variable n x p fin (vs : gmap string Z) o v :
  (4 <= n)%nat → vs !! x = Some v →
  Runner.expr n
    (Runner.PState (Scanner [] (AtEof fin) p) (Some Kid) x vs o)
  = Ok v (load [] fin vs o).
Proof.
  intros Hn Hx. destruct n as [|[|[|[|n]]]]; try lia.
  simpl. unfold Runner.expr_body, Runner.term_body, Runner.factor_body,
    Runner.atom_body, bind, Runner.get_la, Runner.get_val, Runner.get_var.
  simpl. now rewrite Hx.
Qed.
(** C2.  Let [E] be a valid expression whose identifiers all have values:
    tokens that [expr], started on them with the dictionary [vs], takes to
    the last and returns a value [v] for.  Then, for any identifier [x],
    the statements [x = E] and [print x] run to completion and print what
    [print E] run alone prints: the one line of [v] in binary, after the
    lines printed before. *)
Theorem assign_then_print_emits_what_print_does (x : string) (E : list token) (n : nat) (v : Z)
    (s' : Runner.pstate) (fin p1 p2 p3 p4 p5 : position)
    (vs : gmap string Z) (o : list string)
    (HE : Runner.expr n (load E fin vs o) = Ok v s')
    (Hend : Runner.la s' = None) :
  ∃ s1 s2,
    run_from (load ([Token Kid x p1; Token Kassign "=" p2] ++ E
                      ++ [Token Kprint "print" p3; Token Kid x p4])
                fin vs o) = Ok tt s1
    ∧ run_from (load (Token Kprint "print" p5 :: E) fin vs o) = Ok tt s2
    ∧ Runner.out s1 = o ++ [format_b v]
    ∧ Runner.out s2 = o ++ [format_b v].
Proof.
  assert (Hne : Runner.expr n (load E fin vs o) ≠ Exhausted)
    by (rewrite HE; discriminate).
  destruct (expr_before_statement n E fin vs o v s'
              (Token Kprint "print" p3) [Token Kid x p4]
              ltac:(auto) HE Hend) as (e & HE1).
  destruct (expr_at_end _ _ _ _ _ _ _ HE Hend) as (e2 & Hs').
  assert (HE1' : Runner.expr (S (n + 4))
                   (load (E ++ [Token Kprint "print" p3; Token Kid x p4])
                      fin vs o)
                 = Ok v (Runner.PState
                           (Scanner [Token Kid x p4] (AtEof e) p3)
                           (Some Kprint) "print" vs o)).
  { rewrite (expr_stable n) by (lia || (rewrite HE1; discriminate)).
    exact HE1. }
  assert (HE' : Runner.expr (n + 4) (load E fin vs o) = Ok v s').
  { rewrite (expr_stable n) by (lia || assumption). exact HE. }
  eexists _, _. split; [| split; [| split]].
  - apply (run_from_eq (S (S (S (n + 4))))); [|discriminate].
    eapply stmt_list_next; [now left | |].
    + simpl load. rewrite (stmt_assign _ _ _ _ _ _ _ _ _ _ _ HE1').
      reflexivity.
    + eapply stmt_list_next; [now right | |].
      * unfold Runner.set_var. cbn [Runner.scan Runner.la Runner.val Runner.vars Runner.out].
        erewrite stmt_print; [reflexivity|].
        apply expr_variable; [lia | apply lookup_insert_eq].
      * apply stmt_list_done. reflexivity.
  - apply (run_from_eq (S (S (n + 4)))); [|discriminate].
    eapply stmt_list_next; [now right | |].
    + simpl load. erewrite stmt_print; [reflexivity | exact HE'].
    + apply stmt_list_done. simpl. exact Hend.
  - reflexivity.
  - simpl. rewrite Hs'. reflexivity.
Qed.

Lemma assign_then_print_witness :
  let E := [tk Kbin "110"; op_tk Kand; tk Kid "y"] in
  let vs : gmap string Z := <["y" := 3]> ∅ in
  ∃ s1 s2,
    run_from (load ([tk Kid "x"; op_tk Kassign] ++ E
                      ++ [op_tk Kprint; tk Kid "x"])
                (1, 0)%nat vs []) = Ok tt s1
    ∧ run_from (load (op_tk Kprint :: E) (1, 0)%nat vs []) = Ok tt s2
    ∧ Runner.out s1 = [] ++ [format_b 2]
    ∧ Runner.out s2 = [] ++ [format_b 2].
Proof.
  intros E vs.
  apply (assign_then_print_emits_what_print_does "x" E 6 2
           (load [] (1, 0)%nat vs []) (1, 0)%nat (1, 0)%nat (1, 0)%nat
           (1, 0)%nat (1, 0)%nat (1, 0)%nat vs []);
    vm_compute; reflexivity.
Defined.

Example assign_then_print_text :
  Runner.main "y = 11 x = 110 and y print x" = Runner.main "y = 11 print 110 and y".
Proof. vm_compute. reflexivity. Qed.

(** ** Invariants of the two parsers

    A property of parser objects that reading a token keeps is kept by every
    procedure of the recogniser.  For the interpreter it must also be kept
    by storing and by printing a value; and a property of values that
    literals have and the three operators keep holds of every value an
    expression returns. *)

Section Respects.
Context {St : Type}.
Variable I : St -> Prop.
Variable E : exn -> St -> Prop.

Lemma respects_bind {A B} (Q1 : A -> Prop) (Q2 : B -> Prop)
    (m : M St A) (k : A -> M St B) :
  respects I E Q1 m → (∀ a, Q1 a → respects I E Q2 (k a)) →
  respects I E Q2 (bind m k).
Proof.
  intros Hm Hk s Hs. unfold bind. specialize (Hm s Hs).
  destruct (m s) as [a s1|e s1|]; [| assumption | exact Logic.I].
  destruct Hm as (Ha & Hs1). exact (Hk a Ha s1 Hs1).
Qed.

Lemma respects_ret {A} (Q : A -> Prop) a : Q a → respects I E Q (ret a).
Proof. intros Ha s Hs. now split. Qed.

Lemma respects_exhausted {A} (Q : A -> Prop) : respects I E Q exhausted.
Proof. intros s Hs. exact Logic.I. Qed.
End Respects.

Section RunnerInvariant.
Variable I : Runner.pstate -> Prop.
Variable E : exn -> Runner.pstate -> Prop.
Variable V : Z -> Prop.
Hypothesis Hadvance : respects I E (fun _ => True) Runner.advance.
Hypothesis Hraise : ∀ msg s, I s → E (ParseError msg) s.
Hypothesis Hliteral : ∀ text, V (int_base2 text).
Hypothesis Hxor : ∀ a b, V a → V b → V (Z.lxor a b).
Hypothesis Hor : ∀ a b, V a → V b → V (Z.lor a b).
Hypothesis Hand : ∀ a b, V a → V b → V (Z.land a b).
Hypothesis Hlookup : ∀ s x v, I s → Runner.vars s !! x = Some v → V v.
Hypothesis Hstore : ∀ s x v, I s → V v →
  I (Runner.PState (Runner.scan s) (Runner.la s) (Runner.val s)
       (<[x := v]> (Runner.vars s)) (Runner.out s)).
Hypothesis Hprint : ∀ s v, I s → V v →
  I (Runner.PState (Runner.scan s) (Runner.la s) (Runner.val s)
       (Runner.vars s) (Runner.out s ++ [format_b v])).

Lemma respects_raise {A} (Q : A -> Prop) msg :
  respects I E Q (raise (ParseError msg)).
Proof. intros s Hs. now apply Hraise. Qed.

Lemma respects_get_la : respects I E (fun _ => True) Runner.get_la.
Proof. intros s Hs. now split. Qed.

Lemma respects_get_val : respects I E (fun _ => True) Runner.get_val.
Proof. intros s Hs. now split. Qed.

Lemma respects_get_var x :
  respects I E (fun found => ∀ v, found = Some v → V v) (Runner.get_var x).
Proof.
  intros s Hs. split; [|assumption]. intros v Hv. exact (Hlookup s x v Hs Hv).
Qed.

Lemma respects_match tok : respects I E (fun _ => True) (Runner.match_ tok).
Proof.
  intros s Hs. unfold Runner.match_.
  destruct (decide _); [now apply Hadvance | now apply Hraise].
Qed.

Lemma respects_set_var x v :
  V v → respects I E (fun _ => True) (Runner.set_var x v).
Proof. intros Hv s Hs. split; [exact Logic.I | now apply Hstore]. Qed.

Lemma respects_print v :
  V v → respects I E (fun _ => True) (Runner.print (format_b v)).
Proof. intros Hv s Hs. split; [exact Logic.I | now apply Hprint]. Qed.

Ltac respects_go :=
  repeat first
    [ apply respects_raise
    | apply respects_ret; solve [auto]
    | apply respects_set_var; assumption
    | apply respects_print; assumption
    | progress cbv zeta
    | eapply respects_bind;
      [ first [ apply respects_get_la | apply respects_get_val
              | apply respects_get_var | apply respects_match
              | eassumption
              | match goal with
                | H : ∀ v, V v → respects _ _ _ (_ v) |- _ =>
                    apply H; assumption
                end ]
      | intros ? ? ]
    | assumption
    | match goal with
      | H : ∀ v, V v → respects _ _ _ (_ v) |- _ => apply H; assumption
      end
    | match goal with
      | |- respects _ _ _ (match ?k with _ => _ end) => destruct k
      end ].

Section RunnerInvariantBodies.
Variables stmt_list' stmt' : M Runner.pstate unit.
Variables expr' term' factor' atom' : M Runner.pstate Z.
Variables term_tail' factor_tail' atom_tail' : Z -> M Runner.pstate Z.
Hypothesis Hstmt_list : respects I E (fun _ => True) stmt_list'.
Hypothesis Hstmt : respects I E (fun _ => True) stmt'.
Hypothesis Hexpr : respects I E V expr'.
Hypothesis Hterm : respects I E V term'.
Hypothesis Hfactor : respects I E V factor'.
Hypothesis Hatom : respects I E V atom'.
Hypothesis Hterm_tail : ∀ v, V v → respects I E V (term_tail' v).
Hypothesis Hfactor_tail : ∀ v, V v → respects I E V (factor_tail' v).
Hypothesis Hatom_tail : ∀ v, V v → respects I E V (atom_tail' v).

Lemma stmt_list_body_respects :
  respects I E (fun _ => True) (Runner.stmt_list_body stmt_list' stmt').
Proof. unfold Runner.stmt_list_body. respects_go. Qed.

Lemma stmt_body_respects :
  respects I E (fun _ => True) (Runner.stmt_body expr').
Proof. unfold Runner.stmt_body. respects_go. Qed.

Lemma expr_body_respects :
  respects I E V (Runner.expr_body term' term_tail').
Proof. unfold Runner.expr_body. respects_go. Qed.

Lemma term_tail_body_respects v :
  V v → respects I E V (Runner.term_tail_body term' term_tail' v).
Proof. intros Hv. unfold Runner.term_tail_body. respects_go. Qed.

Lemma term_body_respects :
  respects I E V (Runner.term_body factor' factor_tail').
Proof. unfold Runner.term_body. respects_go. Qed.

Lemma factor_tail_body_respects v :
  V v → respects I E V (Runner.factor_tail_body factor' factor_tail' v).
Proof. intros Hv. unfold Runner.factor_tail_body. respects_go. Qed.

Lemma factor_body_respects :
  respects I E V (Runner.factor_body atom' atom_tail').
Proof. unfold Runner.factor_body. respects_go. Qed.

Lemma atom_tail_body_respects v :
  V v → respects I E V (Runner.atom_tail_body atom' atom_tail' v).
Proof. intros Hv. unfold Runner.atom_tail_body. respects_go. Qed.

Lemma atom_body_respects : respects I E V (Runner.atom_body expr').
Proof. unfold Runner.atom_body. respects_go. Qed.
End RunnerInvariantBodies.

Lemma runner_respects n :
  respects I E (fun _ => True) (Runner.stmt_list n)
  ∧ respects I E (fun _ => True) (Runner.stmt n)
  ∧ respects I E V (Runner.expr n)
  ∧ respects I E V (Runner.term n)
  ∧ respects I E V (Runner.factor n)
  ∧ respects I E V (Runner.atom n)
  ∧ (∀ v, V v → respects I E V (Runner.term_tail n v))
  ∧ (∀ v, V v → respects I E V (Runner.factor_tail n v))
  ∧ (∀ v, V v → respects I E V (Runner.atom_tail n v)).
Proof.
  induction n as [|n (H1 & H2 & H3 & H4 & H5 & H6 & H7 & H8 & H9)].
  - repeat apply conj; intros; apply respects_exhausted.
  - simpl. repeat apply conj; intros.
    + now apply stmt_list_body_respects.
    + now apply stmt_body_respects.
    + now apply expr_body_respects.
    + now apply term_body_respects.
    + now apply factor_body_respects.
    + now apply atom_body_respects.
    + now apply term_tail_body_respects.
    + now apply factor_tail_body_respects.
    + now apply atom_tail_body_respects.
Qed.

(** The whole of [parse]: the first read, then the statement list. *)
Lemma parse_respects n text :
  I (Runner.fresh text) →
  match Runner.parse n text with
  | Ok _ s => I s
  | Raise e s => E e s
  | Exhausted => True
  end.
Proof.
  intros H0. unfold Runner.parse.
  pose proof (respects_bind I E (fun _ => True) (fun _ => True) Runner.advance
                (fun _ => Runner.stmt_list n) Hadvance
                (fun _ _ => proj1 (runner_respects n)) _ H0) as H.
  destruct (bind _ _ _) as [a s|e s|]; [apply H | exact H | exact Logic.I].
Qed.
End RunnerInvariant.

Section RecognizerInvariant.
Import Recognizer.
Variable I : rstate -> Prop.
Variable E : exn -> rstate -> Prop.
Hypothesis Hadvance : respects I E (fun _ => True) advance.
Hypothesis Hraise : ∀ msg s, I s → E (ParseError msg) s.

Lemma recognizer_respects_raise msg :
  respects I E (fun _ : unit => True) (raise (ParseError msg)).
Proof. intros s Hs. now apply Hraise. Qed.

Lemma recognizer_respects_get_la : respects I E (fun _ => True) get_la.
Proof. intros s Hs. now split. Qed.

Lemma recognizer_respects_match tok :
  respects I E (fun _ => True) (match_ tok).
Proof.
  intros s Hs. unfold match_.
  destruct (decide _); [now apply Hadvance | now apply Hraise].
Qed.

Ltac rrespects_go :=
  repeat first
    [ apply recognizer_respects_raise
    | apply respects_ret; exact Logic.I
    | apply recognizer_respects_match
    | assumption
    | eapply respects_bind;
      [ first [ apply recognizer_respects_get_la
              | apply recognizer_respects_match | eassumption ]
      | intros ? ? ]
    | match goal with
      | |- respects _ _ _ (match ?k with _ => _ end) => destruct k
      end ].

Section RecognizerInvariantBodies.
Variables stmt_list' stmt' expr' term' factor' atom' : M rstate unit.
Variables term_tail' factor_tail' atom_tail' : M rstate unit.
Hypothesis Hstmt_list : respects I E (fun _ => True) stmt_list'.
Hypothesis Hstmt : respects I E (fun _ => True) stmt'.
Hypothesis Hexpr : respects I E (fun _ => True) expr'.
Hypothesis Hterm : respects I E (fun _ => True) term'.
Hypothesis Hfactor : respects I E (fun _ => True) factor'.
Hypothesis Hatom : respects I E (fun _ => True) atom'.
Hypothesis Hterm_tail : respects I E (fun _ => True) term_tail'.
Hypothesis Hfactor_tail : respects I E (fun _ => True) factor_tail'.
Hypothesis Hatom_tail : respects I E (fun _ => True) atom_tail'.

Lemma recognizer_stmt_list_body_respects :
  respects I E (fun _ => True) (stmt_list_body stmt_list' stmt').
Proof. unfold stmt_list_body. rrespects_go. Qed.

Lemma recognizer_stmt_body_respects :
  respects I E (fun _ => True) (stmt_body expr').
Proof. unfold stmt_body. rrespects_go. Qed.

Lemma recognizer_expr_body_respects :
  respects I E (fun _ => True) (expr_body term' term_tail').
Proof. unfold expr_body. rrespects_go. Qed.

Lemma recognizer_term_tail_body_respects :
  respects I E (fun _ => True) (term_tail_body term' term_tail').
Proof. unfold term_tail_body. rrespects_go. Qed.

Lemma recognizer_term_body_respects :
  respects I E (fun _ => True) (term_body factor' factor_tail').
Proof. unfold term_body. rrespects_go. Qed.

Lemma recognizer_factor_tail_body_respects :
  respects I E (fun _ => True) (factor_tail_body factor' factor_tail').
Proof. unfold factor_tail_body. rrespects_go. Qed.

Lemma recognizer_factor_body_respects :
  respects I E (fun _ => True) (factor_body atom' atom_tail').
Proof. unfold factor_body. rrespects_go. Qed.

Lemma recognizer_atom_tail_body_respects :
  respects I E (fun _ => True) (atom_tail_body atom' atom_tail').
Proof. unfold atom_tail_body. rrespects_go. Qed.

Lemma recognizer_atom_body_respects :
  respects I E (fun _ => True) (atom_body expr').
Proof. unfold atom_body. rrespects_go. Qed.
End RecognizerInvariantBodies.

Lemma recognizer_respects n :
  respects I E (fun _ => True) (stmt_list n)
  ∧ respects I E (fun _ => True) (stmt n)
  ∧ respects I E (fun _ => True) (expr n)
  ∧ respects I E (fun _ => True) (term n)
  ∧ respects I E (fun _ => True) (factor n)
  ∧ respects I E (fun _ => True) (atom n)
  ∧ respects I E (fun _ => True) (term_tail n)
  ∧ respects I E (fun _ => True) (factor_tail n)
  ∧ respects I E (fun _ => True) (atom_tail n).
Proof.
  induction n as [|n (H1 & H2 & H3 & H4 & H5 & H6 & H7 & H8 & H9)].
  - repeat apply conj; apply respects_exhausted.
  - simpl. repeat apply conj.
    + now apply recognizer_stmt_list_body_respects.
    + now apply recognizer_stmt_body_respects.
    + now apply recognizer_expr_body_respects.
    + now apply recognizer_term_body_respects.
    + now apply recognizer_factor_body_respects.
    + now apply recognizer_atom_body_respects.
    + now apply recognizer_term_tail_body_respects.
    + now apply recognizer_factor_tail_body_respects.
    + now apply recognizer_atom_tail_body_respects.
Qed.

Lemma recognizer_parse_respects n text :
  I (fresh text) →
  match parse n text with
  | Ok _ s => I s
  | Raise e s => E e s
  | Exhausted => True
  end.
Proof.
  intros H0. unfold parse.
  pose proof (respects_bind I E (fun _ => True) (fun _ => True) advance
                (fun _ => stmt_list n) Hadvance
                (fun _ _ => proj1 (recognizer_respects n)) _ H0) as H.
  destruct (bind _ _ _) as [a s|e s|]; [apply H | exact H | exact Logic.I].
Qed.
End RecognizerInvariant.

(** ** Values are never negative *)

(** X1.  No value is ever negative: whatever the text, once [parse] has
    returned or raised, every value in the dictionary is zero or more, and
    every line printed is a binary numeral without sign and without leading
    zeros. *)
Theorem values_never_negative (n : nat) (text : string) :
  match Runner.parse n text with
  | Ok _ s | Raise _ s => wholesome s
  | Exhausted => True
  end.
Proof.
  pose proof (parse_respects wholesome (fun _ => wholesome) (fun v => 0 <= v))
    as H.
  assert (H' : match Runner.parse n text with
               | Ok _ s => wholesome s
               | Raise _ s => wholesome s
               | Exhausted => True
               end); [| destruct (Runner.parse n text); exact H'].
  apply H; clear H.
  - intros s Hs. unfold Runner.advance.
    destruct (read (Runner.scan s)) as [[[k t]|] sc]; [split; [exact I|] |];
      exact Hs.
  - intros _ s Hs. exact Hs.
  - apply int_base2_nonneg.
  - intros a b Ha Hb. now apply Z.lxor_nonneg.
  - intros a b Ha Hb. now apply Z.lor_nonneg.
  - intros a b Ha Hb. apply Z.land_nonneg. now left.
  - intros s x v (Hs & _) Hx. exact (Hs x v Hx).
  - intros s x v (Hs & Ho) Hv. split; [|exact Ho]. simpl.
    now apply map_Forall_insert_2.
  - intros s v (Hs & Ho) Hv. split; [exact Hs|]. simpl.
    apply Forall_app. split; [exact Ho|].
    constructor; [now apply format_b_minimal | constructor].
  - split; simpl; [apply map_Forall_empty | constructor].
Qed.

(** ** Where the scanner stops *)

Lemma newline_class c :
  is_newline c = true →
  is_space c = true ∧ is_bin c = false ∧ is_letter c = false
  ∧ is_digit c = false.
Proof.
  destruct c as [[] [] [] [] [] [] [] []]; vm_compute; intros H;
    first [discriminate | repeat split].
Qed.

Lemma continues_not_newline m c :
  continues m c = true → is_newline c = false.
Proof.
  intros H. destruct (is_newline c) eqn:E; [|reflexivity].
  destruct (newline_class c E) as (_ & Hb & Hl & Hd).
  destruct m; simpl in H; [discriminate | congruence |].
  rewrite Hl, Hd in H. discriminate.
Qed.

Lemma not_space_not_newline c : is_space c = false → is_newline c = false.
Proof.
  intros H. destruct (is_newline c) eqn:E; [|reflexivity].
  destruct (newline_class c E) as (Hs & _). congruence.
Qed.

Lemma emit_ending ts r : (emit ts r).2 = r.2.
Proof. reflexivity. Qed.

Lemma scan_text_unrecognized text :
  ∀ line col m p,
    (scan_text text line col m).2 = Unrecognized p →
    ∃ pre c post, text = pre +:+ String c post
                  ∧ starts_token c = false ∧ p = walk pre line col.
Proof.
  induction text as [|c rest IH]; intros line col m p; simpl; [discriminate|].
  destruct (continues m c) eqn:Ec.
  { intros H. destruct (IH _ _ _ _ H) as (pre & d & post & -> & Hd & ->).
    exists (String c pre), d, post. repeat split; [assumption|].
    simpl. now rewrite (continues_not_newline m c Ec). }
  destruct (is_space c) eqn:Es.
  { rewrite emit_ending. destruct (is_newline c) eqn:En; intros H;
      destruct (IH _ _ _ _ H) as (pre & d & post & -> & Hd & ->);
      exists (String c pre), d, post; (repeat split; [assumption|]);
      simpl; now rewrite En. }
  pose proof (not_space_not_newline c Es) as En.
  assert (Hstep : ∀ m',
    (scan_text rest line (S col) m').2 = Unrecognized p →
    ∃ pre d post, String c rest = pre +:+ String d post
                  ∧ starts_token d = false ∧ p = walk pre line col).
  { intros m' H. destruct (IH _ _ _ _ H) as (pre & d & post & -> & Hd & ->).
    exists (String c pre), d, post. repeat split; [assumption|].
    simpl. now rewrite En. }
  destruct (Ascii.eqb c "=") eqn:E1; [rewrite emit_ending; apply Hstep|].
  destruct (Ascii.eqb c "(") eqn:E2; [rewrite emit_ending; apply Hstep|].
  destruct (Ascii.eqb c ")") eqn:E3; [rewrite emit_ending; apply Hstep|].
  destruct (is_bin c) eqn:E4; [rewrite emit_ending; apply Hstep|].
  destruct (is_letter c) eqn:E5; [rewrite emit_ending; apply Hstep|].
  simpl. intros [= <-]. exists EmptyString, c, rest.
  repeat split. unfold starts_token. now rewrite Es, E1, E2, E3, E4, E5.
Qed.

Lemma scan_text_at_eof text :
  ∀ line col m p,
    (scan_text text line col m).2 = AtEof p → p = walk text line col.
Proof.
  induction text as [|c rest IH]; intros line col m p; simpl.
  - now intros [= <-].
  - destruct (continues m c) eqn:Ec.
    { rewrite (continues_not_newline m c Ec). apply IH. }
    destruct (is_space c) eqn:Es.
    { rewrite emit_ending. destruct (is_newline c); apply IH. }
    rewrite (not_space_not_newline c Es).
    destruct (Ascii.eqb c "="); [rewrite emit_ending; apply IH|].
    destruct (Ascii.eqb c "("); [rewrite emit_ending; apply IH|].
    destruct (Ascii.eqb c ")"); [rewrite emit_ending; apply IH|].
    destruct (is_bin c); [rewrite emit_ending; apply IH|].
    destruct (is_letter c); [rewrite emit_ending; apply IH|].
    simpl. intros [=].
Qed.

Lemma runner_advance_ending e0 :
  respects (fun s => ending (Runner.scan s) = e0)
    (fun e s => ending (Runner.scan s) = e0
                ∧ (e = PlexError → e0 = Unrecognized (start (Runner.scan s))))
    (fun _ => True) Runner.advance.
Proof.
  intros s Hs. unfold Runner.advance, read.
  destruct (pending (Runner.scan s)) as [|t ts]; simpl; [|now split].
  destruct (ending (Runner.scan s)) eqn:Ee; simpl; [now split|].
  split; [assumption|]. intros _. now rewrite <- Hs.
Qed.

Lemma recognizer_advance_ending e0 :
  respects (fun s => ending (Recognizer.scan s) = e0)
    (fun e s => ending (Recognizer.scan s) = e0
                ∧ (e = PlexError
                   → e0 = Unrecognized (start (Recognizer.scan s))))
    (fun _ => True) Recognizer.advance.
Proof.
  intros s Hs. unfold Recognizer.advance, read.
  destruct (pending (Recognizer.scan s)) as [|t ts]; simpl; [|now split].
  destruct (ending (Recognizer.scan s)) eqn:Ee; simpl; [now split|].
  split; [assumption|]. intros _. now rewrite <- Hs.
Qed.

(** The scanner's way of ending never changes, and a scanner error leaves
    the position at the character not recognised. *)
Lemma runner_parse_ending n text :
  match Runner.parse n text with
  | Ok _ s => ending (Runner.scan s) = ending (plex_scanner text)
  | Raise e s =>
      ending (Runner.scan s) = ending (plex_scanner text)
      ∧ (e = PlexError
         → ending (plex_scanner text) = Unrecognized (Runner.position s))
  | Exhausted => True
  end.
Proof.
  apply (parse_respects _ _ (fun _ => True)); try (intros; exact Logic.I);
    try (intros; assumption); try reflexivity.
  - apply runner_advance_ending.
  - intros msg s Hs. split; [assumption | discriminate].
Qed.

Lemma recognizer_parse_ending n text :
  match Recognizer.parse n text with
  | Ok _ s => ending (Recognizer.scan s) = ending (plex_scanner text)
  | Raise e s =>
      ending (Recognizer.scan s) = ending (plex_scanner text)
      ∧ (e = PlexError
         → ending (plex_scanner text) = Unrecognized (Recognizer.position s))
  | Exhausted => True
  end.
Proof.
  apply recognizer_parse_respects; try reflexivity.
  - apply recognizer_advance_ending.
  - intros msg s Hs. split; [assumption | discriminate].
Qed.

(** X2.  When [parse] ends with the scanner's error, in either file, the
    text holds a character that no pattern of the lexicon starts with, and
    the position the driver reports is that of this character: the line and
    column plex has reached after the characters before it. *)
Theorem scanner_error_position (n : nat) (text : string) :
  match Runner.parse n text with
  | Raise PlexError s =>
      ∃ pre c post, text = pre +:+ String c post
                    ∧ starts_token c = false
                    ∧ Runner.position s = walk pre 1 0
  | _ => True
  end
  ∧ match Recognizer.parse n text with
    | Raise PlexError s =>
        ∃ pre c post, text = pre +:+ String c post
                      ∧ starts_token c = false
                      ∧ Recognizer.position s = walk pre 1 0
    | _ => True
    end.
Proof.
  split.
  - pose proof (runner_parse_ending n text) as H.
    destruct (Runner.parse n text) as [a s|[|msg] s|]; try exact I.
    destruct H as (_ & H). specialize (H eq_refl).
    apply (scan_text_unrecognized text 1 0 Idle). exact H.
  - pose proof (recognizer_parse_ending n text) as H.
    destruct (Recognizer.parse n text) as [a s|[|msg] s|]; try exact I.
    destruct H as (_ & H). specialize (H eq_refl).
    apply (scan_text_unrecognized text 1 0 Idle). exact H.
Qed.

(** ** A run that completes has read the whole text *)

Lemma stmt_list_returns_at_end n :
  ∀ s s', Runner.stmt_list n s = Ok tt s' → Runner.la s' = None.
Proof.
  induction n as [|n IH]; intros s s'; simpl; [discriminate|].
  unfold Runner.stmt_list_body, bind at 1, Runner.get_la.
  destruct (Runner.la s) as [[]|] eqn:El; try discriminate;
    try (unfold bind; destruct (Runner.stmt n s) as [[] s1| |];
         try discriminate; apply IH).
  now intros [= <-].
Qed.

Lemma recognizer_stmt_list_returns_at_end n :
  ∀ s s', Recognizer.stmt_list n s = Ok tt s' → Recognizer.la s' = None.
Proof.
  induction n as [|n IH]; intros s s'; simpl; [discriminate|].
  unfold Recognizer.stmt_list_body, bind at 1, Recognizer.get_la.
  destruct (Recognizer.la s) as [[]|] eqn:El; try discriminate;
    try (unfold bind; destruct (Recognizer.stmt n s) as [[] s1| |];
         try discriminate; apply IH).
  now intros [= <-].
Qed.

Lemma runner_advance_drains s :
  match Runner.advance s with
  | Ok _ s' => Runner.la s' = None → ∃ p, drained (Runner.scan s') p
  | _ => True
  end.
Proof.
  unfold Runner.advance, read.
  destruct (pending (Runner.scan s)) as [|t ts]; simpl; [|discriminate].
  destruct (ending (Runner.scan s)) as [p|p] eqn:Ee; simpl; [|exact I].
  intros _. exists p. now repeat split.
Qed.

Lemma recognizer_advance_drains s :
  match Recognizer.advance s with
  | Ok _ s' => Recognizer.la s' = None → ∃ p, drained (Recognizer.scan s') p
  | _ => True
  end.
Proof.
  unfold Recognizer.advance, read.
  destruct (pending (Recognizer.scan s)) as [|t ts]; simpl; [|discriminate].
  destruct (ending (Recognizer.scan s)) as [p|p] eqn:Ee; simpl; [|exact I].
  intros _. exists p. now repeat split.
Qed.

Lemma runner_stmt_list_drains n s :
  (Runner.la s = None → ∃ p, drained (Runner.scan s) p) →
  match Runner.stmt_list n s with
  | Ok _ s' => Runner.la s' = None ∧ ∃ p, drained (Runner.scan s') p
  | _ => True
  end.
Proof.
  intros Hs.
  pose proof (runner_respects
    (fun s => Runner.la s = None → ∃ p, drained (Runner.scan s) p)
    (fun _ _ => True) (fun _ => True)) as H.
  destruct (Runner.stmt_list n s) as [[] s'|e s'|] eqn:Es; try exact I.
  pose proof (stmt_list_returns_at_end n s s' Es) as Hla.
  split; [assumption|].
  assert (Hr : respects
    (fun s => Runner.la s = None → ∃ p, drained (Runner.scan s) p)
    (fun _ _ => True) (fun _ : unit => True) (Runner.stmt_list n)).
  { apply H; try (intros; exact Logic.I);
      try (intros ? ? ? Hi _; exact Hi); try (intros ? ? Hi _; exact Hi).
    intros s0 _. pose proof (runner_advance_drains s0) as Ha.
    destruct (Runner.advance s0); [now split | exact I | exact I]. }
  specialize (Hr s Hs). rewrite Es in Hr. now apply Hr.
Qed.

Lemma recognizer_stmt_list_drains n s :
  (Recognizer.la s = None → ∃ p, drained (Recognizer.scan s) p) →
  match Recognizer.stmt_list n s with
  | Ok _ s' => Recognizer.la s' = None ∧ ∃ p, drained (Recognizer.scan s') p
  | _ => True
  end.
Proof.
  intros Hs.
  pose proof (recognizer_respects
    (fun s => Recognizer.la s = None → ∃ p, drained (Recognizer.scan s) p)
    (fun _ _ => True)) as H.
  destruct (Recognizer.stmt_list n s) as [[] s'|e s'|] eqn:Es; try exact I.
  pose proof (recognizer_stmt_list_returns_at_end n s s' Es) as Hla.
  split; [assumption|].
  assert (Hr : respects
    (fun s => Recognizer.la s = None → ∃ p, drained (Recognizer.scan s) p)
    (fun _ _ => True) (fun _ : unit => True) (Recognizer.stmt_list n)).
  { apply H; try (intros; exact Logic.I).
    intros s0 _. pose proof (recognizer_advance_drains s0) as Ha.
    destruct (Recognizer.advance s0); [now split | exact I | exact I]. }
  specialize (Hr s Hs). rewrite Es in Hr. now apply Hr.
Qed.

(** X3.  [parse] returns, in either file, only when everything has been
    read: the lookahead is [None], the scanner has no token left and has
    handed out the end of the input, the whole text was scanned without an
    unrecognised character, and the position is the end of the text. *)
Theorem completed_run_has_read_everything (n : nat) (text : string) :
  match Runner.parse n text with
  | Ok _ s =>
      Runner.la s = None
      ∧ drained (Runner.scan s) (walk text 1 0)
      ∧ ending (plex_scanner text) = AtEof (walk text 1 0)
  | _ => True
  end
  ∧ match Recognizer.parse n text with
    | Ok _ s =>
        Recognizer.la s = None
        ∧ drained (Recognizer.scan s) (walk text 1 0)
        ∧ ending (plex_scanner text) = AtEof (walk text 1 0)
    | _ => True
    end.
Proof.
  split.
  - pose proof (runner_parse_ending n text) as He. revert He.
    unfold Runner.parse, bind.
    pose proof (runner_advance_drains (Runner.fresh text)) as Ha.
    destruct (Runner.advance (Runner.fresh text)) as [[] s0| |];
      try (intros _; exact I).
    pose proof (runner_stmt_list_drains n s0 Ha) as Hd.
    destruct (Runner.stmt_list n s0) as [[] s| |]; try (intros _; exact I).
    destruct Hd as (Hla & p & Hp & Hend & Hst). intros He.
    rewrite Hend in He.
    assert (p = walk text 1 0) as ->
      by (apply (scan_text_at_eof text 1 0 Idle); symmetry; exact He).
    repeat split; auto.
  - pose proof (recognizer_parse_ending n text) as He. revert He.
    unfold Recognizer.parse, bind.
    pose proof (recognizer_advance_drains (Recognizer.fresh text)) as Ha.
    destruct (Recognizer.advance (Recognizer.fresh text)) as [[] s0| |];
      try (intros _; exact I).
    pose proof (recognizer_stmt_list_drains n s0 Ha) as Hd.
    destruct (Recognizer.stmt_list n s0) as [[] s| |]; try (intros _; exact I).
    destruct Hd as (Hla & p & Hp & Hend & Hst). intros He.
    rewrite Hend in He.
    assert (p = walk text 1 0) as ->
      by (apply (scan_text_at_eof text 1 0 Idle); symmetry; exact He).
    repeat split; auto.
Qed.

(** ** What statements and expressions do to the dictionary *)

(** X4.  No run of the statement list removes a variable: whether it
    returns or raises, every name the dictionary held before is still in
    it. *)
Theorem variables_are_never_removed (n : nat) (s : Runner.pstate) :
  match Runner.stmt_list n s with
  | Ok _ s' | Raise _ s' => dom (Runner.vars s) ⊆ dom (Runner.vars s')
  | Exhausted => True
  end.
Proof.
  pose proof (runner_respects
    (fun s' => dom (Runner.vars s) ⊆ dom (Runner.vars s'))
    (fun _ s' => dom (Runner.vars s) ⊆ dom (Runner.vars s'))
    (fun _ => True)) as H'.
  assert (Hr : respects
    (fun s' => dom (Runner.vars s) ⊆ dom (Runner.vars s'))
    (fun _ s' => dom (Runner.vars s) ⊆ dom (Runner.vars s'))
    (fun _ : unit => True) (Runner.stmt_list n)).
  { apply H'; try (intros; exact Logic.I);
      try (intros; assumption).
    - intros s0 Hs. unfold Runner.advance.
      destruct (read (Runner.scan s0)) as [[[k t]|] sc];
        [split; [exact Logic.I | exact Hs] | exact Hs].
    - intros s0 x v Hs _. simpl. rewrite dom_insert. clear -Hs. set_solver. }
  assert (H0 : dom (Runner.vars s) ⊆ dom (Runner.vars s)) by reflexivity.
  specialize (Hr s H0).
  destruct (Runner.stmt_list n s) as [[] s'|e s'|];
    [apply Hr | exact Hr | exact I].
Qed.

(** X5.  The seven expression procedures have no effect on dictionary or
    output: whether they return or raise, both are as before the call. *)
Theorem expressions_leave_dictionary_and_output (n : nat) :
  keeps (Runner.expr n)
  ∧ keeps (Runner.term n)
  ∧ keeps (Runner.factor n)
  ∧ keeps (Runner.atom n)
  ∧ (∀ v, keeps (Runner.term_tail n v))
  ∧ (∀ v, keeps (Runner.factor_tail n v))
  ∧ (∀ v, keeps (Runner.atom_tail n v)).
Proof. exact (runner_keeps n). Qed.

(** X6.  A statement that returns has done this and no more.  An
    assignment has consumed the identifier that was the lookahead and the
    [=] after it, evaluated the expression that starts there, in the
    dictionary and with the output it found, and stored the value under
    that identifier; a print has consumed [print], evaluated the expression
    that starts there, and added its value in binary as one more line.
    The rest of dictionary and output is unchanged, and scanner and
    lookahead are where the expression left them. *)
Theorem statement_effect (n : nat) (s s' : Runner.pstate)
    (H : Runner.stmt n s = Ok tt s') :
  (Runner.la s = Some Kid
   ∧ ∃ s1 s2 v s3,
       Runner.match_ Kid s = Ok tt s1
       ∧ Runner.match_ Kassign s1 = Ok tt s2
       ∧ Runner.expr (pred n) s2 = Ok v s3
       ∧ Runner.vars s2 = Runner.vars s ∧ Runner.out s2 = Runner.out s
       ∧ s' = Runner.PState (Runner.scan s3) (Runner.la s3) (Runner.val s3)
                (<[Runner.val s := v]> (Runner.vars s)) (Runner.out s))
  ∨ (Runner.la s = Some Kprint
     ∧ ∃ s1 v s2,
         Runner.match_ Kprint s = Ok tt s1
         ∧ Runner.expr (pred n) s1 = Ok v s2
         ∧ Runner.vars s1 = Runner.vars s ∧ Runner.out s1 = Runner.out s
         ∧ s' = Runner.PState (Runner.scan s2) (Runner.la s2) (Runner.val s2)
                  (Runner.vars s) (Runner.out s ++ [format_b v])).
Proof.
  destruct n as [|n]; [discriminate|]. simpl in H. revert H.
  unfold Runner.stmt_body, bind at 1, Runner.get_la.
  destruct (Runner.la s) as [[]|] eqn:El; try discriminate.
  - unfold bind.
    pose proof (keeps_match Kprint s) as H1.
    destruct (Runner.match_ Kprint s) as [[] s1|e s1|] eqn:E1;
      try discriminate.
    pose proof (expr_keeps n s1) as H2.
    destruct (Runner.expr n s1) as [v s2|e s2|] eqn:Ee; try discriminate.
    intros [= <-]. right. split; [reflexivity|].
    exists s1, v, s2. destruct H1 as (Hv1 & Ho1), H2 as (Hv2 & Ho2).
    simpl. rewrite Hv2, Hv1, Ho2, Ho1. now repeat split.
  - unfold bind, Runner.get_val.
    pose proof (keeps_match Kid s) as H1.
    destruct (Runner.match_ Kid s) as [[] s1|e s1|] eqn:E1;
      try discriminate.
    pose proof (keeps_match Kassign s1) as H2.
    destruct (Runner.match_ Kassign s1) as [[] s2|e s2|] eqn:E2;
      try discriminate.
    pose proof (expr_keeps n s2) as H3.
    destruct (Runner.expr n s2) as [v s3|e s3|] eqn:Ee; try discriminate.
    intros [= <-]. left. split; [reflexivity|].
    exists s1, s2, v, s3.
    destruct H1 as (Hv1 & Ho1), H2 as (Hv2 & Ho2), H3 as (Hv3 & Ho3).
    simpl. rewrite Hv3, Hv2, Hv1, Ho3, Ho2, Ho1.
    repeat split; congruence.
Qed.

Lemma statement_effect_witness :
  let s := load [tk Kid "x"; tk Kassign "="; tk Kbin "101"] (1, 9)%nat ∅ [] in
  let s' := load [] (1, 9)%nat (<["x" := 5]> ∅) [] in
  (Runner.la s = Some Kid
   ∧ ∃ s1 s2 v s3,
       Runner.match_ Kid s = Ok tt s1
       ∧ Runner.match_ Kassign s1 = Ok tt s2
       ∧ Runner.expr (pred 6) s2 = Ok v s3
       ∧ Runner.vars s2 = Runner.vars s ∧ Runner.out s2 = Runner.out s
       ∧ s' = Runner.PState (Runner.scan s3) (Runner.la s3) (Runner.val s3)
                (<[Runner.val s := v]> (Runner.vars s)) (Runner.out s))
  ∨ (Runner.la s = Some Kprint
     ∧ ∃ s1 v s2,
         Runner.match_ Kprint s = Ok tt s1
         ∧ Runner.expr (pred 6) s1 = Ok v s2
         ∧ Runner.vars s1 = Runner.vars s ∧ Runner.out s1 = Runner.out s
         ∧ s' = Runner.PState (Runner.scan s2) (Runner.la s2) (Runner.val s2)
                  (Runner.vars s) (Runner.out s ++ [format_b v])).
Proof.
  intros s s'. apply (statement_effect 6 s s'). vm_compute. reflexivity.
Defined.


(** ** The lexicon *)

Lemma emit_tokens ts r : (emit ts r).1 = ts ++ r.1.
Proof. reflexivity. Qed.

Lemma scan_text_blank text :
  ∀ line col,
    forallb is_space (list_ascii_of_string text) = true →
    scan_text text line col Idle = ([], AtEof (walk text line col)).
Proof.
  induction text as [|c rest IH]; intros line col H; simpl; [reflexivity|].
  simpl in H. apply andb_prop in H as [Hc Hrest]. rewrite Hc.
  destruct (is_newline c); rewrite (IH _ _ Hrest); reflexivity.
Qed.

(** X7.  On a text of spaces, tabs and newlines only (the empty text
    among them) both programs print nothing: there is no token, and the
    statement list returns at once. *)
Theorem blank_text_prints_nothing (text : string)
    (H : forallb is_space (list_ascii_of_string text) = true) :
  Runner.main text = Some [] ∧ Recognizer.main text = Some [].
Proof.
  unfold Runner.main, Runner.parse, Runner.fresh,
    Recognizer.main, Recognizer.parse, Recognizer.fresh, plex_scanner.
  rewrite (scan_text_blank text 1 0 H). split; reflexivity.
Qed.

Lemma blank_text_prints_nothing_witness :
  Runner.main (String " " (String "010" (String "009" " ")))
  = Some []
  ∧ Recognizer.main (String " " (String "010" (String "009" " ")))
    = Some [].
Proof.
  apply (blank_text_prints_nothing
           (String " " (String "010" (String "009" " ")))).
  reflexivity.
Defined.

Lemma flush_ok m : partial_ok m = true → forallb lexeme_ok (flush m) = true.
Proof.
  destruct m as [|p acc|p acc]; simpl; intros H; [reflexivity | |].
  - unfold lexeme_ok. simpl. now rewrite H.
  - unfold lexeme_ok, word_kind. simpl.
    destruct (String.eqb acc "and") eqn:E1; simpl; [now rewrite ?E1|].
    destruct (String.eqb acc "or") eqn:E2; simpl; [now rewrite ?E2|].
    destruct (String.eqb acc "xor") eqn:E3; simpl; [now rewrite ?E3|].
    destruct (String.eqb acc "print") eqn:E4; simpl; [now rewrite ?E4|].
    now rewrite ?H, ?E1, ?E2, ?E3, ?E4.
Qed.

Lemma extend_ok m c :
  partial_ok m = true → continues m c = true → partial_ok (extend m c) = true.
Proof.
  destruct m as [|p acc|p acc]; simpl; intros H Hc; [reflexivity | |].
  - destruct acc as [|a acc]; [discriminate|]. unfold binary_literal in *.
    rewrite append_cons. rewrite <- append_cons.
    rewrite list_ascii_of_string_app, forallb_app, H. simpl. now rewrite Hc.
  - destruct acc as [|a acc]; [discriminate|]. unfold is_word in *.
    rewrite append_cons. apply andb_prop in H as [Ha Hacc].
    rewrite Ha, list_ascii_of_string_app, forallb_app, Hacc. simpl.
    now rewrite Hc.
Qed.

Lemma scan_text_ok text :
  ∀ line col m,
    partial_ok m = true →
    forallb lexeme_ok (scan_text text line col m).1 = true.
Proof.
  induction text as [|c rest IH]; intros line col m Hm; simpl.
  - now apply flush_ok.
  - destruct (continues m c) eqn:Ec; [apply IH; now apply extend_ok|].
    pose proof (flush_ok m Hm) as Hf.
    destruct (is_space c).
    { rewrite emit_tokens, forallb_app, Hf.
      destruct (is_newline c); now apply IH. }
    destruct (Ascii.eqb c "=").
    { rewrite emit_tokens, !forallb_app, Hf. simpl. now apply IH. }
    destruct (Ascii.eqb c "(").
    { rewrite emit_tokens, !forallb_app, Hf. simpl. now apply IH. }
    destruct (Ascii.eqb c ")").
    { rewrite emit_tokens, !forallb_app, Hf. simpl. now apply IH. }
    destruct (is_bin c) eqn:Eb.
    { rewrite emit_tokens, forallb_app, Hf. apply IH. simpl.
      now rewrite Eb. }
    destruct (is_letter c) eqn:El.
    { rewrite emit_tokens, forallb_app, Hf. apply IH. simpl.
      now rewrite El. }
    exact Hf.
Qed.

(** X8.  Every token the scanner hands out has a lexeme its pattern
    matches: a keyword or punctuation token has the text of its pattern, a
    [bin] token is one or more of the digits 0 and 1 (so [int(self.val, 2)]
    never fails), and an [id] token is a letter followed by letters and
    digits that is none of [and], [or], [xor], [print]. *)
Theorem scanner_tokens_are_well_formed (text : string) :
  forallb lexeme_ok (pending (plex_scanner text)) = true.
Proof. apply (scan_text_ok text 1 0 Idle). reflexivity. Qed.

Lemma space_class c :
  is_space c = true →
  is_bin c = false ∧ is_letter c = false ∧ is_digit c = false.
Proof.
  destruct c as [[] [] [] [] [] [] [] []]; vm_compute; intros H;
    first [discriminate | repeat split].
Qed.

Lemma continues_not_space m c : continues m c = true → is_space c = false.
Proof.
  intros H. destruct (is_space c) eqn:E; [|reflexivity].
  destruct (space_class c E) as (Hb & Hl & Hd).
  destruct m; simpl in H; [discriminate | congruence |].
  rewrite Hl, Hd in H. discriminate.
Qed.

Lemma lexemes_app a b : lexemes (a ++ b) = lexemes a +:+ lexemes b.
Proof.
  induction a as [|t a IH]; simpl; [reflexivity|].
  now rewrite IH, append_assoc.
Qed.

Lemma lexemes_flush m : lexemes (flush m) = taken m.
Proof. destruct m; simpl; [reflexivity | |]; apply append_nil_r. Qed.

Lemma scan_text_lexemes text :
  ∀ line col m p,
    (scan_text text line col m).2 = AtEof p →
    lexemes (scan_text text line col m).1 = taken m +:+ despace text.
Proof.
  induction text as [|c rest IH]; intros line col m p; simpl.
  - intros _. now rewrite lexemes_flush, append_nil_r.
  - destruct (continues m c) eqn:Ec.
    { intros H. rewrite (IH _ _ _ _ H), (continues_not_space m c Ec).
      destruct m; simpl in *; [discriminate | |]; now rewrite append_assoc. }
    destruct (is_space c) eqn:Es.
    { rewrite emit_ending, emit_tokens, lexemes_app, lexemes_flush.
      destruct (is_newline c); intros H; now rewrite (IH _ _ _ _ H). }
    destruct (Ascii.eqb c "=") eqn:E1.
    { apply Ascii.eqb_eq in E1 as ->.
      rewrite emit_ending, emit_tokens, !lexemes_app, lexemes_flush.
      intros H. rewrite (IH _ _ _ _ H). simpl. now rewrite append_assoc. }
    destruct (Ascii.eqb c "(") eqn:E2.
    { apply Ascii.eqb_eq in E2 as ->.
      rewrite emit_ending, emit_tokens, !lexemes_app, lexemes_flush.
      intros H. rewrite (IH _ _ _ _ H). simpl. now rewrite append_assoc. }
    destruct (Ascii.eqb c ")") eqn:E3.
    { apply Ascii.eqb_eq in E3 as ->.
      rewrite emit_ending, emit_tokens, !lexemes_app, lexemes_flush.
      intros H. rewrite (IH _ _ _ _ H). simpl. now rewrite append_assoc. }
    destruct (is_bin c).
    { rewrite emit_ending, emit_tokens, lexemes_app, lexemes_flush.
      intros H. now rewrite (IH _ _ _ _ H). }
    destruct (is_letter c).
    { rewrite emit_ending, emit_tokens, lexemes_app, lexemes_flush.
      intros H. now rewrite (IH _ _ _ _ H). }
    simpl. intros [=].
Qed.

(** X9.  Scanning drops blanks and nothing else: when the text is scanned
    to its end, the lexemes of the tokens, one after the other, are the text
    without its spaces, tabs and newlines. *)
Theorem lexemes_are_the_text_without_blanks (text : string) (p : position)
    (H : ending (plex_scanner text) = AtEof p) :
  lexemes (pending (plex_scanner text)) = despace text.
Proof. exact (scan_text_lexemes text 1 0 Idle p H). Qed.

Lemma lexemes_are_the_text_without_blanks_witness :
  lexemes (pending (plex_scanner "x1 = (10 or y)  print x1"))
  = despace "x1 = (10 or y)  print x1".
Proof.
  apply (lexemes_are_the_text_without_blanks "x1 = (10 or y)  print x1"
           (1, 24)%nat).
  reflexivity.
Defined.

(** ** How much stack a run takes *)

(** X10.  Four levels of stack for each token left, and six more, are
    enough for the statement list of either file to finish; and from there
    on more stack changes nothing of what the interpreter does. *)
Theorem stack_depth_is_linear_in_tokens (n : nat) (s : Runner.pstate)
    (H : (4 * pleft s + 6 <= n)%nat) :
  Runner.stmt_list n s ≠ Exhausted
  ∧ Recognizer.stmt_list n (erase s) ≠ Exhausted
  ∧ ∀ m, (n <= m)%nat → Runner.stmt_list m s = Runner.stmt_list n s.
Proof.
  pose proof (stmt_list_total n s H) as Ht.
  split; [exact Ht | split].
  - destruct (recognizer_live n (S (pleft s))) as (L & _).
    apply L; [lia | rewrite pleft_erase; lia].
  - intros m Hm. now apply stmt_list_stable.
Qed.

Lemma stack_depth_is_linear_in_tokens_witness :
  Runner.stmt_list 14 (load [op_tk Kprint; tk Kbin "1"] (1, 7)%nat ∅ [])
  ≠ Exhausted
  ∧ Recognizer.stmt_list 14
      (erase (load [op_tk Kprint; tk Kbin "1"] (1, 7)%nat ∅ []))
    ≠ Exhausted
  ∧ ∀ m, (14 <= m)%nat →
         Runner.stmt_list m (load [op_tk Kprint; tk Kbin "1"] (1, 7)%nat ∅ [])
         = Runner.stmt_list 14
             (load [op_tk Kprint; tk Kbin "1"] (1, 7)%nat ∅ []).
Proof.
  apply (stack_depth_is_linear_in_tokens 14
           (load [op_tk Kprint; tk Kbin "1"] (1, 7)%nat ∅ [])).
  vm_compute. lia.
Defined.

Lemma stmt_print_one_short n rest fin vs o :
  (n < 5)%nat →
  Runner.stmt n (load (op_tk Kprint :: tk Kbin "1" :: rest) fin vs o)
  = Exhausted.
Proof.
  intros Hn. destruct n as [|[|[|[|[|n]]]]]; try lia; reflexivity.
Qed.

Lemma stmt_print_one n k fin vs o :
  (5 <= n)%nat →
  Runner.stmt n (load (op_tk Kprint :: tk Kbin "1" :: print_ones k) fin vs o)
  = Ok tt (load (print_ones k) fin vs (o ++ ["1"])).
Proof.
  intros Hn. destruct n as [|[|n]]; try lia.
  assert (HE : Runner.expr (S n) (load (tk Kbin "1" :: print_ones k) fin vs o)
               = Ok 1 (load (print_ones k) fin vs o)).
  { change (Runner.expr (S n)) with
      (Runner.expr_body (Runner.term n) (Runner.term_tail n)).
    unfold Runner.expr_body, bind, Runner.get_la. simpl.
    rewrite term_literal; [| lia | now destruct k].
    destruct n as [|n]; [lia|]. now destruct k. }
  change (load (op_tk Kprint :: tk Kbin "1" :: print_ones k) fin vs o)
    with (Runner.PState (Scanner (tk Kbin "1" :: print_ones k) (AtEof fin)
                           (1, 0)%nat) (Some Kprint) "print" vs o).
  rewrite (stmt_print (S n) (1, 0)%nat "print" _ _ _ _ _ _ HE).
  now destruct k.
Qed.

Lemma stmt_list_exhausts n s :
  Runner.la s = Some Kprint → Runner.stmt n s = Exhausted →
  Runner.stmt_list (S n) s = Exhausted.
Proof.
  intros Hla Hs.
  change (Runner.stmt_list (S n)) with
    (Runner.stmt_list_body (Runner.stmt_list n) (Runner.stmt n)).
  unfold Runner.stmt_list_body, bind, Runner.get_la. now rewrite Hla, Hs.
Qed.

(** X11.  Each statement takes a level of stack of its own, [stmt_list]
    calling itself for the rest of the program: on the program of [k + 1]
    statements [print 1] the nine procedures nest [k + 6] deep, so a stack
    of fewer levels than that is spent before the run is over.  (The calls
    of [match] and of the scanner take levels besides, which are not
    counted here.) *)
Theorem every_statement_takes_a_stack_level (k n : nat) (fin : position)
    (vs : gmap string Z) (o : list string) (H : (n < k + 6)%nat) :
  Runner.stmt_list n (load (print_ones (S k)) fin vs o) = Exhausted.
Proof.
  revert n o H. induction k as [|k IH]; intros n o H.
  - destruct n as [|n]; [reflexivity|].
    apply stmt_list_exhausts; [reflexivity|].
    apply (stmt_print_one_short n [] fin vs o). lia.
  - destruct n as [|n]; [reflexivity|].
    destruct (Nat.lt_ge_cases n 5) as [Hn|Hn].
    + apply stmt_list_exhausts; [reflexivity|].
      apply (stmt_print_one_short n (print_ones (S k)) fin vs o Hn).
    + apply (stmt_list_next n _ (load (print_ones (S k)) fin vs (o ++ ["1"])));
        [now right | apply (stmt_print_one n (S k) fin vs o Hn) |].
      apply IH. lia.
Qed.

Lemma every_statement_takes_a_stack_level_witness :
  Runner.stmt_list 105 (load (print_ones (S 100)) (1, 0)%nat ∅ []) = Exhausted.
Proof.
  apply (every_statement_takes_a_stack_level 100 105 (1, 0)%nat ∅ []). lia.
Defined.


(** ** Parentheses, and what follows an expression *)

Lemma atom_parenthesised n E fin vs o v t1 p1 t2 p2 e :
  Runner.expr n (load (E ++ [Token Krparen t2 p2]) fin vs o)
  = Ok v (Runner.PState (Scanner [] (AtEof e) p2) (Some Krparen) t2 vs o) →
  Runner.atom (S n)
    (Runner.PState (Scanner (E ++ [Token Krparen t2 p2]) (AtEof fin) p1)
       (Some Klparen) t1 vs o)
  = Ok v (load [] e vs o).
Proof.
  intros HE.
  change (Runner.atom (S n)) with (Runner.atom_body (Runner.expr n)).
  unfold Runner.atom_body, bind, Runner.get_la. simpl.
  rewrite match_loaded, HE. now rewrite match_loaded.
Qed.

Lemma expr_of_atom n s v fin vs o :
  Runner.la s = Some Klparen →
  Runner.atom (S n) s = Ok v (load [] fin vs o) →
  Runner.expr (S (S (S (S n)))) s = Ok v (load [] fin vs o).
Proof.
  intros Hla Ha.
  assert (Hf : Runner.factor (S (S n)) s = Ok v (load [] fin vs o)).
  { change (Runner.factor (S (S n))) with
      (Runner.factor_body (Runner.atom (S n)) (Runner.atom_tail (S n))).
    unfold Runner.factor_body, bind, Runner.get_la. rewrite Hla, Ha.
    apply atom_tail_stop; [lia | reflexivity]. }
  assert (Ht : Runner.term (S (S (S n))) s = Ok v (load [] fin vs o)).
  { change (Runner.term (S (S (S n)))) with
      (Runner.term_body (Runner.factor (S (S n)))
         (Runner.factor_tail (S (S n)))).
    unfold Runner.term_body, bind, Runner.get_la. rewrite Hla, Hf.
    apply factor_tail_stop; [lia | reflexivity]. }
  change (Runner.expr (S (S (S (S n))))) with
    (Runner.expr_body (Runner.term (S (S (S n))))
       (Runner.term_tail (S (S (S n))))).
  unfold Runner.expr_body, bind, Runner.get_la. rewrite Hla, Ht.
  apply term_tail_stop. lia.
Qed.

(** X12.  Parentheses keep the value: when [expr] takes the tokens [E] to
    the last and returns [v], it returns [v] for [( E )] as well, taking
    both parentheses, with four more levels of stack. *)
Theorem parentheses_keep_the_value (n : nat) (E : list token)
    (fin : position) (vs : gmap string Z) (o : list string) (v : Z)
    (s' : Runner.pstate) (lp rp : token)
    (HE : Runner.expr n (load E fin vs o) = Ok v s')
    (Hend : Runner.la s' = None)
    (Hlp : tkind lp = Klparen) (Hrp : tkind rp = Krparen) :
  ∃ e, Runner.expr (S (S (S (S n)))) (load (lp :: E ++ [rp]) fin vs o)
       = Ok v (load [] e vs o).
Proof.
  destruct (expr_before_statement n E fin vs o v s' rp []
              (or_intror (or_intror Hrp)) HE Hend) as (e & HE').
  exists e. destruct lp as [k1 t1 p1], rp as [k2 t2 p2]. simpl in *. subst.
  apply expr_of_atom; [reflexivity|].
  now apply atom_parenthesised.
Qed.

Lemma parentheses_keep_the_value_witness :
  ∃ e, Runner.expr (S (S (S (S 8))))
         (load (tk Klparen "(" :: [tk Kbin "10"; tk Kor "or"; tk Kbin "01"]
                  ++ [tk Krparen ")"]) (1, 9)%nat ∅ [])
       = Ok 3 (load [] e ∅ []).
Proof.
  apply (parentheses_keep_the_value 8
           [tk Kbin "10"; tk Kor "or"; tk Kbin "01"] (1, 9)%nat ∅ [] 3
           (load [] (1, 9)%nat ∅ []) (tk Klparen "(") (tk Krparen ")"));
    reflexivity.
Defined.

(** X13.  What follows an expression does not change it: when [expr]
    takes the tokens [E] to the last and returns [v], then with an
    identifier, a [print] or a closing parenthesis and anything else after
    [E] it returns [v] again and stops at that token, with dictionary and
    output as they were. *)
Theorem expression_value_ignores_what_follows (n : nat) (E : list token)
    (fin : position) (vs : gmap string Z) (o : list string) (v : Z)
    (s' : Runner.pstate) (t : token) (rest : list token)
    (Ht : tkind t = Kid ∨ tkind t = Kprint ∨ tkind t = Krparen)
    (HE : Runner.expr n (load E fin vs o) = Ok v s')
    (Hend : Runner.la s' = None) :
  ∃ e, Runner.expr n (load (E ++ t :: rest) fin vs o)
       = Ok v (Runner.PState (Scanner rest (AtEof e) (tpos t))
                 (Some (tkind t)) (ttext t) vs o).
Proof. exact (expr_before_statement n E fin vs o v s' t rest Ht HE Hend). Qed.

Lemma expression_value_ignores_what_follows_witness :
  ∃ e, Runner.expr 8
         (load ([tk Kbin "10"; tk Kor "or"; tk Kbin "01"]
                  ++ tk Kprint "print" :: [tk Kbin "1"]) (1, 9)%nat ∅ [])
       = Ok 3 (Runner.PState
                 (Scanner [tk Kbin "1"] (AtEof e) (tpos (tk Kprint "print")))
                 (Some (tkind (tk Kprint "print")))
                 (ttext (tk Kprint "print")) ∅ []).
Proof.
  apply (expression_value_ignores_what_follows 8
           [tk Kbin "10"; tk Kor "or"; tk Kbin "01"] (1, 9)%nat ∅ [] 3
           (load [] (1, 9)%nat ∅ []) (tk Kprint "print") [tk Kbin "1"]);
    [right; left; reflexivity | reflexivity | reflexivity].
Defined.

(** ** Canonical numerals *)

Lemma int_base2_zeros k L : int_base2 (zeros k +:+ L) = int_base2 L.
Proof.
  induction k as [|k IH]; [reflexivity|].
  simpl zeros. rewrite append_cons. rewrite <- IH. reflexivity.
Qed.

(** X14.  A binary numeral without leading zeros is printed as it was
    read, and zeros in front of it change nothing: with any number of zeros
    before it, it is a lexeme of the [binary] pattern, and the value
    [int(..., 2)] gives it is formatted back to the numeral itself. *)
Theorem canonical_literal_prints_itself (L : string) (k : nat)
    (H : minimal_binary L = true) :
  binary_literal (zeros k +:+ L) = true
  ∧ format_b (int_base2 (zeros k +:+ L)) = L.
Proof.
  unfold minimal_binary in H. split.
  - assert (HL : binary_literal L = true).
    { apply orb_prop in H as [H|H].
      - apply String.eqb_eq in H as ->. reflexivity.
      - apply andb_prop in H as [H1 H2].
        destruct L; [discriminate | exact H2]. }
    induction k as [|k IH]; [exact HL|].
    simpl zeros. rewrite append_cons. unfold binary_literal in *.
    destruct (zeros k +:+ L) eqn:E; [discriminate|].
    simpl. simpl in IH. exact IH.
  - rewrite int_base2_zeros.
    apply orb_prop in H as [H|H].
    + apply String.eqb_eq in H as ->. reflexivity.
    + apply andb_prop in H as [H1 H2].
      destruct L as [|c L]; [vm_compute in H1; discriminate|].
      assert (c = "1"%char) as ->.
      { change (String.prefix "1" (String c L))
          with (if ascii_dec "1" c then String.prefix EmptyString L else false)
          in H1.
        destruct (ascii_dec "1" c) as [<-|]; [reflexivity | discriminate]. }
      simpl in H2.
      destruct (bin_digits_snoc (list_ascii_of_string L) xH H2)
        as (q & Hq & Hd).
      change (int_base2 (String "1" L))
        with (fold_left
                (fun acc c => 2 * acc + (if Ascii.eqb c "1" then 1 else 0))
                (list_ascii_of_string L) 1).
      rewrite Hq. simpl. rewrite Hd.
      now rewrite string_of_list_ascii_of_string.
Qed.

Lemma canonical_literal_prints_itself_witness :
  binary_literal (zeros 3 +:+ "1011") = true
  ∧ format_b (int_base2 (zeros 3 +:+ "1011")) = "1011".
Proof. apply (canonical_literal_prints_itself "1011" 3). reflexivity. Defined.

(** ** Error branches that no run reaches *)

Lemma guarded_bind {A B} P Q R (m : M Recognizer.rstate A)
    (k : A -> M Recognizer.rstate B) :
  guarded P Q m → (∀ a, guarded Q R (k a)) → guarded P R (bind m k).
Proof.
  intros Hm Hk s Hs. unfold bind. specialize (Hm s Hs).
  destruct (m s) as [a s1|e s1|]; [| assumption | exact I].
  now apply Hk.
Qed.

Lemma guarded_weaken {A} P P' Q Q' (m : M Recognizer.rstate A) :
  (∀ l, P l = true → P' l = true) → (∀ l, Q' l = true → Q l = true) →
  guarded P' Q' m → guarded P Q m.
Proof.
  intros HP HQ Hm s Hs. specialize (Hm s (HP _ Hs)).
  destruct (m s); auto.
Qed.

Lemma guarded_pre {A} P P' Q (m : M Recognizer.rstate A) :
  (∀ l, P l = true → P' l = true) → guarded P' Q m → guarded P Q m.
Proof. intros HP. now apply guarded_weaken. Qed.

Lemma guarded_get_la {A} P Q (f : option kind -> M Recognizer.rstate A) :
  (∀ k, P k = true → guarded (la_is k) Q (f k)) →
  guarded P Q (bind Recognizer.get_la f).
Proof.
  intros H s Hs. unfold bind, Recognizer.get_la.
  apply (H _ Hs s). unfold la_is. now apply bool_decide_eq_true.
Qed.

Lemma guarded_ret {A} P Q (a : A) :
  (∀ l, P l = true → Q l = true) → guarded P Q (ret a).
Proof. intros H s Hs. now apply H. Qed.

Lemma guarded_raise {A} P Q e :
  own_error_of_stmt_or_tail e = false → guarded (A := A) P Q (raise e).
Proof. intros H s _. exact H. Qed.

Lemma guarded_exhausted {A} P Q : guarded (A := A) P Q exhausted.
Proof. intros s _. exact I. Qed.

Lemma guarded_match P tok : guarded P any_la (Recognizer.match_ tok).
Proof.
  intros s _. unfold Recognizer.match_, Recognizer.advance.
  destruct (decide _).
  - destruct (read _) as [[[k t]|] sc]; reflexivity.
  - destruct (Recognizer.la s) as [[]|], tok; reflexivity.
Qed.

Ltac la_side :=
  let l := fresh "l" in
  let Hl := fresh "Hl" in
  intros l Hl;
  first [ exact Hl
        | reflexivity
        | unfold la_is in Hl; apply bool_decide_eq_true in Hl; subst l;
          reflexivity ].

Ltac guarded_call :=
  match goal with
  | H : guarded _ _ ?m |- guarded _ _ ?m =>
      first [ exact H
            | eapply guarded_pre; cycle 1; [exact H | la_side]
            | eapply guarded_weaken; cycle 2; [exact H | la_side | la_side] ]
  end.

Ltac guarded_go :=
  repeat first
    [ apply guarded_raise; reflexivity
    | apply guarded_ret; la_side
    | guarded_call
    | eapply guarded_bind; [ first [apply guarded_match | guarded_call] | intros ? ]
    | eapply guarded_weaken; cycle 2;
      [apply guarded_match | la_side | la_side] ].

Ltac guarded_body :=
  apply guarded_get_la;
  let k := fresh "k" in
  let Hk := fresh "Hk" in
  intros k Hk; destruct k as [[]|]; try discriminate Hk; guarded_go.

Section RecognizerGuarded.
Import Recognizer.
Variables stmt_list' stmt' expr' term' factor' atom' : M rstate unit.
Variables term_tail' factor_tail' atom_tail' : M rstate unit.
Hypothesis Hstmt_list : guarded any_la any_la stmt_list'.
Hypothesis Hstmt : guarded starts_stmt any_la stmt'.
Hypothesis Hexpr : guarded any_la follows_expr expr'.
Hypothesis Hterm : guarded any_la follows_term term'.
Hypothesis Hfactor : guarded any_la follows_factor factor'.
Hypothesis Hatom : guarded any_la any_la atom'.
Hypothesis Hterm_tail : guarded follows_term follows_expr term_tail'.
Hypothesis Hfactor_tail : guarded follows_factor follows_term factor_tail'.
Hypothesis Hatom_tail : guarded any_la follows_factor atom_tail'.

Lemma stmt_list_body_guarded :
  guarded any_la any_la (stmt_list_body stmt_list' stmt').
Proof. unfold stmt_list_body. guarded_body. Qed.

Lemma stmt_body_guarded : guarded starts_stmt any_la (stmt_body expr').
Proof. unfold stmt_body. guarded_body. Qed.

Lemma expr_body_guarded :
  guarded any_la follows_expr (expr_body term' term_tail').
Proof. unfold expr_body. guarded_body. Qed.

Lemma term_tail_body_guarded :
  guarded follows_term follows_expr (term_tail_body term' term_tail').
Proof. unfold term_tail_body. guarded_body. Qed.

Lemma term_body_guarded :
  guarded any_la follows_term (term_body factor' factor_tail').
Proof. unfold term_body. guarded_body. Qed.

Lemma factor_tail_body_guarded :
  guarded follows_factor follows_term (factor_tail_body factor' factor_tail').
Proof. unfold factor_tail_body. guarded_body. Qed.

Lemma factor_body_guarded :
  guarded any_la follows_factor (factor_body atom' atom_tail').
Proof. unfold factor_body. guarded_body. Qed.

Lemma atom_tail_body_guarded :
  guarded any_la follows_factor (atom_tail_body atom' atom_tail').
Proof. unfold atom_tail_body. guarded_body. Qed.

Lemma atom_body_guarded : guarded any_la any_la (atom_body expr').
Proof. unfold atom_body. guarded_body. Qed.
End RecognizerGuarded.

Lemma recognizer_guarded n :
  guarded any_la any_la (Recognizer.stmt_list n)
  ∧ guarded starts_stmt any_la (Recognizer.stmt n)
  ∧ guarded any_la follows_expr (Recognizer.expr n)
  ∧ guarded any_la follows_term (Recognizer.term n)
  ∧ guarded any_la follows_factor (Recognizer.factor n)
  ∧ guarded any_la any_la (Recognizer.atom n)
  ∧ guarded follows_term follows_expr (Recognizer.term_tail n)
  ∧ guarded follows_factor follows_term (Recognizer.factor_tail n)
  ∧ guarded any_la follows_factor (Recognizer.atom_tail n).
Proof.
  induction n as [|n (H1 & H2 & H3 & H4 & H5 & H6 & H7 & H8 & H9)].
  - repeat apply conj; apply guarded_exhausted.
  - simpl. repeat apply conj.
    + now apply stmt_list_body_guarded.
    + now apply stmt_body_guarded.
    + now apply expr_body_guarded.
    + now apply term_body_guarded.
    + now apply factor_body_guarded.
    + now apply atom_body_guarded.
    + now apply term_tail_body_guarded.
    + now apply factor_tail_body_guarded.
    + now apply atom_tail_body_guarded.
Qed.

(** X15.  Three error branches are never reached from [parse], in either
    file: no run raises the ParseError of the [else] branch of [stmt], of
    [term_tail] or of [factor_tail].  [stmt] is called on [id] and [print]
    only, and the two tail procedures only after a procedure that returns
    on a lookahead they handle. *)
Theorem three_error_branches_are_dead (n : nat) (text : string) :
  match Recognizer.parse n text with
  | Raise e _ => own_error_of_stmt_or_tail e = false
  | _ => True
  end
  ∧ match Runner.parse n text with
    | Raise e _ => own_error_of_stmt_or_tail e = false
    | _ => True
    end.
Proof.
  assert (Hr : match Recognizer.parse n text with
               | Raise e _ => own_error_of_stmt_or_tail e = false
               | _ => True
               end).
  { unfold Recognizer.parse.
    pose proof (guarded_bind any_la any_la any_la Recognizer.advance
                  (fun _ => Recognizer.stmt_list n)) as H.
    assert (Ha : guarded any_la any_la Recognizer.advance).
    { intros s _. unfold Recognizer.advance.
      destruct (read _) as [[[k t]|] sc]; reflexivity. }
    specialize (H Ha (fun _ => proj1 (recognizer_guarded n))
                  (Recognizer.fresh text) eq_refl).
    destruct (bind _ _ _); auto. }
  split; [exact Hr|].
  pose proof (parse_agrees n text) as Hag.
  destruct (Runner.parse n text) as [a s|e s|]; try exact I.
  destruct Hag as [-> | Hag]; [reflexivity|].
  now rewrite Hag in Hr.
Qed.

(** ** Programs one after the other *)

Lemma runner_stmt_list_ending n s :
  match Runner.stmt_list n s with
  | Ok _ s' | Raise _ s' => ending (Runner.scan s') = ending (Runner.scan s)
  | Exhausted => True
  end.
Proof.
  pose proof (runner_respects
    (fun s' => ending (Runner.scan s') = ending (Runner.scan s))
    (fun e s' => ending (Runner.scan s') = ending (Runner.scan s)
                 ∧ (e = PlexError
                    → ending (Runner.scan s)
                      = Unrecognized (start (Runner.scan s'))))
    (fun _ => True)) as H.
  assert (Hr : respects
    (fun s' => ending (Runner.scan s') = ending (Runner.scan s))
    (fun e s' => ending (Runner.scan s') = ending (Runner.scan s)
                 ∧ (e = PlexError
                    → ending (Runner.scan s)
                      = Unrecognized (start (Runner.scan s'))))
    (fun _ : unit => True) (Runner.stmt_list n)).
  { apply H; try (intros; exact Logic.I); try (intros; assumption).
    - apply runner_advance_ending.
    - intros msg s0 Hs. split; [assumption | discriminate]. }
  specialize (Hr s eq_refl).
  destruct (Runner.stmt_list n s) as [[] s'|e s'|];
    [apply Hr | apply Hr | exact I].
Qed.

Lemma framed_set_var t rest P x v :
  framed_at t rest P (Runner.set_var x v).
Proof.
  intros s [] s' Hs _ [= <-]. split; [exact Hs|].
  unfold Runner.set_var, graft. simpl. now destruct (Runner.la s).
Qed.

Lemma framed_print t rest P line :
  framed_at t rest P (Runner.print line).
Proof.
  intros s [] s' Hs _ [= <-]. split; [exact Hs|].
  unfold Runner.print, graft. simpl. now destruct (Runner.la s).
Qed.

Lemma stmt_framed t rest n :
  tkind t = Kid ∨ tkind t = Kprint ∨ tkind t = Krparen →
  framed t rest (Runner.stmt n).
Proof.
  intros Ht. destruct n as [|n]; [apply framed_exhausted|].
  destruct (runner_framed t rest n Ht) as (He & _).
  simpl. unfold Runner.stmt_body.
  eapply framed_first; [reflexivity|]. intros k.
  destruct k; try apply framed_raise.
  - apply framed_bind; [apply framed_match | intros _].
    apply framed_bind; [exact He | intros v; apply framed_print].
  - apply framed_get_val. intros x.
    apply framed_bind; [apply framed_match | intros _].
    apply framed_bind; [apply framed_match | intros _].
    apply framed_bind; [exact He | intros v; apply framed_set_var].
Qed.

Lemma graft_la t rest s k :
  Runner.la s = Some k → Runner.la (graft t rest s) = Some k.
Proof. intros H. unfold graft. now rewrite H. Qed.

(** A statement list that runs to its return does the same when more
    tokens follow, and then goes on with those. *)
Lemma stmt_list_grafted t rest n :
  tkind t = Kid ∨ tkind t = Kprint ∨ tkind t = Krparen →
  ∀ s s' r,
    tidy s → Runner.stmt_list n s = Ok tt s' → r ≠ Exhausted →
    (∃ m, Runner.stmt_list m (graft t rest s') = r) →
    ∃ m, Runner.stmt_list m (graft t rest s) = r.
Proof.
  intros Ht. induction n as [|n IH]; intros s s' r Hs; [discriminate|].
  change (Runner.stmt_list (S n)) with
    (Runner.stmt_list_body (Runner.stmt_list n) (Runner.stmt n)).
  unfold Runner.stmt_list_body, bind at 1, Runner.get_la.
  assert (Hrun : (Runner.stmt n;;; Runner.stmt_list n) s = Ok tt s' →
                 Runner.la s = Some Kid ∨ Runner.la s = Some Kprint →
                 r ≠ Exhausted →
                 (∃ m, Runner.stmt_list m (graft t rest s') = r) →
                 ∃ m, Runner.stmt_list m (graft t rest s) = r).
  { unfold bind. destruct (Runner.stmt n s) as [[] s1| |] eqn:E1;
      try discriminate.
    intros E2 Hla Hr Hm.
    destruct (stmt_framed t rest n Ht s tt s1 Hs I E1) as (Hs1 & E1').
    destruct (IH s1 s' r Hs1 E2 Hr Hm) as (m & Em).
    exists (S (Nat.max n m)).
    apply (stmt_list_next _ _ (graft t rest s1)).
    - destruct Hla as [Hla|Hla]; [left | right]; now apply graft_la.
    - rewrite <- E1'. apply stmt_stable; [lia | now rewrite E1'].
    - rewrite <- Em. apply stmt_list_stable; [lia | now rewrite Em]. }
  destruct (Runner.la s) as [[]|] eqn:El; try discriminate; auto.
  intros [= <-] _ Hm. exact Hm.
Qed.

(** X16.  Programs run one after the other: when the statement list runs
    the tokens [ts1] to completion, then on [ts1] followed by tokens that
    start with an identifier or [print] it does exactly what it does on
    those tokens alone, started with the dictionary and the output that
    [ts1] left. *)
Theorem programs_compose (ts1 : list token) (t : token) (rest : list token)
    (fin : position) (vs : gmap string Z) (o : list string)
    (s1 : Runner.pstate)
    (H1 : run_from (load ts1 fin vs o) = Ok tt s1)
    (Ht : tkind t = Kid ∨ tkind t = Kprint) :
  run_from (load (ts1 ++ t :: rest) fin vs o)
  = run_from (load (t :: rest) fin (Runner.vars s1) (Runner.out s1)).
Proof.
  assert (Ht' : tkind t = Kid ∨ tkind t = Kprint ∨ tkind t = Krparen)
    by (destruct Ht; auto).
  pose proof (stmt_list_returns_at_end _ _ _ H1) as Hla.
  pose proof (runner_stmt_list_ending
                (budget (Runner.scan (load ts1 fin vs o)))
                (load ts1 fin vs o)) as He.
  unfold run_from in H1. rewrite H1 in He.
  assert (Hg : graft t rest s1
               = load (t :: rest) fin (Runner.vars s1) (Runner.out s1)).
  { unfold graft. rewrite Hla, He. now destruct ts1. }
  set (r := run_from (load (t :: rest) fin (Runner.vars s1) (Runner.out s1))).
  assert (Hr : r ≠ Exhausted) by apply run_from_total.
  destruct (stmt_list_grafted t rest _ Ht' _ _ r (tidy_load ts1 fin vs o)
              H1 Hr) as (m & Hm).
  - rewrite Hg. now eexists.
  - rewrite graft_load in Hm. now apply (run_from_eq m).
Qed.

Lemma programs_compose_witness :
  run_from (load ([tk Kid "x"; tk Kassign "="; tk Kbin "101"]
                    ++ tk Kprint "print" :: [tk Kid "x"]) (1, 9)%nat ∅ [])
  = run_from (load (tk Kprint "print" :: [tk Kid "x"]) (1, 9)%nat
                (Runner.vars (load [] (1, 9)%nat (<["x" := 5]> ∅) []))
                (Runner.out (load [] (1, 9)%nat (<["x" := 5]> ∅) []))).
Proof.
  apply (programs_compose [tk Kid "x"; tk Kassign "="; tk Kbin "101"]
           (tk Kprint "print") [tk Kid "x"] (1, 9)%nat ∅ []
           (load [] (1, 9)%nat (<["x" := 5]> ∅) []));
    [vm_compute; reflexivity | right; reflexivity].
Defined.

(** ** Positions of tokens and of parser errors *)

Lemma walk_app a : ∀ b l c,
  walk (a +:+ b) l c = walk b (walk a l c).1 (walk a l c).2.
Proof.
  induction a as [|x a IH]; intros b l c; [reflexivity|].
  rewrite append_cons. simpl. destruct (is_newline x); apply IH.
Qed.

Lemma walk_snoc done ch l c :
  walk done 1 0 = (l, c) →
  walk (done +:+ String ch EmptyString) 1 0
  = if is_newline ch then (S l, 0%nat) else (l, S c).
Proof. intros H. rewrite walk_app, H. reflexivity. Qed.

Lemma flush_located done rest m :
  partial_at done m → Forall (located (done +:+ rest)) (flush m).
Proof.
  destruct m as [|p acc|p acc]; simpl; [constructor | |];
    intros (before & -> & ->); (constructor; [|constructor]);
    exists before, rest; simpl; now rewrite append_assoc.
Qed.

Lemma snoc_append done ch rest :
  (done +:+ String ch EmptyString) +:+ rest = done +:+ String ch rest.
Proof. now rewrite append_assoc. Qed.

Lemma scan_text_located text :
  ∀ done l c m,
    walk done 1 0 = (l, c) → partial_at done m →
    Forall (located (done +:+ text)) (scan_text text l c m).1.
Proof.
  induction text as [|ch rest IH]; intros done l c m Hw Hm; simpl.
  - now apply flush_located.
  - pose proof (walk_snoc done ch l c Hw) as Hs.
    pose proof (flush_located done (String ch rest) m Hm) as Hf.
    destruct (continues m ch) eqn:Ec.
    { rewrite (continues_not_newline m ch Ec) in Hs.
      rewrite <- snoc_append. apply IH; [exact Hs|].
      destruct m as [|p acc|p acc]; simpl in *; [discriminate | |];
        destruct Hm as (before & -> & ->); exists before;
        now rewrite append_assoc. }
    destruct (is_space ch) eqn:Es.
    { rewrite emit_tokens. apply Forall_app. split; [exact Hf|].
      rewrite <- snoc_append.
      destruct (is_newline ch); now apply IH. }
    rewrite (not_space_not_newline ch Es) in Hs.
    assert (Hone : ∀ k,
      Forall (located (done +:+ String ch rest))
        [Token k (String ch EmptyString) (l, c)]).
    { intros k. constructor; [|constructor]. exists done, rest. simpl.
      split; [reflexivity | now rewrite Hw]. }
    assert (Hidle : Forall (located (done +:+ String ch rest))
                      (scan_text rest l (S c) Idle).1).
    { rewrite <- snoc_append. now apply IH. }
    assert (Hnew : ∀ m', (m' = InBin (l, c) (String ch EmptyString)
                          ∨ m' = InWord (l, c) (String ch EmptyString)) →
      Forall (located (done +:+ String ch rest))
        (scan_text rest l (S c) m').1).
    { intros m' Hm'. rewrite <- snoc_append. apply IH; [exact Hs|].
      destruct Hm' as [-> | ->]; exists done; now rewrite Hw. }
    destruct (Ascii.eqb ch "=") eqn:E1.
    { apply Ascii.eqb_eq in E1 as ->. rewrite emit_tokens.
      repeat (apply Forall_app; split); auto. }
    destruct (Ascii.eqb ch "(") eqn:E2.
    { apply Ascii.eqb_eq in E2 as ->. rewrite emit_tokens.
      repeat (apply Forall_app; split); auto. }
    destruct (Ascii.eqb ch ")") eqn:E3.
    { apply Ascii.eqb_eq in E3 as ->. rewrite emit_tokens.
      repeat (apply Forall_app; split); auto. }
    destruct (is_bin ch).
    { rewrite emit_tokens. apply Forall_app. split; auto. }
    destruct (is_letter ch).
    { rewrite emit_tokens. apply Forall_app. split; auto. }
    exact Hf.
Qed.

(** X17.  Every token is where its position says: its lexeme stands in
    the text, and its position is the line and column plex has reached
    after the characters before the lexeme. *)
Theorem tokens_are_where_their_positions_say (text : string) :
  Forall (located text) (pending (plex_scanner text)).
Proof. apply (scan_text_located text EmptyString 1 0 Idle); reflexivity. Qed.








Example undefined_variable_is_reported_after_it :
  Runner.main "print y and 1"
  = Some ["Parser Error: in atom: unrecognized variable name at line 1 char 9"].
Proof. vm_compute. reflexivity. Qed.

(** ** Layout does not matter *)

Lemma steady_bind {A B} (m : M Runner.pstate A) (k : A -> M Runner.pstate B) :
  steady m → (∀ a, steady (k a)) → steady (bind m k).
Proof.
  intros Hm Hk s s' Hs. unfold bind. specialize (Hm s s' Hs).
  destruct (m s) as [a s1|e s1|], (m s') as [a' s1'|e' s1'|];
    try contradiction; try exact Hm.
  destruct Hm as (<- & Hs1). now apply Hk.
Qed.

Lemma steady_ret {A} (a : A) : steady (ret a).
Proof. intros s s' Hs. now split. Qed.

Lemma steady_raise {A} e : steady (A := A) (raise e).
Proof. intros s s' Hs. now split. Qed.

Lemma steady_exhausted {A} : steady (A := A) exhausted.
Proof. intros s s' Hs. exact I. Qed.

Lemma steady_get_la : steady Runner.get_la.
Proof. intros s s' Hs. split; [apply Hs | exact Hs]. Qed.

Lemma steady_get_val : steady Runner.get_val.
Proof. intros s s' Hs. split; [apply Hs | exact Hs]. Qed.

Lemma steady_get_var x : steady (Runner.get_var x).
Proof.
  intros s s' Hs. split; [|exact Hs].
  destruct Hs as (_ & _ & _ & -> & _). reflexivity.
Qed.

Lemma steady_set_var x v : steady (Runner.set_var x v).
Proof.
  intros s s' (H1 & H2 & H3 & H4 & H5). split; [reflexivity|].
  repeat split; simpl; try apply H1; congruence.
Qed.

Lemma steady_print line : steady (Runner.print line).
Proof.
  intros s s' (H1 & H2 & H3 & H4 & H5). split; [reflexivity|].
  repeat split; simpl; try apply H1; congruence.
Qed.

Lemma steady_advance : steady Runner.advance.
Proof.
  intros s s' ((Hp & He) & H2 & H3 & H4 & H5).
  unfold Runner.advance, read.
  destruct (pending (Runner.scan s)) as [|t ts],
    (pending (Runner.scan s')) as [|t' ts']; try discriminate; simpl.
  - destruct (ending (Runner.scan s)) eqn:E1,
      (ending (Runner.scan s')) eqn:E2; try discriminate; simpl;
      (split; [reflexivity|]); repeat split; simpl;
      rewrite ?E1, ?E2; auto.
  - simpl in Hp. injection Hp as Hk Ht Hrest.
    split; [reflexivity|]. repeat split; simpl; auto; congruence.
Qed.

Lemma steady_match tok : steady (Runner.match_ tok).
Proof.
  intros s s' Hs. unfold Runner.match_.
  replace (Runner.la s') with (Runner.la s) by apply Hs.
  destruct (decide _); [now apply steady_advance|].
  split; [reflexivity | exact Hs].
Qed.

Ltac steady_go :=
  repeat first
    [ apply steady_ret
    | apply steady_raise
    | apply steady_get_la
    | apply steady_get_val
    | apply steady_get_var
    | apply steady_set_var
    | apply steady_print
    | apply steady_match
    | assumption
    | progress cbv zeta
    | match goal with
      | H : ∀ v, steady (_ v) |- _ => apply H
      end
    | apply steady_bind; [| intros ?]
    | match goal with
      | |- steady (match ?k with _ => _ end) => destruct k
      end ].

Section RunnerSteady.
Variables stmt_list' stmt' : M Runner.pstate unit.
Variables expr' term' factor' atom' : M Runner.pstate Z.
Variables term_tail' factor_tail' atom_tail' : Z -> M Runner.pstate Z.
Hypothesis Hstmt_list : steady stmt_list'.
Hypothesis Hstmt : steady stmt'.
Hypothesis Hexpr : steady expr'.
Hypothesis Hterm : steady term'.
Hypothesis Hfactor : steady factor'.
Hypothesis Hatom : steady atom'.
Hypothesis Hterm_tail : ∀ v, steady (term_tail' v).
Hypothesis Hfactor_tail : ∀ v, steady (factor_tail' v).
Hypothesis Hatom_tail : ∀ v, steady (atom_tail' v).

Lemma stmt_list_body_steady : steady (Runner.stmt_list_body stmt_list' stmt').
Proof. unfold Runner.stmt_list_body. steady_go. Qed.

Lemma stmt_body_steady : steady (Runner.stmt_body expr').
Proof. unfold Runner.stmt_body. steady_go. Qed.

Lemma expr_body_steady : steady (Runner.expr_body term' term_tail').
Proof. unfold Runner.expr_body. steady_go. Qed.

Lemma term_tail_body_steady v :
  steady (Runner.term_tail_body term' term_tail' v).
Proof. unfold Runner.term_tail_body. steady_go. Qed.

Lemma term_body_steady : steady (Runner.term_body factor' factor_tail').
Proof. unfold Runner.term_body. steady_go. Qed.

Lemma factor_tail_body_steady v :
  steady (Runner.factor_tail_body factor' factor_tail' v).
Proof. unfold Runner.factor_tail_body. steady_go. Qed.

Lemma factor_body_steady : steady (Runner.factor_body atom' atom_tail').
Proof. unfold Runner.factor_body. steady_go. Qed.

Lemma atom_tail_body_steady v :
  steady (Runner.atom_tail_body atom' atom_tail' v).
Proof. unfold Runner.atom_tail_body. steady_go. Qed.

Lemma atom_body_steady : steady (Runner.atom_body expr').
Proof. unfold Runner.atom_body. steady_go. Qed.
End RunnerSteady.

Lemma runner_steady n :
  steady (Runner.stmt_list n)
  ∧ steady (Runner.stmt n)
  ∧ steady (Runner.expr n)
  ∧ steady (Runner.term n)
  ∧ steady (Runner.factor n)
  ∧ steady (Runner.atom n)
  ∧ (∀ v, steady (Runner.term_tail n v))
  ∧ (∀ v, steady (Runner.factor_tail n v))
  ∧ (∀ v, steady (Runner.atom_tail n v)).
Proof.
  induction n as [|n (H1 & H2 & H3 & H4 & H5 & H6 & H7 & H8 & H9)].
  - repeat apply conj; intros; apply steady_exhausted.
  - simpl. repeat apply conj; intros.
    + now apply stmt_list_body_steady.
    + now apply stmt_body_steady.
    + now apply expr_body_steady.
    + now apply term_body_steady.
    + now apply factor_body_steady.
    + now apply atom_body_steady.
    + now apply term_tail_body_steady.
    + now apply factor_tail_body_steady.
    + now apply atom_tail_body_steady.
Qed.

Lemma parse_steady n text text' :
  alike_scanner (plex_scanner text) (plex_scanner text') →
  alike_result (Runner.parse n text) (Runner.parse n text').
Proof.
  intros H. unfold Runner.parse.
  apply steady_bind;
    [apply steady_advance | intros _; apply runner_steady |].
  split; [exact H | repeat split].
Qed.

(** X19.  Positions do not matter to what the interpreter computes: on two
    texts whose tokens have the same kinds and lexemes in the same order,
    and that end the same way, [parse] returns with the same dictionary and
    the same output, or raises the same exception with the same dictionary
    and output. *)
Theorem positions_do_not_matter (n : nat) (text text' : string)
    (Htokens : map shape (pending (plex_scanner text))
               = map shape (pending (plex_scanner text')))
    (Hend : same_end (ending (plex_scanner text))
              (ending (plex_scanner text')) = true) :
  match Runner.parse n text, Runner.parse n text' with
  | Ok _ s, Ok _ s' =>
      Runner.vars s = Runner.vars s' ∧ Runner.out s = Runner.out s'
  | Raise e s, Raise e' s' =>
      e = e' ∧ Runner.vars s = Runner.vars s' ∧ Runner.out s = Runner.out s'
  | Exhausted, Exhausted => True
  | _, _ => False
  end.
Proof.
  pose proof (parse_steady n text text' (conj Htokens Hend)) as H.
  destruct (Runner.parse n text) as [a s|e s|],
    (Runner.parse n text') as [a' s'|e' s'|]; try contradiction; auto.
  - destruct H as (_ & _ & _ & _ & Hv & Ho). now split.
  - destruct H as (He & _ & _ & _ & Hv & Ho). now repeat split.
Qed.

Lemma positions_do_not_matter_witness :
  match Runner.parse 20 "x=1 print x", Runner.parse 20 (String "010" "x = 1   print  x") with
  | Ok _ s, Ok _ s' =>
      Runner.vars s = Runner.vars s' ∧ Runner.out s = Runner.out s'
  | Raise e s, Raise e' s' =>
      e = e' ∧ Runner.vars s = Runner.vars s' ∧ Runner.out s = Runner.out s'
  | Exhausted, Exhausted => True
  | _, _ => False
  end.
Proof.
  apply (positions_do_not_matter 20 "x=1 print x"
           (String "010" "x = 1   print  x")); reflexivity.
Defined.


Lemma same_partial_flush m m' :
  same_partial m m' → map shape (flush m) = map shape (flush m').
Proof.
  destruct m, m'; simpl; try contradiction; try reflexivity;
    now intros ->.
Qed.

Lemma same_partial_continues m m' ch :
  same_partial m m' → continues m ch = continues m' ch.
Proof. destruct m, m'; simpl; try contradiction; reflexivity. Qed.

Lemma same_partial_extend m m' ch :
  same_partial m m' → same_partial (extend m ch) (extend m' ch).
Proof. destruct m, m'; simpl; try contradiction; auto; now intros ->. Qed.

Lemma space_not_continues m ch : is_space ch = true → continues m ch = false.
Proof.
  intros H. destruct (continues m ch) eqn:E; [|reflexivity].
  rewrite (continues_not_space m ch E) in H. discriminate.
Qed.

Lemma shape_emit ts ts' r r' :
  map shape ts = map shape ts' →
  map shape r.1 = map shape r'.1 ∧ same_end r.2 r'.2 = true →
  map shape (emit ts r).1 = map shape (emit ts' r').1
  ∧ same_end (emit ts r).2 (emit ts' r').2 = true.
Proof.
  intros H (H1 & H2). unfold emit. simpl.
  now rewrite !map_app, H, H1.
Qed.

Lemma scan_text_squeeze text :
  ∀ flag l c m l' c' m',
    same_partial m m' → (flag = true → m = Idle) →
    map shape (scan_text text l c m).1
    = map shape (scan_text (squeeze_from flag text) l' c' m').1
    ∧ same_end (scan_text text l c m).2
        (scan_text (squeeze_from flag text) l' c' m').2 = true.
Proof.
  induction text as [|ch rest IH]; intros flag l c m l' c' m' Hm Hflag.
  - simpl. split; [now apply same_partial_flush | reflexivity].
  - pose proof (same_partial_flush m m' Hm) as Hf.
    simpl squeeze_from. destruct (is_space ch) eqn:Es.
    + cbn [scan_text]. rewrite (space_not_continues m ch Es), Es.
      destruct flag.
      * rewrite (Hflag eq_refl) in *.
        destruct m'; try contradiction.
        assert (Hgo : ∀ l0 c0,
          map shape (emit (flush Idle) (scan_text rest l0 c0 Idle)).1
          = map shape (scan_text (squeeze_from true rest) l' c' Idle).1
          ∧ same_end (emit (flush Idle) (scan_text rest l0 c0 Idle)).2
              (scan_text (squeeze_from true rest) l' c' Idle).2 = true).
        { intros l0 c0. apply (IH true l0 c0 Idle l' c' Idle); auto. }
        destruct (is_newline ch); apply Hgo.
      * cbn [scan_text]. rewrite (space_not_continues m' " " eq_refl).
        change (is_space " ") with true. change (is_newline " ") with false.
        cbv iota.
        destruct (is_newline ch); (apply shape_emit; [exact Hf|]);
          apply IH; auto; exact I.
    + cbn [scan_text]. rewrite <- (same_partial_continues m m' ch Hm), Es.
      destruct (continues m ch).
      { apply IH; [now apply same_partial_extend | discriminate]. }
      assert (Hone : ∀ k p p',
        map shape (flush m ++ [Token k (String ch EmptyString) p])
        = map shape (flush m' ++ [Token k (String ch EmptyString) p'])).
      { intros k p p'. now rewrite !map_app, Hf. }
      destruct (Ascii.eqb ch "=") eqn:E1.
      { apply Ascii.eqb_eq in E1 as ->.
        apply shape_emit; [apply Hone | apply IH; [exact I | discriminate]]. }
      destruct (Ascii.eqb ch "(") eqn:E2.
      { apply Ascii.eqb_eq in E2 as ->.
        apply shape_emit; [apply Hone | apply IH; [exact I | discriminate]]. }
      destruct (Ascii.eqb ch ")") eqn:E3.
      { apply Ascii.eqb_eq in E3 as ->.
        apply shape_emit; [apply Hone | apply IH; [exact I | discriminate]]. }
      destruct (is_bin ch).
      { apply shape_emit; [exact Hf | apply IH; [reflexivity | discriminate]]. }
      destruct (is_letter ch).
      { apply shape_emit; [exact Hf | apply IH; [reflexivity | discriminate]]. }
      simpl. split; [exact Hf | reflexivity].
Qed.

Lemma plex_scanner_squeeze text :
  alike_scanner (plex_scanner text) (plex_scanner (squeeze text)).
Proof.
  apply (scan_text_squeeze text false 1 0 Idle 1 0 Idle);
    [exact I | discriminate].
Qed.

Lemma alike_scanner_sym a b : alike_scanner a b → alike_scanner b a.
Proof.
  intros (H1 & H2). split; [now symmetry|].
  destruct (ending a), (ending b); try discriminate; reflexivity.
Qed.

Lemma alike_scanner_trans a b c :
  alike_scanner a b → alike_scanner b c → alike_scanner a c.
Proof.
  intros (H1 & H2) (H3 & H4). split; [congruence|].
  destruct (ending a), (ending b), (ending c); try discriminate; reflexivity.
Qed.

(** X20.  A run of spaces, tabs and newlines is as good as one space: on
    two texts that are the same once every such run is made one space,
    [parse] returns with the same dictionary and output, or raises the same
    exception with the same dictionary and output. *)
Theorem runs_of_blanks_are_one_space (n : nat) (text text' : string)
    (H : squeeze text = squeeze text') :
  match Runner.parse n text, Runner.parse n text' with
  | Ok _ s, Ok _ s' =>
      Runner.vars s = Runner.vars s' ∧ Runner.out s = Runner.out s'
  | Raise e s, Raise e' s' =>
      e = e' ∧ Runner.vars s = Runner.vars s' ∧ Runner.out s = Runner.out s'
  | Exhausted, Exhausted => True
  | _, _ => False
  end.
Proof.
  assert (Ha : alike_scanner (plex_scanner text) (plex_scanner text')).
  { apply (alike_scanner_trans _ (plex_scanner (squeeze text)));
      [apply plex_scanner_squeeze|].
    rewrite H. apply alike_scanner_sym, plex_scanner_squeeze. }
  pose proof (parse_steady n text text' Ha) as Hp.
  destruct (Runner.parse n text) as [a s|e s|],
    (Runner.parse n text') as [a' s'|e' s'|]; try contradiction; auto.
  - destruct Hp as (_ & _ & _ & _ & Hv & Ho). now split.
  - destruct Hp as (He & _ & _ & _ & Hv & Ho). now repeat split.
Qed.

Lemma runs_of_blanks_are_one_space_witness :
  match Runner.parse 20 "x = 1 print x",
        Runner.parse 20
          (String "x" (String "009" (String "=" (String "010"
             (String "1" (String "010" (String "010" "print   x")))))))
  with
  | Ok _ s, Ok _ s' =>
      Runner.vars s = Runner.vars s' ∧ Runner.out s = Runner.out s'
  | Raise e s, Raise e' s' =>
      e = e' ∧ Runner.vars s = Runner.vars s' ∧ Runner.out s = Runner.out s'
  | Exhausted, Exhausted => True
  | _, _ => False
  end.
Proof.
  apply (runs_of_blanks_are_one_space 20 "x = 1 print x"
           (String "x" (String "009" (String "=" (String "010"
              (String "1" (String "010" (String "010" "print   x"))))))));
    reflexivity.
Defined.
